(** * EVM bootstrap peer discovery

    A shallow embedding of [src/index.ts] (class [EVMBootstrap], function
    [toEthersProvider]): the constructor's validation, the start/stop
    lifecycle around a one-shot timer, and the discovery pipeline
    [_discoverBootstrapPeers].

    The class talks to collaborators that are not part of the repository (the
    ethers provider and contract, libp2p's peer routing, peer store and
    connection manager, the logger, the host's timers).  Every call made to
    one of them is recorded as an [Effect]; what a collaborator answers is
    read from a script, [Env].  The pipeline is an [async] function: whenever
    it hands control to a collaborator, other code may run and call
    [start()] or [stop()] on the same instance; the script says which calls
    are made at which point.  Two runs of the pipeline do not overlap: a
    timer fires when simulated time is advanced, and its callback runs to the
    end before the next one. *)

From Stdlib Require Import ZArith List String Bool Lia DecimalString.
Import ListNotations.
Local Open Scope string_scope.
Local Open Scope Z_scope.
Local Open Scope list_scope.

(** ** Data *)

(** Peer identifiers and multiaddrs are opaque values of libp2p; they are
    represented by their canonical text. *)
Definition PeerId := string.
Definition Multiaddr := string.

Record PeerInfo := mkPeerInfo { id : PeerId; multiaddrs : list Multiaddr }.

(** A thrown or rejected JavaScript value. *)
Record JsError := mkError { message : string }.

(** How a call ends: it returns (or its promise resolves), or it throws (or
    its promise rejects). *)
Inductive Completion (A : Type) : Type :=
| Normal (a : A)
| Throw (e : JsError).
Arguments Normal {A} a.
Arguments Throw {A} e.

(** The value passed as [options.ethereum].  [toEthersProvider] looks at two
    things only: whether [typeof input.getNetwork === 'function'] and whether
    [typeof input.request === 'function']. *)
Inductive ProviderValue : Type :=
| JsObject (hasGetNetwork hasRequest : bool)
| BrowserProvider (inner : ProviderValue).

Definition hasGetNetworkFunction (v : ProviderValue) : bool :=
  match v with
  | JsObject g _ => g
  | BrowserProvider _ => true
  end.

Definition hasRequestFunction (v : ProviderValue) : bool :=
  match v with
  | JsObject _ r => r
  | BrowserProvider _ => false
  end.

(** [BootstrapInit]; a field that the caller may leave [null] or [undefined]
    is an [option]. *)
Record BootstrapInit := mkInit {
  contractAddress : option string;
  contractIndex : option string;
  chainId : option Z;
  ethereum : option ProviderValue;
  timeout : option Z;
  tagName : option string;
  tagValue : option Z;
  tagTTL : option Z
}.

Definition DEFAULT_BOOTSTRAP_TAG_NAME : string := "evmbootstrap".
Definition DEFAULT_BOOTSTRAP_TAG_VALUE : Z := 50.
Definition DEFAULT_BOOTSTRAP_DISCOVERY_TIMEOUT : Z := 1000.
Definition CONTRACT_ABI : list string :=
  [ "function MAX_PEERS() view returns (uint8)";
    "function ID_LENGTH() view returns (uint16)";
    "function getPeerCount(address) view returns (uint8)";
    "function getAllPeerIds(address) view returns (string[])";
    "function getPeerId(address, uint8) view returns (string)";
    "function addPeerId(string calldata peerId)";
    "function setPeerId(uint8 slot, string calldata peerId)";
    "function removePeerId(uint8 slot)" ].

(** The read-only fields of an instance: [this.timeout] and [this._init]. *)
Record EVMBootstrap := mkInstance {
  this_timeout : Z;
  _init : BootstrapInit
}.

(** ** Effects *)

Inductive Level : Type := LInfo | LError | LTrace.

Inductive LogArg : Type :=
| AStr (s : string)
| ANum (n : Z)
| AStrs (l : list string)
| AErr (e : JsError)
| APeerId (p : PeerId)
| APeerInfo (p : PeerInfo).

(** One call made to a collaborator.  [Log lvl args] is [this.log(...)],
    [this.log.error(...)] or [this.log.trace(...)] with its arguments. *)
Inductive Effect : Type :=
| LoggerFor (name : string)
| Log (lvl : Level) (args : list LogArg)
| GetNetwork
| NewContract (address : option string) (abi : list string) (runner : option ProviderValue)
| GetAllPeerIds (index : option string)
| FindPeer (p : PeerId)
| Merge (p : PeerId) (tag : string) (value : Z) (ttl : option Z) (addrs : list Multiaddr)
| PeerEvent (detail : PeerInfo)
| OpenConnection (p : PeerId).

Definition isLog (e : Effect) : bool :=
  match e with
  | Log _ _ => true
  | _ => false
  end.

(** The calls of a trace, its log lines left out. *)
Definition calls (t : list Effect) : list Effect :=
  filter (fun e => negb (isLog e)) t.

(** A call that reaches the chain or the network. *)
Definition isNetworkAccess (e : Effect) : bool :=
  match e with
  | GetNetwork | GetAllPeerIds _ | FindPeer _ | OpenConnection _ => true
  | _ => false
  end.

(** ** The host's timers

    [setTimeout] and [clearTimeout] over a simulated clock, as the fake
    timers of the test suite provide them.  A handle is a positive number
    (hence truthy).  A delay above 2^31-1 counts as 1, as it does in Node
    and in browsers; a negative delay counts as zero; and a timer armed with
    no delay while the clock is being advanced ([ticking]) falls due one
    millisecond later, not at once.  The pending timers are kept in the
    order in which they fall due. *)
Definition TimerHandle := positive.

Record Sched := mkSched {
  now : Z;
  nextId : TimerHandle;
  pending : list (TimerHandle * Z);
  ticking : bool
}.

Fixpoint insertDue (t : TimerHandle * Z) (l : list (TimerHandle * Z))
  : list (TimerHandle * Z) :=
  match l with
  | [] => [t]
  | u :: l' => if snd u <=? snd t then u :: insertDue t l' else t :: l
  end.

Definition MAX_TIMEOUT : Z := 2147483647.

(** The time after which a timer armed with [delay] falls due. *)
Definition effectiveDelay (duringTick : bool) (delay : Z) : Z :=
  let d := Z.max 0 (if delay >? MAX_TIMEOUT then 1 else delay) in
  if (d =? 0) && duringTick then 1 else d.

Definition setTimeout (delay : Z) (s : Sched) : TimerHandle * Sched :=
  (nextId s,
   mkSched (now s) (Pos.succ (nextId s))
           (insertDue (nextId s, now s + effectiveDelay (ticking s) delay) (pending s))
           (ticking s)).

Definition clearTimeout (h : TimerHandle) (s : Sched) : Sched :=
  mkSched (now s) (nextId s)
          (filter (fun t => negb (Pos.eqb (fst t) h)) (pending s))
          (ticking s).

(** ** State and the monad of the methods *)

(** A connection request in flight: the promise that [openConnection]
    returned for [dialPeer], which the pipeline does not await, with the
    handlers attached to it: always a [catch] that logs the failure and, when
    [tracesSuccess], a [then] that logs the success.  When the promise
    settles, and whether it does, is up to the connection manager. *)
Record Dial := mkDial {
  dialPeer : PeerId;
  tracesSuccess : bool
}.

(** The mutable part of an instance, [this.timer] and [this.list], with the
    timers of the host; [dials] holds the connection requests in flight. *)
Record St := mkSt {
  timer : option TimerHandle;
  peerList : list PeerInfo;
  sched : Sched;
  dials : list Dial
}.

Definition setTimer (t : option TimerHandle) (s : St) : St :=
  mkSt t (peerList s) (sched s) (dials s).
Definition setSched (c : Sched) (s : St) : St :=
  mkSt (timer s) (peerList s) c (dials s).
Definition pushPeer (p : PeerInfo) (s : St) : St :=
  mkSt (timer s) (peerList s ++ [p]) (sched s) (dials s).
Definition pushDial (d : Dial) (s : St) : St :=
  mkSt (timer s) (peerList s) (sched s) (dials s ++ [d]).

(** A method run from a state ends normally or by throwing; either way it
    leaves a state and the effects it issued, in order. *)
Definition M (A : Type) : Type := St -> Completion A * St * list Effect.

Definition ret {A} (a : A) : M A := fun s => (Normal a, s, []).

Definition throw {A} (e : JsError) : M A := fun s => (Throw e, s, []).

Definition bind {A B} (m : M A) (f : A -> M B) : M B :=
  fun s =>
    match m s with
    | (Normal a, s1, t1) =>
        match f a s1 with
        | (c, s2, t2) => (c, s2, t1 ++ t2)
        end
    | (Throw e, s1, t1) => (Throw e, s1, t1)
    end.

(** [try { m } catch (err) { h err }] *)
Definition tryCatch {A} (m : M A) (h : JsError -> M A) : M A :=
  fun s =>
    match m s with
    | (Normal a, s1, t1) => (Normal a, s1, t1)
    | (Throw e, s1, t1) =>
        match h e s1 with
        | (c, s2, t2) => (c, s2, t1 ++ t2)
        end
    end.

Notation "x <- m ;; k" := (bind m (fun x => k))
  (at level 61, m at next level, right associativity).
Notation "m ;; k" := (bind m (fun _ => k))
  (at level 61, right associativity).

Definition emit (e : Effect) : M unit := fun s => (Normal tt, s, [e]).
Definition get : M St := fun s => (Normal s, s, []).
Definition modify (f : St -> St) : M unit := fun s => (Normal tt, f s, []).
Definition complete {A} (c : Completion A) : M A := fun s => (c, s, []).

Definition log (args : list LogArg) : M unit := emit (Log LInfo args).
Definition log_error (args : list LogArg) : M unit := emit (Log LError args).
Definition log_trace (args : list LogArg) : M unit := emit (Log LTrace args).

(** ** Construction *)

(** [typeof window !== 'undefined'] is a fact about the host, passed in. *)
Definition toEthersProvider (windowDefined : bool) (input : option ProviderValue)
  : Completion ProviderValue :=
  match input with
  | Some v =>
      if hasGetNetworkFunction v then Normal v
      else if windowDefined && hasRequestFunction v then Normal (BrowserProvider v)
      else Throw (mkError "Invalid provider: must be an ethers Provider or EIP-1193 provider")
  | None => Throw (mkError "Invalid provider: must be an ethers Provider or EIP-1193 provider")
  end.

Definition orDefault {A} (o : option A) (d : A) : A :=
  match o with
  | Some a => a
  | None => d
  end.

(** [new EVMBootstrap(components, options)]: the instance or the error
    thrown, with the calls made on the way. *)
Definition constructor (windowDefined : bool) (options : BootstrapInit)
  : Completion EVMBootstrap * list Effect :=
  match contractAddress options with
  | None => (Throw (mkError "EVMBootstrap requires a contract address"), [])
  | Some _ =>
  match contractIndex options with
  | None => (Throw (mkError "EVMBootstrap requires a contract index"), [])
  | Some _ =>
  match chainId options with
  | None => (Throw (mkError "EVMBootstrap requires a chain id"), [])
  | Some _ =>
  match ethereum options with
  | None => (Throw (mkError "EVMBootstrap requires an ethereum provider"), [])
  | Some _ =>
      match toEthersProvider windowDefined (ethereum options) with
      | Throw e => (Throw e, [LoggerFor "libp2p:evmbootstrap"])
      | Normal p =>
          (Normal (mkInstance
                     (orDefault (timeout options) DEFAULT_BOOTSTRAP_DISCOVERY_TIMEOUT)
                     (mkInit (contractAddress options) (contractIndex options)
                             (chainId options) (Some p) (timeout options)
                             (tagName options) (tagValue options) (tagTTL options))),
           [LoggerFor "libp2p:evmbootstrap"])
      end
  end end end end.

(** The state of a freshly constructed instance: no timer, an empty list. *)
Definition freshState (c : Sched) : St := mkSt None [] c [].

(** ** Lifecycle *)

(** [Boolean(this.timer)]: a timer handle is truthy. *)
Definition isStarted (s : St) : bool :=
  match timer s with
  | Some _ => true
  | None => false
  end.

(** [start()], lines 185-197. *)
Definition start (i : EVMBootstrap) : M unit :=
  s <- get ;;
  if isStarted s then ret tt
  else
    log [AStr "Starting evm bootstrap node discovery, discovering peers after %s ms";
         ANum (this_timeout i)] ;;
    modify (fun s => let '(h, c) := setTimeout (this_timeout i) (sched s) in
                     setTimer (Some h) (setSched c s)).

(** [stop()], lines 275-281. *)
Definition stop : M unit :=
  s <- get ;;
  match timer s with
  | Some h => modify (fun s => setSched (clearTimeout h (sched s)) s)
  | None => ret tt
  end ;;
  modify (setTimer None).

(** ** The collaborators' script *)

(** A call made on the instance by other code while the pipeline waits. *)
Inductive LifecycleCall : Type := CallStart | CallStop.

(** The places where the pipeline hands control to a collaborator: the
    awaited calls, the contract constructor, the dispatch of the ["peer"]
    event to its listeners and the call of [openConnection].  The number is
    the position in the sequence being iterated, from 0. *)
Inductive Point : Type :=
| PNetwork
| PContract
| PPeerIds
| PFindPeer (n : nat)
| PMerge (n : nat)
| PDispatch (n : nat)
| POpen (n : nat).

(** What the collaborators do during one run of the pipeline: the outcome of
    each call, and the lifecycle calls made on the instance at each point.
    [openConnection] returns a promise, as the connection manager's interface
    declares, and the field says how the promise of the [n]-th request
    settles; a connection manager that throws instead of returning a promise
    is outside the model. *)
Record Env := mkEnv {
  getNetwork : Completion Z;
  newContract : Completion unit;
  getAllPeerIds : Completion (list string);
  peerIdFromString : string -> Completion PeerId;
  findPeer : nat -> PeerId -> Completion PeerInfo;
  merge : nat -> PeerInfo -> Completion unit;
  openConnection : nat -> PeerId -> Completion unit;
  during : Point -> list LifecycleCall
}.

(** The call runs to its end in the caller's own task: what it throws, if
    anything, goes to that caller and not to the pipeline. *)
Definition lifecycle (i : EVMBootstrap) (c : LifecycleCall) (s : St)
  : St * list Effect :=
  let '(_, s', t) := match c with
                     | CallStart => start i s
                     | CallStop => stop s
                     end in
  (s', t).

Fixpoint runCalls (i : EVMBootstrap) (cs : list LifecycleCall) (s : St)
  : St * list Effect :=
  match cs with
  | [] => (s, [])
  | c :: cs' =>
      let '(s1, t1) := lifecycle i c s in
      let '(s2, t2) := runCalls i cs' s1 in
      (s2, t1 ++ t2)
  end.

(** Control is with a collaborator at point [pt]. *)
Definition yield (i : EVMBootstrap) (env : Env) (pt : Point) : M unit :=
  fun s => let '(s', t) := runCalls i (during env pt) s in (Normal tt, s', t).

(** The call [e] is made at point [pt] and ends as [r]. *)
Definition await {A} (i : EVMBootstrap) (env : Env) (pt : Point) (e : Effect)
  (r : Completion A) : M A :=
  emit e ;; yield i env pt ;; complete r.

(** ** The discovery pipeline *)

Definition showBigInt (z : Z) : string := NilZero.string_of_int (Z.to_int z).

(** [`${this._init.chainId}`] *)
Definition showChainId (c : option Z) : string :=
  match c with
  | Some z => showBigInt z
  | None => "undefined"
  end.

Definition wrongChainLog (observed : Z) (expected : option Z) : string :=
  String.concat ""
    [ "Ethereum provider is connected to chainId "; showBigInt observed;
      ", but expected "; showChainId expected;
      ". Please switch networks in your wallet." ].

Definition wrongNetworkError (observed : Z) (expected : option Z) : JsError :=
  mkError (String.concat ""
    [ "Wrong network: expected chainId "; showChainId expected;
      ", got "; showBigInt observed ]).

(** [network.chainId !== this._init.chainId] *)
Definition chainDiffers (observed : Z) (expected : option Z) : bool :=
  match expected with
  | Some c => negb (observed =? c)
  | None => true
  end.

(** The body of [for (const peerIdStr of peerIds)], lines 225-235. *)
Fixpoint resolveLoop (i : EVMBootstrap) (env : Env) (n : nat) (peerIds : list string)
  : M unit :=
  match peerIds with
  | [] => ret tt
  | peerIdStr :: rest =>
      tryCatch
        (log_trace [AStr "Processing peer ID:"; AStr peerIdStr] ;;
         peerId <- complete (peerIdFromString env peerIdStr) ;;
         peerInfo <- await i env (PFindPeer n) (FindPeer peerId) (findPeer env n peerId) ;;
         modify (pushPeer peerInfo) ;;
         log_trace [AStr "Added peer info to list:"; APeerInfo peerInfo])
        (fun err =>
           log_error [AStr "Could not lookup  multiaddrs for bootstrap peer";
                      AStr peerIdStr; AErr err]) ;;
      resolveLoop i env (S n) rest
  end.

(** The registry call of one entry, line 240. *)
Definition mergeCall (i : EVMBootstrap) (peerData : PeerInfo) : Effect :=
  Merge (id peerData)
        (orDefault (tagName (_init i)) DEFAULT_BOOTSTRAP_TAG_NAME)
        (orDefault (tagValue (_init i)) DEFAULT_BOOTSTRAP_TAG_VALUE)
        (tagTTL (_init i))
        (multiaddrs peerData).

(** What the handlers attached to a dial log if and when its promise
    settles as [r], lines 260-265; this happens detached from the pipeline,
    which has gone on or returned by then. *)
Definition dialSettled (d : Dial) (r : Completion unit) : list Effect :=
  match r with
  | Normal _ =>
      if tracesSuccess d
      then [Log LTrace [AStr "Successfully called openConnection for peer";
                        APeerId (dialPeer d)]]
      else []
  | Throw err =>
      [Log LError [AStr "could not dial bootstrap peer %p"; APeerId (dialPeer d); AErr err]]
  end.

(** How a loop inside the function ends: it runs to its end, or a [return]
    in its body leaves the function. *)
Inductive Ctl : Type := Fallthrough | Returned.

(** The body of [for (const peerData of this.list)], lines 238-266. *)
Fixpoint tagLoop (i : EVMBootstrap) (env : Env) (n : nat) (l : list PeerInfo)
  : M Ctl :=
  match l with
  | [] => ret Fallthrough
  | peerData :: rest =>
      log_trace [AStr "Processing peer data:"; APeerInfo peerData] ;;
      await i env (PMerge n) (mergeCall i peerData) (merge env n peerData) ;;
      s <- get ;;
      match timer s with
      | None =>
          log_trace [AStr "Timer is null, returning early"] ;;
          ret Returned
      | Some _ =>
          log_trace [AStr "Dispatching peer event"] ;;
          emit (PeerEvent peerData) ;;
          yield i env (PDispatch n) ;;
          log_trace [AStr "About to call openConnection for peer"; APeerId (id peerData)] ;;
          emit (OpenConnection (id peerData)) ;;
          yield i env (POpen n) ;;
          modify (pushDial (mkDial (id peerData) true)) ;;
          tagLoop i env (S n) rest
      end
  end.

(** The [try] block, lines 219-266. *)
Definition discoverBody (i : EVMBootstrap) (env : Env) : M unit :=
  log_trace [AStr "Creating contract instance"] ;;
  await i env PContract
        (NewContract (contractAddress (_init i)) CONTRACT_ABI (ethereum (_init i)))
        (newContract env) ;;
  log_trace [AStr "Calling getAllPeerIds"] ;;
  peerIds <- await i env PPeerIds (GetAllPeerIds (contractIndex (_init i)))
                   (getAllPeerIds env) ;;
  log [AStr "Found %d bootstrap peers ids"; ANum (Z.of_nat (List.length peerIds));
       AStrs peerIds] ;;
  log_trace [AStr "Processing peer IDs:"; AStrs peerIds] ;;
  resolveLoop i env 0 peerIds ;;
  s <- get ;;
  log_trace [AStr "Processing peer list, count:";
             ANum (Z.of_nat (List.length (peerList s)))] ;;
  tagLoop i env 0 (peerList s) ;;
  ret tt.

Definition discoverFailed (err : JsError) : Effect :=
  Log LError [AStr "Could not discover bootstrap peers"; AErr err].

Definition _discoverBootstrapPeers (i : EVMBootstrap) (env : Env) : M unit :=
  log_trace [AStr "_discoverBootstrapPeers called"] ;;
  s <- get ;;
  match timer s with
  | None => log_trace [AStr "timer is null, returning early"]
  | Some _ =>
      log_trace [AStr "Getting network from ethereum provider"] ;;
      network <- await i env PNetwork GetNetwork (getNetwork env) ;;
      if chainDiffers network (chainId (_init i)) then
        log_error [AStr (wrongChainLog network (chainId (_init i)))] ;;
        throw (wrongNetworkError network (chainId (_init i)))
      else
        tryCatch (discoverBody i env) (fun err => emit (discoverFailed err))
  end.

(** ** Time *)

(** The callback that [start] hands to [setTimeout], lines 191-196. *)
Definition timerCallback (i : EVMBootstrap) (env : Env) : M unit :=
  tryCatch (_discoverBootstrapPeers i env) (fun err => log_error [AErr err]).

(** A timer fires: it leaves the pending timers, the clock stands at its due
    time, and its callback runs. *)
Definition fired (h : TimerHandle) (due : Z) (c : Sched) : Sched :=
  mkSched (Z.max (now c) due) (nextId c) (pending (clearTimeout h c)) (ticking c).

Definition setTicking (b : bool) (c : Sched) : Sched :=
  mkSched (now c) (nextId c) (pending c) b.

(** The earliest timer of [l], the first of them among equals. *)
Fixpoint earliest (l : list (TimerHandle * Z)) : option (TimerHandle * Z) :=
  match l with
  | [] => None
  | t :: l' =>
      match earliest l' with
      | Some u => if snd u <? snd t then Some u else Some t
      | None => Some t
      end
  end.

(** The pending timer that fires next on the way to [target].  No timer is
    overdue: a timer is armed for now or later, and an advance fires every
    timer on its way. *)
Definition nextDue (target : Z) (c : Sched) : option (TimerHandle * Z) :=
  earliest (filter (fun t => snd t <=? target) (pending c)).

(** The timers due by [target] fire one after the other, those armed in the
    meantime included; the [n]-th firing runs with the script [envs n], and
    the pipeline it starts runs to its end before the next timer fires.  A
    timer armed during the advance falls due at least a millisecond after it
    was armed, so the firings are at most the timers pending at the start
    and one per millisecond of the advance; [fuel] counts them. *)
Fixpoint fireDue (fuel : nat) (i : EVMBootstrap) (envs : nat -> Env) (n : nat)
  (target : Z) : M unit :=
  match fuel with
  | O => ret tt
  | S fuel' =>
      s <- get ;;
      match nextDue target (sched s) with
      | Some (h, d) =>
          modify (fun s => setSched (fired h d (sched s)) s) ;;
          timerCallback i (envs n) ;;
          fireDue fuel' i envs (S n) target
      | None => ret tt
      end
  end.

(** The clock has advanced to [target], if that is later than now, and the
    advance is over. *)
Definition advanced (target : Z) (s : St) : St :=
  setSched (mkSched (Z.max (now (sched s)) target) (nextId (sched s))
                    (pending (sched s)) false) s.

(** Simulated time advances by [ms], as with [tickAsync] of the fake
    timers: every timer that falls due on the way fires, also one armed by a
    callback of this advance.  A negative [ms] is refused. *)
Definition tick (i : EVMBootstrap) (envs : nat -> Env) (ms : Z) : M unit :=
  if ms <? 0 then throw (mkError "Negative ticks are not supported")
  else
    s <- get ;;
    let target := now (sched s) + ms in
    modify (fun s => setSched (setTicking true (sched s)) s) ;;
    fireDue (List.length (pending (sched s)) + S (Z.to_nat ms)) i envs 0 target ;;
    modify (advanced target).

(** The number of pipeline executions in a trace: the function's first
    statement logs its entry. *)
Definition isEntryLog (e : Effect) : bool :=
  match e with
  | Log LTrace [AStr m] => String.eqb m "_discoverBootstrapPeers called"
  | _ => false
  end.

Definition executions (t : list Effect) : nat := List.length (filter isEntryLog t).

(** ** Reading a run *)

(** The identifiers of [peerIds] that [peerIdFromString] accepts. *)
Definition parsed (env : Env) (peerIds : list string) : list PeerId :=
  flat_map (fun str => match peerIdFromString env str with
                       | Normal p => [p]
                       | Throw _ => []
                       end) peerIds.

(** How the [n]-th identifier fares: parsed, then looked up. *)
Definition resolveOutcome (env : Env) (n : nat) (str : string) : Completion PeerInfo :=
  match peerIdFromString env str with
  | Normal p => findPeer env n p
  | Throw e => Throw e
  end.

(** The peers that the identifiers from position [n] on resolve to. *)
Fixpoint resolved (env : Env) (n : nat) (peerIds : list string) : list PeerInfo :=
  match peerIds with
  | [] => []
  | str :: rest =>
      match resolveOutcome env n str with
      | Normal info => info :: resolved env (S n) rest
      | Throw _ => resolved env (S n) rest
      end
  end.

Definition lookupFailed (str : string) (err : JsError) : Effect :=
  Log LError [AStr "Could not lookup  multiaddrs for bootstrap peer"; AStr str; AErr err].

(** The calls of one full pass of the tagging loop's body. *)
Definition stepCalls (i : EVMBootstrap) (p : PeerInfo) : list Effect :=
  [mergeCall i p; PeerEvent p; OpenConnection (id p)].

(** The calls made before the tagging loop when the chain is the right one
    and the contract answers [peerIds]. *)
Definition queryCalls (i : EVMBootstrap) (env : Env) (peerIds : list string)
  : list Effect :=
  GetNetwork
    :: NewContract (contractAddress (_init i)) CONTRACT_ABI (ethereum (_init i))
    :: GetAllPeerIds (contractIndex (_init i))
    :: map FindPeer (parsed env peerIds).

Definition isMerge (e : Effect) : bool :=
  match e with Merge _ _ _ _ _ => true | _ => false end.
Definition isPeerEvent (e : Effect) : bool :=
  match e with PeerEvent _ => true | _ => false end.
Definition isOpenConnection (e : Effect) : bool :=
  match e with OpenConnection _ => true | _ => false end.
Definition isFindPeer (e : Effect) : bool :=
  match e with FindPeer _ => true | _ => false end.
Definition isContractCall (e : Effect) : bool :=
  match e with NewContract _ _ _ | GetAllPeerIds _ => true | _ => false end.

Definition merges (t : list Effect) : list Effect := filter isMerge t.
Definition events (t : list Effect) : list Effect := filter isPeerEvent t.
Definition opens (t : list Effect) : list Effect := filter isOpenConnection t.

Definition openCall (p : PeerInfo) : Effect := OpenConnection (id p).

(** A call that concerns the peer [pid]: its registry merge, its ["peer"]
    event or its connection request. *)
Definition concerns (pid : PeerId) (e : Effect) : bool :=
  match e with
  | Merge p _ _ _ _ => String.eqb p pid
  | PeerEvent d => String.eqb (id d) pid
  | OpenConnection p => String.eqb p pid
  | _ => false
  end.

(** The last lifecycle call made at a point is [stop()]. *)
Definition endsWithStop (cs : list LifecycleCall) : bool :=
  match rev cs with
  | CallStop :: _ => true
  | _ => false
  end.

(** Nobody calls [stop()] at the point. *)
Definition noStopAt (env : Env) (pt : Point) : Prop := ~ In CallStop (during env pt).

(** Nobody calls [start()] during the run. *)
Definition noStart (env : Env) : Prop := forall pt, ~ In CallStart (during env pt).

(** [stop()] is the last lifecycle call made at one of the points that the
    run passes before the tagging loop: the network query, the contract
    construction, the contract query, or the lookup of an identifier that
    parses. *)
Definition stoppedBeforeLoop (env : Env) : Prop :=
  endsWithStop (during env PNetwork) = true
  \/ endsWithStop (during env PContract) = true
  \/ endsWithStop (during env PPeerIds) = true
  \/ exists peerIds j str pid,
       getAllPeerIds env = Normal peerIds
       /\ nth_error peerIds j = Some str
       /\ peerIdFromString env str = Normal pid
       /\ endsWithStop (during env (PFindPeer j)) = true.

(** The pending timers are the instance's own: at most the one whose handle
    [this.timer] holds. *)
Definition ownTimers (s : St) : Prop :=
  forall h d, In (h, d) (pending (sched s)) -> timer s = Some h.

(** ** Reading traces and runs *)

Definition infoLog (e : Effect) : bool :=
  match e with
  | Log LInfo _ => true
  | _ => false
  end.

(** A trace of [this.log(...)] lines only: what [start] and [stop] issue. *)
Definition quiet (t : list Effect) : Prop := Forall (fun e => infoLog e = true) t.

(** A reading of traces that ignores the lines of [this.log]. *)
Definition blind (f : Effect -> bool) : Prop := forall e, infoLog e = true -> f e = false.

(** A reading that only sees calls, no log line. *)
Definition callsOnly (f : Effect -> bool) : Prop := forall e, f e = true -> isLog e = false.

(** A reading of the calls that belong to the tagging loop. *)
Definition downstream (f : Effect -> bool) : Prop :=
  callsOnly f
  /\ f GetNetwork = false
  /\ (forall a b c, f (NewContract a b c) = false)
  /\ (forall a, f (GetAllPeerIds a) = false)
  /\ (forall p, f (FindPeer p) = false).

(** [sub] occurs in [str]. *)
Definition mentions (sub str : string) : Prop :=
  exists a b, str = String.append a (String.append sub b).

(** The effects [t] came first. *)
Definition pre {A} (t : list Effect) (r : Completion A * St * list Effect)
  : Completion A * St * list Effect :=
  let '(c, s, t') := r in (c, s, t ++ t').

(** The lifecycle calls made at the points of the [n]-th pass of the tagging
    loop, run from [s]. *)
Definition mergeYield (i : EVMBootstrap) (env : Env) (n : nat) (s : St) :=
  runCalls i (during env (PMerge n)) s.
Definition dispatchYield (i : EVMBootstrap) (env : Env) (n : nat) (s : St) :=
  runCalls i (during env (PDispatch n)) s.
Definition openYield (i : EVMBootstrap) (env : Env) (n : nat) (s : St) :=
  runCalls i (during env (POpen n)) s.

(** The state in which the next pass starts after a full pass on [p]. *)
Definition afterPass (i : EVMBootstrap) (env : Env) (n : nat) (p : PeerInfo) (s1 : St)
  : St :=
  pushDial (mkDial (id p) true)
           (fst (openYield i env n (fst (dispatchYield i env n s1)))).

(** The effects of a full pass on [p] that starts in [s]. *)
Definition passTrace (i : EVMBootstrap) (env : Env) (n : nat) (p : PeerInfo) (s : St)
  : list Effect :=
  Log LTrace [AStr "Processing peer data:"; APeerInfo p]
    :: mergeCall i p :: snd (mergeYield i env n s)
    ++ Log LTrace [AStr "Dispatching peer event"]
    :: PeerEvent p :: snd (dispatchYield i env n (fst (mergeYield i env n s)))
    ++ Log LTrace [AStr "About to call openConnection for peer"; APeerId (id p)]
    :: OpenConnection (id p)
    :: snd (openYield i env n (fst (dispatchYield i env n (fst (mergeYield i env n s))))).

(** The first [k] entries went through the whole body: their merge
    succeeded and their guard found the timer set. *)
Definition guardsPassed (env : Env) (l : list PeerInfo) (n k : nat) : Prop :=
  forall j, (j < k)%nat ->
    exists p, nth_error l j = Some p
              /\ merge env (n + j) p = Normal tt
              /\ endsWithStop (during env (PMerge (n + j))) = false.

(** How the loop over [l] ended after [k] full passes. *)
Definition loopPost (i : EVMBootstrap) (env : Env) (l : list PeerInfo) (n k : nat)
  (c : Completion Ctl) (s' : St) (t : list Effect) : Prop :=
  match c with
  | Normal Fallthrough =>
      k = List.length l /\ calls t = flat_map (stepCalls i) l
  | Normal Returned =>
      exists p, nth_error l k = Some p
                /\ merge env (n + k) p = Normal tt
                /\ timer s' = None
                /\ calls t = flat_map (stepCalls i) (firstn k l) ++ [mergeCall i p]
  | Throw e =>
      exists p, nth_error l k = Some p
                /\ merge env (n + k) p = Throw e
                /\ calls t = flat_map (stepCalls i) (firstn k l) ++ [mergeCall i p]
  end.

(** The dials that full passes on the entries of [l] leave in flight. *)
Fixpoint inFlight (l : list PeerInfo) : list Dial :=
  match l with
  | [] => []
  | p :: rest => mkDial (id p) true :: inFlight rest
  end.

Definition withDials (s : St) (d : list Dial) : St :=
  mkSt (timer s) (peerList s) (sched s) (dials s ++ d).

(** The state and the effects after the [try]/[catch] statement run for the
    [n]-th identifier [str] from [s]. *)
Definition resolveStep (i : EVMBootstrap) (env : Env) (n : nat) (str : string) (s : St)
  : St * list Effect :=
  match peerIdFromString env str with
  | Throw e =>
      (s, [Log LTrace [AStr "Processing peer ID:"; AStr str]; lookupFailed str e])
  | Normal pid =>
      let y := runCalls i (during env (PFindPeer n)) s in
      match findPeer env n pid with
      | Throw e =>
          (fst y,
           Log LTrace [AStr "Processing peer ID:"; AStr str]
             :: FindPeer pid :: snd y ++ [lookupFailed str e])
      | Normal info =>
          (pushPeer info (fst y),
           Log LTrace [AStr "Processing peer ID:"; AStr str]
             :: FindPeer pid :: snd y
             ++ [Log LTrace [AStr "Added peer info to list:"; APeerInfo info]])
      end
  end.

Definition networkYield (i : EVMBootstrap) (env : Env) (s : St) :=
  runCalls i (during env PNetwork) s.
Definition contractYield (i : EVMBootstrap) (env : Env) (s : St) :=
  runCalls i (during env PContract) s.
Definition peerIdsYield (i : EVMBootstrap) (env : Env) (s : St) :=
  runCalls i (during env PPeerIds) s.

Definition entryLog : Effect := Log LTrace [AStr "_discoverBootstrapPeers called"].

(** The effects up to the answer of [getNetwork]. *)
Definition networkTrace (i : EVMBootstrap) (env : Env) (s : St) : list Effect :=
  entryLog :: Log LTrace [AStr "Getting network from ethereum provider"]
    :: GetNetwork :: snd (networkYield i env s).

(** The effects of the [try] block up to the resolution loop. *)
Definition queryTrace (i : EVMBootstrap) (env : Env) (peerIds : list string) (s : St)
  : list Effect :=
  Log LTrace [AStr "Creating contract instance"]
    :: NewContract (contractAddress (_init i)) CONTRACT_ABI (ethereum (_init i))
    :: snd (contractYield i env s)
    ++ Log LTrace [AStr "Calling getAllPeerIds"]
    :: GetAllPeerIds (contractIndex (_init i))
    :: snd (peerIdsYield i env (fst (contractYield i env s)))
    ++ [Log LInfo [AStr "Found %d bootstrap peers ids";
                   ANum (Z.of_nat (List.length peerIds)); AStrs peerIds];
        Log LTrace [AStr "Processing peer IDs:"; AStrs peerIds]].

(** The state in which the resolution loop starts, and the state in which
    the tagging loop starts. *)
Definition queried (i : EVMBootstrap) (env : Env) (s : St) : St :=
  fst (peerIdsYield i env (fst (contractYield i env (fst (networkYield i env s))))).

Definition beforeTagging (i : EVMBootstrap) (env : Env) (peerIds : list string) (s : St)
  : St :=
  snd (fst (resolveLoop i env 0 peerIds (queried i env s))).

(** What the [catch] clause logs after the tagging loop. *)
Definition catchLog (c : Completion Ctl) : list Effect :=
  match c with
  | Throw e => [discoverFailed e]
  | Normal _ => []
  end.

(** The merge of the entry at which the loop stopped, if it stopped. *)
Definition tailCalls (i : EVMBootstrap) (l : list PeerInfo) (k : nat) : list Effect :=
  match nth_error l k with
  | Some p => [mergeCall i p]
  | None => []
  end.

(** How a run that reached the tagging loop ended. *)
Definition runEnd (env : Env) (l : list PeerInfo) (k : nat) (s' : St) (t : list Effect)
  : Prop :=
  k = List.length l
  \/ (exists p, nth_error l k = Some p /\ merge env k p = Normal tt /\ timer s' = None)
  \/ (exists p e t0, nth_error l k = Some p /\ merge env k p = Throw e
                     /\ t = t0 ++ [discoverFailed e]).

(** The state after [tick] when no timer fires. *)
Definition later (ms : Z) (s : St) : St := advanced (now (sched s) + ms) s.

(** The state that [start] leaves when it arms the timer, and what it logs. *)
Definition armedFrom (i : EVMBootstrap) (s : St) : St :=
  setTimer (Some (nextId (sched s)))
           (setSched (snd (setTimeout (this_timeout i) (sched s))) s).

Definition startLog (i : EVMBootstrap) : Effect :=
  Log LInfo [AStr "Starting evm bootstrap node discovery, discovering peers after %s ms";
             ANum (this_timeout i)].

(** ** Reading states *)



(** The clock is being advanced, it stands at [c], and every pending timer
    was armed by [start] at that time. *)
Definition rearmedAt (i : EVMBootstrap) (c : Z) (s : St) : Prop :=
  ticking (sched s) = true /\ now (sched s) = c
  /\ forall h d, In (h, d) (pending (sched s)) ->
                 d = c + effectiveDelay true (this_timeout i).





(** Everything but the lines of [this.log.trace]. *)
Definition notTrace (e : Effect) : bool :=
  match e with
  | Log LTrace _ => false
  | _ => true
  end.

(** The dial with the [catch] handler only. *)
Definition withoutSuccess (d : Dial) : Dial := mkDial (dialPeer d) false.



(** What the [catch] of the timer callback logs, line 194. *)
Definition callbackLog (c : Completion unit) : list Effect :=
  match c with
  | Throw e => [Log LError [AErr e]]
  | Normal _ => []
  end.

(** Nobody calls [start()] or [stop()] during the run. *)
Definition undisturbed (env : Env) : Prop := forall pt, during env pt = [].

(** The three calls that precede the resolution loop. *)
Definition headCalls (i : EVMBootstrap) : list Effect :=
  [GetNetwork;
   NewContract (contractAddress (_init i)) CONTRACT_ABI (ethereum (_init i));
   GetAllPeerIds (contractIndex (_init i))].

(** The provider is on the configured chain, the contract is constructed
    and answers [peerIds]. *)
Definition answers (i : EVMBootstrap) (env : Env) (peerIds : list string) : Prop :=
  exists n,
    getNetwork env = Normal n /\ Some n = chainId (_init i)
    /\ newContract env = Normal tt /\ getAllPeerIds env = Normal peerIds.

(** The run gets as far as the resolution loop: the instance is armed, the
    provider is on the configured chain, the contract is constructed and
    answers [peerIds]. *)
Definition reachesLoops (i : EVMBootstrap) (env : Env) (s : St) (peerIds : list string)
  : Prop :=
  exists h n,
    timer s = Some h /\ getNetwork env = Normal n
    /\ Some n = chainId (_init i)
    /\ newContract env = Normal tt /\ getAllPeerIds env = Normal peerIds.

(** ** The pipeline before tracing was added

    The earlier revision of [_discoverBootstrapPeers] kept with the source:
    no [this.log.trace] line, and only a [catch] handler on the dial,
    lines 485-537. *)

Module Earlier.

Fixpoint resolveLoop (i : EVMBootstrap) (env : Env) (n : nat) (peerIds : list string)
  : M unit :=
  match peerIds with
  | [] => ret tt
  | peerIdStr :: rest =>
      tryCatch
        (peerId <- complete (peerIdFromString env peerIdStr) ;;
         peerInfo <- await i env (PFindPeer n) (FindPeer peerId) (findPeer env n peerId) ;;
         modify (pushPeer peerInfo))
        (fun err =>
           log_error [AStr "Could not lookup  multiaddrs for bootstrap peer";
                      AStr peerIdStr; AErr err]) ;;
      resolveLoop i env (S n) rest
  end.

Fixpoint tagLoop (i : EVMBootstrap) (env : Env) (n : nat) (l : list PeerInfo)
  : M Ctl :=
  match l with
  | [] => ret Fallthrough
  | peerData :: rest =>
      await i env (PMerge n) (mergeCall i peerData) (merge env n peerData) ;;
      s <- get ;;
      match timer s with
      | None => ret Returned
      | Some _ =>
          emit (PeerEvent peerData) ;;
          yield i env (PDispatch n) ;;
          emit (OpenConnection (id peerData)) ;;
          yield i env (POpen n) ;;
          modify (pushDial (mkDial (id peerData) false)) ;;
          tagLoop i env (S n) rest
      end
  end.

Definition discoverBody (i : EVMBootstrap) (env : Env) : M unit :=
  await i env PContract
        (NewContract (contractAddress (_init i)) CONTRACT_ABI (ethereum (_init i)))
        (newContract env) ;;
  peerIds <- await i env PPeerIds (GetAllPeerIds (contractIndex (_init i)))
                   (getAllPeerIds env) ;;
  log [AStr "Found %d bootstrap peers ids"; ANum (Z.of_nat (List.length peerIds));
       AStrs peerIds] ;;
  resolveLoop i env 0 peerIds ;;
  s <- get ;;
  tagLoop i env 0 (peerList s) ;;
  ret tt.

Definition _discoverBootstrapPeers (i : EVMBootstrap) (env : Env) : M unit :=
  s <- get ;;
  match timer s with
  | None => ret tt
  | Some _ =>
      network <- await i env PNetwork GetNetwork (getNetwork env) ;;
      if chainDiffers network (chainId (_init i)) then
        log_error [AStr (wrongChainLog network (chainId (_init i)))] ;;
        throw (wrongNetworkError network (chainId (_init i)))
      else
        tryCatch (discoverBody i env) (fun err => emit (discoverFailed err))
  end.

End Earlier.

(** ** A concrete run: the configuration and the peers of the test suite *)

Module Sample.

Definition options : BootstrapInit :=
  mkInit (Some "0x1234") (Some "0xabcd") (Some 1) (Some (JsObject true true))
         (Some 0) (Some "mytag") (Some 42) (Some 60000).

Definition instance : EVMBootstrap := mkInstance 0 options.

Definition mockPeerIds : list string :=
  [ "QmYyQSo1c1Ym7orWxLYvCrM2EmxFTANf8wXgoE34zJv7Xb";
    "QmYyQSo1c1Ym7orWxLYvCrM2EmxFTANf8wXgoE34zJv7Xc";
    "QmYyQSo1c1Ym7orWxLYvCrM2EmxFTANf8wXgoE34zJv7Xd" ].

Definition info (p : PeerId) : PeerInfo :=
  mkPeerInfo p [String.append "/ip4/127.0.0.1/tcp/4001/ipfs/" p].

(** Every collaborator succeeds and nobody calls [start] or [stop]. *)
Definition env : Env :=
  mkEnv (Normal 1) (Normal tt) (Normal mockPeerIds)
        (fun s => Normal s)
        (fun _ p => Normal (info p))
        (fun _ _ => Normal tt)
        (fun _ _ => Normal tt)
        (fun _ => []).

(** [instance.timer = true]: the state the tests put the instance in. *)
Definition armed : St := mkSt (Some 1%positive) [] (mkSched 0 2%positive [] false) [].

(** The test "errors if the provider is on the wrong chain". *)
Definition envWrongChain : Env :=
  mkEnv (Normal 99) (newContract env) (getAllPeerIds env) (peerIdFromString env)
        (findPeer env) (merge env) (openConnection env) (during env).

Definition rpcDown : JsError := mkError "could not detect network".

(** The provider cannot be reached: [getNetwork()] rejects. *)
Definition envRpcDown : Env :=
  mkEnv (Throw rpcDown) (newContract env) (getAllPeerIds env) (peerIdFromString env)
        (findPeer env) (merge env) (openConnection env) (during env).

Definition boom : JsError := mkError "boom".

(** The test "logs and swallows errors from ethers.Contract". *)
Definition envContractThrows : Env :=
  mkEnv (getNetwork env) (Throw boom) (getAllPeerIds env) (peerIdFromString env)
        (findPeer env) (merge env) (openConnection env) (during env).

Definition peerB : PeerInfo := info "QmYyQSo1c1Ym7orWxLYvCrM2EmxFTANf8wXgoE34zJv7Xb".
Definition peerC : PeerInfo := info "QmYyQSo1c1Ym7orWxLYvCrM2EmxFTANf8wXgoE34zJv7Xc".
Definition peerD : PeerInfo := info "QmYyQSo1c1Ym7orWxLYvCrM2EmxFTANf8wXgoE34zJv7Xd".

Definition unreachable : JsError := mkError "not found".

(** A later run on an instance that was stopped and started again: the
    list holds the first peer from the earlier run; this time the contract
    lists that peer only and peer routing cannot find it. *)
Definition rearmed : St :=
  mkSt (Some 2%positive) [peerB] (mkSched 5000 3%positive [] false) [].

Definition envLookupFails : Env :=
  mkEnv (getNetwork env) (newContract env)
        (Normal ["QmYyQSo1c1Ym7orWxLYvCrM2EmxFTANf8wXgoE34zJv7Xb"])
        (peerIdFromString env)
        (fun _ _ => Throw unreachable)
        (merge env) (openConnection env) (during env).

(** [stop()] is called while the lookup of the second identifier is
    pending. *)
Definition envStopDuringLookup : Env :=
  mkEnv (getNetwork env) (newContract env) (getAllPeerIds env) (peerIdFromString env)
        (findPeer env) (merge env) (openConnection env)
        (fun pt => match pt with
                   | PFindPeer 1 => [CallStop]
                   | _ => []
                   end).

(** A listener of the ["peer"] event calls [stop()] when the first peer is
    announced. *)
Definition envStopInListener : Env :=
  mkEnv (getNetwork env) (newContract env) (getAllPeerIds env) (peerIdFromString env)
        (findPeer env) (merge env) (openConnection env)
        (fun pt => match pt with
                   | PDispatch 0 => [CallStop]
                   | _ => []
                   end).

(** [stop()] is called while the merge of the second entry is awaited. *)
Definition envStopMidLoop : Env :=
  mkEnv (getNetwork env) (newContract env) (getAllPeerIds env) (peerIdFromString env)
        (findPeer env) (merge env) (openConnection env)
        (fun pt => match pt with
                   | PMerge 1 => [CallStop]
                   | _ => []
                   end).

(** A configuration with a delay, as the lifecycle tests use it, and the
    state of an instance just constructed on a host whose clock shows 0. *)
Definition delayed : EVMBootstrap := mkInstance 5000 options.
Definition fresh : St := freshState (mkSched 0 1%positive [] false).



(** A configuration with a delay of 2^31 ms. *)
Definition patient : EVMBootstrap := mkInstance 2147483648 options.

(** A wallet-style provider: [request] and no [getNetwork]. *)
Definition wallet : ProviderValue := JsObject false true.

(** [stop()] and then [start()] are called while the lookup of the second
    identifier is pending. *)
Definition envRestartDuringLookup : Env :=
  mkEnv (getNetwork env) (newContract env) (getAllPeerIds env) (peerIdFromString env)
        (findPeer env) (merge env) (openConnection env)
        (fun pt => match pt with
                   | PFindPeer 1 => [CallStop; CallStart]
                   | _ => []
                   end).

(** The peer store rejects the merge of the second entry. *)
Definition envMergeFails : Env :=
  mkEnv (getNetwork env) (newContract env) (getAllPeerIds env) (peerIdFromString env)
        (findPeer env)
        (fun n _ => if Nat.eqb n 1 then Throw boom else Normal tt)
        (openConnection env) (during env).

End Sample.

(** * Properties *)

(** ** Traces *)

Lemma quiet_filter f t : blind f -> quiet t -> filter f t = [].
Proof.
  intros Hf Ht. induction Ht as [|e t He _ IH]; simpl; [reflexivity|].
  rewrite (Hf e He). exact IH.
Qed.

Lemma quiet_app t1 t2 : quiet t1 -> quiet t2 -> quiet (t1 ++ t2).
Proof. intros H1 H2. apply Forall_app. now split. Qed.

Lemma blind_calls : blind (fun e => negb (isLog e)).
Proof. intros [] H; simpl in *; try discriminate; reflexivity. Qed.

Lemma blind_entry : blind isEntryLog.
Proof. intros [| [] | | | | | | |] H; simpl in *; try discriminate; reflexivity. Qed.

Lemma quiet_calls t : quiet t -> calls t = [].
Proof. apply quiet_filter, blind_calls. Qed.

Lemma quiet_executions t : quiet t -> executions t = 0%nat.
Proof. intros H. unfold executions. now rewrite (quiet_filter _ _ blind_entry H). Qed.

Lemma calls_app t1 t2 : calls (t1 ++ t2) = calls t1 ++ calls t2.
Proof. apply filter_app. Qed.

Lemma executions_app t1 t2 : executions (t1 ++ t2) = (executions t1 + executions t2)%nat.
Proof. unfold executions. now rewrite filter_app, length_app. Qed.

(** ** Running monadic code *)

Lemma pre_nil {A} (r : Completion A * St * list Effect) : pre [] r = r.
Proof. now destruct r as [[c s] t]. Qed.

Lemma pre_pre {A} t1 t2 (r : Completion A * St * list Effect) :
  pre t1 (pre t2 r) = pre (t1 ++ t2) r.
Proof. destruct r as [[c s] t]. simpl. now rewrite app_assoc. Qed.

Lemma pre_result {A} t1 (c : Completion A) s t2 : pre t1 (c, s, t2) = (c, s, t1 ++ t2).
Proof. reflexivity. Qed.

Lemma pre_state {A} t (r : Completion A * St * list Effect) : snd (fst (pre t r)) = snd (fst r).
Proof. now destruct r as [[c s] t']. Qed.

Section Run.

Context {A B : Type}.
Variable k : A -> M B.

Lemma bind_result (m : M A) s a s1 t1 :
  m s = (Normal a, s1, t1) -> bind m k s = pre t1 (k a s1).
Proof. intros H. unfold bind, pre. rewrite H. reflexivity. Qed.

Lemma bind_thrown (m : M A) s e s1 t1 :
  m s = (Throw e, s1, t1) -> bind m k s = (Throw e, s1, t1).
Proof. intros H. unfold bind. now rewrite H. Qed.

Lemma bind_complete_normal a s : bind (complete (Normal a)) k s = k a s.
Proof. rewrite (bind_result _ s a s []); [apply pre_nil | reflexivity]. Qed.

Lemma bind_complete_throw e s : bind (complete (Throw e)) k s = (Throw e, s, []).
Proof. now apply bind_thrown. Qed.

Lemma bind_ret a s : bind (ret a) k s = k a s.
Proof. rewrite (bind_result _ s a s []); [apply pre_nil | reflexivity]. Qed.

Lemma bind_bind {C} (m : M C) (f : C -> M A) s :
  bind (bind m f) k s = bind m (fun x => bind (f x) k) s.
Proof.
  unfold bind. destruct (m s) as [[[c|e] s1] t1]; [|reflexivity].
  destruct (f c s1) as [[[a|e] s2] t2]; [|reflexivity].
  destruct (k a s2) as [[r s3] t3]. now rewrite app_assoc.
Qed.

End Run.

Section RunUnit.

Context {B : Type}.

Lemma bind_emit e (k : unit -> M B) s : bind (emit e) k s = pre [e] (k tt s).
Proof. now apply bind_result. Qed.

Lemma bind_get (k : St -> M B) s : bind get k s = k s s.
Proof. rewrite (bind_result _ _ s s s []); [apply pre_nil | reflexivity]. Qed.

Lemma bind_modify f (k : unit -> M B) s : bind (modify f) k s = k tt (f s).
Proof. rewrite (bind_result _ _ s tt (f s) []); [apply pre_nil | reflexivity]. Qed.

Lemma bind_yield i env pt (k : unit -> M B) s :
  bind (yield i env pt) k s =
  pre (snd (runCalls i (during env pt) s)) (k tt (fst (runCalls i (during env pt) s))).
Proof.
  apply bind_result. unfold yield. now destruct (runCalls i (during env pt) s).
Qed.

Lemma bind_await {A} i env pt e (r : Completion A) (k : A -> M B) s :
  bind (await i env pt e r) k s =
  pre (e :: snd (runCalls i (during env pt) s))
      (bind (complete r) k (fst (runCalls i (during env pt) s))).
Proof.
  unfold await, yield, bind, emit, complete, pre.
  destruct (runCalls i (during env pt) s) as [s1 t1]; simpl.
  destruct r as [a|err]; simpl.
  - destruct (k a s1) as [[c s2] t2]. now rewrite app_nil_r.
  - now rewrite app_nil_r.
Qed.

Lemma tryCatch_result (m : M B) h s b s1 t1 :
  m s = (Normal b, s1, t1) -> tryCatch m h s = (Normal b, s1, t1).
Proof. intros H. unfold tryCatch. now rewrite H. Qed.

Lemma tryCatch_thrown (m : M B) h s e s1 t1 :
  m s = (Throw e, s1, t1) -> tryCatch m h s = pre t1 (h e s1).
Proof. intros H. unfold tryCatch, pre. now rewrite H. Qed.

End RunUnit.

Ltac run_step :=
  first [ rewrite bind_emit | rewrite bind_get | rewrite bind_modify
        | rewrite bind_yield | rewrite bind_await | rewrite bind_ret
        | rewrite bind_complete_normal | rewrite bind_complete_throw
        | rewrite pre_pre ].

Ltac run := unfold log, log_error, log_trace; repeat run_step.

(** ** Lifecycle calls made while the pipeline waits *)

Section Lifecycle.

Variable i : EVMBootstrap.

Lemma start_run s :
  start i s = if isStarted s then (Normal tt, s, [])
              else (Normal tt, armedFrom i s, [startLog i]).
Proof. unfold start. run. now destruct (isStarted s). Qed.

Lemma stop_run s :
  stop s = (Normal tt,
            setTimer None (match timer s with
                           | Some h => setSched (clearTimeout h (sched s)) s
                           | None => s
                           end), []).
Proof. unfold stop. run. destruct (timer s); run; reflexivity. Qed.

Lemma start_started s : isStarted s = true -> start i s = (Normal tt, s, []).
Proof. intros H. now rewrite start_run, H. Qed.

Lemma lifecycle_frame c s :
  peerList (fst (lifecycle i c s)) = peerList s
  /\ dials (fst (lifecycle i c s)) = dials s
  /\ quiet (snd (lifecycle i c s)).
Proof.
  destruct c; unfold lifecycle; rewrite ?start_run, ?stop_run.
  - destruct (isStarted s); simpl; repeat split; try constructor; auto; constructor.
  - destruct (timer s); simpl; repeat split; constructor.
Qed.

Lemma runCalls_frame cs : forall s,
  peerList (fst (runCalls i cs s)) = peerList s
  /\ dials (fst (runCalls i cs s)) = dials s
  /\ quiet (snd (runCalls i cs s)).
Proof.
  induction cs as [|c cs IH]; intros s; simpl.
  - repeat split; constructor.
  - destruct (lifecycle_frame c s) as (P1 & D1 & Q1).
    destruct (lifecycle i c s) as [s1 t1]; simpl in *.
    destruct (IH s1) as (P2 & D2 & Q2).
    destruct (runCalls i cs s1) as [s2 t2]; simpl in *.
    repeat split; try congruence. now apply quiet_app.
Qed.

Lemma runCalls_app cs1 cs2 s :
  runCalls i (cs1 ++ cs2) s =
  let '(s1, t1) := runCalls i cs1 s in
  let '(s2, t2) := runCalls i cs2 s1 in
  (s2, t1 ++ t2).
Proof.
  revert s. induction cs1 as [|c cs1 IH]; intros s; simpl.
  - now destruct (runCalls i cs2 s).
  - destruct (lifecycle i c s) as [s1 t1]. rewrite IH.
    destruct (runCalls i cs1 s1) as [s2 t2].
    destruct (runCalls i cs2 s2) as [s3 t3].
    now rewrite app_assoc.
Qed.

(** When the last call at a point is [stop()], the timer is cleared when
    the pipeline resumes. *)
Lemma endsWithStop_timer cs s :
  endsWithStop cs = true -> timer (fst (runCalls i cs s)) = None.
Proof.
  unfold endsWithStop. intros H.
  destruct (rev cs) as [|[] r] eqn:E; try discriminate.
  assert (cs = rev r ++ [CallStop]) as ->.
  { rewrite <- (rev_involutive cs), E. reflexivity. }
  rewrite runCalls_app.
  destruct (runCalls i (rev r) s) as [s1 t1]. simpl.
  unfold lifecycle. now rewrite stop_run.
Qed.

(** While nobody calls [stop()], an armed instance is left as it is. *)
Lemma runCalls_armed cs s :
  ~ In CallStop cs -> isStarted s = true -> runCalls i cs s = (s, []).
Proof.
  revert s. induction cs as [|c cs IH]; intros s Hn Hs; simpl; [reflexivity|].
  destruct c.
  - unfold lifecycle. rewrite (start_started s Hs).
    rewrite IH; auto. intros HIn. apply Hn. now right.
  - exfalso. apply Hn. now left.
Qed.

End Lifecycle.

(** ** One pass of each loop *)

Section Loops.

Variable i : EVMBootstrap.
Variable env : Env.

Lemma tagLoop_merge_throws n p rest s e :
  merge env n p = Throw e ->
  tagLoop i env n (p :: rest) s =
  (Throw e, fst (mergeYield i env n s),
   Log LTrace [AStr "Processing peer data:"; APeerInfo p]
     :: mergeCall i p :: snd (mergeYield i env n s)).
Proof.
  intros H. cbn [tagLoop]. run. rewrite H. run.
  unfold mergeYield. simpl. now rewrite app_nil_r.
Qed.

Lemma tagLoop_returns n p rest s :
  merge env n p = Normal tt ->
  timer (fst (mergeYield i env n s)) = None ->
  tagLoop i env n (p :: rest) s =
  (Normal Returned, fst (mergeYield i env n s),
   Log LTrace [AStr "Processing peer data:"; APeerInfo p]
     :: mergeCall i p :: snd (mergeYield i env n s)
     ++ [Log LTrace [AStr "Timer is null, returning early"]]).
Proof.
  intros H Ht. cbn [tagLoop]. run. rewrite H. run.
  fold (mergeYield i env n s). rewrite Ht. run.
  unfold ret, pre. simpl. now rewrite app_nil_r.
Qed.

Lemma tagLoop_passes n p rest s h :
  merge env n p = Normal tt ->
  timer (fst (mergeYield i env n s)) = Some h ->
  tagLoop i env n (p :: rest) s =
  pre (passTrace i env n p s)
      (tagLoop i env (S n) rest (afterPass i env n p (fst (mergeYield i env n s)))).
Proof.
  intros H Ht. cbn [tagLoop]. run. rewrite H. run.
  fold (mergeYield i env n s). rewrite Ht. run.
  unfold passTrace, afterPass, openYield, dispatchYield. f_equal.
  simpl. rewrite <- !app_assoc. reflexivity.
Qed.

Lemma filter_yield f cs s : blind f -> filter f (snd (runCalls i cs s)) = [].
Proof. intros Hf. apply quiet_filter; [exact Hf | apply runCalls_frame]. Qed.

(** *** The tagging loop *)

Lemma passTrace_calls n p s : calls (passTrace i env n p s) = stepCalls i p.
Proof.
  unfold passTrace, calls, mergeYield, dispatchYield, openYield. simpl.
  rewrite !filter_app. simpl. rewrite !filter_app. simpl.
  rewrite !(filter_yield _ _ _ blind_calls). reflexivity.
Qed.

Lemma passTrace_executions n p s : executions (passTrace i env n p s) = 0%nat.
Proof.
  unfold passTrace, executions, mergeYield, dispatchYield, openYield. simpl.
  rewrite !filter_app. simpl. rewrite !filter_app. simpl.
  rewrite !(filter_yield _ _ _ blind_entry). reflexivity.
Qed.

Lemma afterPass_frame n p s :
  peerList (afterPass i env n p (fst (mergeYield i env n s))) = peerList s.
Proof.
  unfold afterPass, openYield, dispatchYield, mergeYield. simpl.
  rewrite (proj1 (runCalls_frame i _ _)), (proj1 (runCalls_frame i _ _)).
  apply runCalls_frame.
Qed.

Lemma tagLoop_spec l : forall n s c s' t,
  tagLoop i env n l s = (c, s', t) ->
  peerList s' = peerList s
  /\ executions t = 0%nat
  /\ exists k, guardsPassed env l n k /\ loopPost i env l n k c s' t.
Proof.
  induction l as [|p rest IH]; intros n s c s' t E.
  - cbn in E. injection E as <- <- <-. repeat split.
    exists 0%nat. split; [intros j Hj; lia | now split].
  - destruct (merge env n p) as [[]|e] eqn:Em.
    + destruct (timer (fst (mergeYield i env n s))) as [h|] eqn:Et.
      * rewrite (tagLoop_passes n p rest s h Em Et) in E.
        destruct (tagLoop i env (S n) rest (afterPass i env n p (fst (mergeYield i env n s))))
          as [[c1 s1] t1] eqn:E1.
        rewrite pre_result in E.
        apply pair_equal_spec in E as [E <-].
        apply pair_equal_spec in E as [<- <-].
        destruct (IH _ _ _ _ _ E1) as (P & X & k & G & L).
        rewrite afterPass_frame in P.
        split; [exact P|]. split.
        { now rewrite executions_app, passTrace_executions, X. }
        exists (S k). split.
        { intros [|j] Hj.
          - exists p. rewrite Nat.add_0_r. repeat split; auto.
            destruct (endsWithStop (during env (PMerge n))) eqn:Es; auto.
            apply (endsWithStop_timer i _ s) in Es.
            unfold mergeYield in Et. congruence.
          - destruct (G j) as (q & Q1 & Q2 & Q3); [lia|].
            exists q. rewrite Nat.add_succ_r. now repeat split. }
        { destruct c1 as [[]|e]; cbn [loopPost] in *.
          - destruct L as [-> L]. split; [reflexivity|].
            now rewrite calls_app, passTrace_calls, L.
          - destruct L as (q & Q1 & Q2 & Q3 & Q4). exists q.
            rewrite <- Nat.add_succ_comm. repeat split; auto.
            rewrite calls_app, passTrace_calls, Q4. reflexivity.
          - destruct L as (q & Q1 & Q2 & Q4). exists q.
            rewrite <- Nat.add_succ_comm. repeat split; auto.
            rewrite calls_app, passTrace_calls, Q4. reflexivity. }
      * rewrite (tagLoop_returns n p rest s Em Et) in E. injection E as <- <- <-.
        split; [apply runCalls_frame|]. split.
        { unfold executions. simpl. rewrite filter_app. simpl.
          unfold mergeYield. now rewrite (filter_yield _ _ _ blind_entry). }
        exists 0%nat. split; [intros j Hj; lia|].
        exists p. rewrite Nat.add_0_r. repeat split; auto.
        unfold calls. simpl. rewrite filter_app. simpl.
        unfold mergeYield. now rewrite (filter_yield _ _ _ blind_calls).
    + rewrite (tagLoop_merge_throws n p rest s e Em) in E. injection E as <- <- <-.
      split; [apply runCalls_frame|]. split.
      { unfold executions. simpl.
        unfold mergeYield. now rewrite (filter_yield _ _ _ blind_entry). }
      exists 0%nat. split; [intros j Hj; lia|].
      exists p. rewrite Nat.add_0_r. repeat split; auto.
      unfold calls. simpl.
      unfold mergeYield. now rewrite (filter_yield _ _ _ blind_calls).
Qed.

(** While the instance stays armed and the merges succeed, the loop works
    through a prefix [l1] of its list pass by pass. *)
Lemma tagLoop_prefix l1 : forall l2 n s,
  isStarted s = true ->
  (forall j p, nth_error l1 j = Some p -> merge env (n + j) p = Normal tt) ->
  (forall j, (j < List.length l1)%nat ->
     noStopAt env (PMerge (n + j)) /\ noStopAt env (PDispatch (n + j))
     /\ noStopAt env (POpen (n + j))) ->
  exists t1,
    tagLoop i env n (l1 ++ l2) s =
    pre t1 (tagLoop i env (n + List.length l1) l2 (withDials s (inFlight l1)))
    /\ calls t1 = flat_map (stepCalls i) l1
    /\ executions t1 = 0%nat.
Proof.
  induction l1 as [|p l1 IH]; intros l2 n s Hs Hm Hq.
  - exists []. simpl. rewrite Nat.add_0_r, pre_nil. unfold withDials.
    rewrite app_nil_r. destruct s; simpl. repeat split.
  - destruct (Hq 0%nat) as (Q1 & Q2 & Q3); [simpl; lia|].
    rewrite Nat.add_0_r in Q1, Q2, Q3.
    assert (Em : merge env n p = Normal tt).
    { rewrite <- (Nat.add_0_r n). now apply Hm. }
    assert (E1 : mergeYield i env n s = (s, [])) by now apply runCalls_armed.
    assert (E2 : dispatchYield i env n s = (s, [])) by now apply runCalls_armed.
    assert (E3 : openYield i env n s = (s, [])) by now apply runCalls_armed.
    destruct (timer s) as [h|] eqn:Et; [|unfold isStarted in Hs; now rewrite Et in Hs].
    simpl app.
    rewrite (tagLoop_passes n p (l1 ++ l2) s h Em); [|now rewrite E1].
    unfold afterPass. rewrite E1. simpl fst. rewrite E2. simpl fst. rewrite E3. simpl fst.
    set (s1 := pushDial _ s).
    destruct (IH l2 (S n) s1) as (t1 & R & C & X).
    { unfold s1, isStarted. simpl. now rewrite Et. }
    { intros j q Hj. rewrite Nat.add_succ_comm. now apply Hm. }
    { intros j Hj. rewrite Nat.add_succ_comm. apply Hq. simpl. lia. }
    exists (passTrace i env n p s ++ t1). rewrite R, pre_pre. split.
    { f_equal. simpl List.length. rewrite <- Nat.add_succ_comm. f_equal.
      unfold withDials, s1. simpl. now rewrite <- app_assoc. }
    split.
    { rewrite calls_app, passTrace_calls, C. reflexivity. }
    { now rewrite executions_app, passTrace_executions, X. }
Qed.

(** *** The resolution loop *)

Lemma resolveLoop_cons n str rest s :
  resolveLoop i env n (str :: rest) s =
  pre (snd (resolveStep i env n str s))
      (resolveLoop i env (S n) rest (fst (resolveStep i env n str s))).
Proof.
  cbn [resolveLoop].
  apply (bind_result (fun _ : unit => resolveLoop i env (S n) rest) _ s tt).
  unfold resolveStep.
  destruct (peerIdFromString env str) as [pid|e] eqn:Ep.
  - destruct (findPeer env n pid) as [info|e] eqn:Ef.
    + apply tryCatch_result. run. rewrite Ef. run.
      unfold emit, pre. simpl. reflexivity.
    + erewrite tryCatch_thrown.
      2:{ run. rewrite Ef. run. unfold pre. reflexivity. }
      unfold emit, pre, lookupFailed. simpl. now rewrite app_nil_r.
  - erewrite tryCatch_thrown.
    2:{ run. unfold pre. reflexivity. }
    reflexivity.
Qed.

Lemma resolveStep_frame n str s :
  peerList (fst (resolveStep i env n str s)) =
    peerList s ++ match resolveOutcome env n str with
                  | Normal info => [info]
                  | Throw _ => []
                  end
  /\ dials (fst (resolveStep i env n str s)) = dials s
  /\ calls (snd (resolveStep i env n str s)) =
       match peerIdFromString env str with
       | Normal pid => [FindPeer pid]
       | Throw _ => []
       end
  /\ executions (snd (resolveStep i env n str s)) = 0%nat
  /\ (forall e, resolveOutcome env n str = Throw e ->
        In (lookupFailed str e) (snd (resolveStep i env n str s))).
Proof.
  unfold resolveStep, resolveOutcome.
  destruct (runCalls_frame i (during env (PFindPeer n)) s) as (P & D & Q).
  destruct (peerIdFromString env str) as [pid|e].
  - destruct (findPeer env n pid) as [info|e]; simpl.
    + rewrite P, D. repeat split.
      * now rewrite calls_app, (quiet_calls _ Q).
      * unfold executions. simpl.
        now rewrite filter_app, (quiet_filter _ _ blind_entry Q).
      * discriminate.
    + rewrite P, D, app_nil_r. repeat split.
      * now rewrite calls_app, (quiet_calls _ Q).
      * unfold executions. simpl.
        now rewrite filter_app, (quiet_filter _ _ blind_entry Q).
      * intros e' [= <-]. right. right. apply in_or_app. right. now left.
  - simpl. rewrite app_nil_r. repeat split.
    intros e' [= <-]. right. now left.
Qed.

Lemma resolveLoop_spec peerIds : forall n s,
  exists s' t,
    resolveLoop i env n peerIds s = (Normal tt, s', t)
    /\ peerList s' = peerList s ++ resolved env n peerIds
    /\ dials s' = dials s
    /\ calls t = map FindPeer (parsed env peerIds)
    /\ executions t = 0%nat
    /\ (forall j str e,
          nth_error peerIds j = Some str ->
          resolveOutcome env (n + j) str = Throw e ->
          In (lookupFailed str e) t).
Proof.
  induction peerIds as [|str rest IH]; intros n s.
  - exists s, []. simpl. rewrite app_nil_r. repeat split.
    intros [|j] str e Hj; discriminate.
  - rewrite resolveLoop_cons.
    destruct (resolveStep_frame n str s) as (P1 & D1 & C1 & X1 & L1).
    destruct (IH (S n) (fst (resolveStep i env n str s))) as (s' & t & R & P & D & C & X & L).
    exists s', (snd (resolveStep i env n str s) ++ t). rewrite R, pre_result.
    split; [reflexivity|]. split.
    { rewrite P, P1, <- app_assoc. f_equal. simpl.
      now destruct (resolveOutcome env n str). }
    split; [congruence|]. split.
    { rewrite calls_app, C1, C. unfold parsed. simpl.
      now destruct (peerIdFromString env str). }
    split.
    { now rewrite executions_app, X1, X. }
    intros [|j] str' e Hj Ho; simpl in Hj; apply in_or_app.
    + injection Hj as <-. rewrite Nat.add_0_r in Ho. left. now apply L1.
    + right. apply (L j); auto. now rewrite Nat.add_succ_comm.
Qed.

(** While nobody calls [stop()], the resolution leaves timer and timers of
    an armed instance alone. *)
Lemma resolveLoop_armed peerIds : forall n s,
  isStarted s = true ->
  (forall j, noStopAt env (PFindPeer j)) ->
  timer (snd (fst (resolveLoop i env n peerIds s))) = timer s
  /\ sched (snd (fst (resolveLoop i env n peerIds s))) = sched s.
Proof.
  induction peerIds as [|str rest IH]; intros n s Hs Hq; [now split|].
  rewrite resolveLoop_cons.
  assert (T : timer (fst (resolveStep i env n str s)) = timer s
              /\ sched (fst (resolveStep i env n str s)) = sched s).
  { unfold resolveStep. rewrite (runCalls_armed i _ s (Hq n) Hs).
    destruct (peerIdFromString env str) as [pid|e]; [|now split].
    destruct (findPeer env n pid); now split. }
  destruct T as [T1 T2].
  destruct (IH (S n) (fst (resolveStep i env n str s))) as [I1 I2]; auto.
  { unfold isStarted in *. now rewrite T1. }
  destruct (resolveLoop i env (S n) rest (fst (resolveStep i env n str s))) as [[c s'] t].
  simpl in *. split; congruence.
Qed.

End Loops.

(** ** The pipeline, branch by branch *)

Section Pipeline.

Variable i : EVMBootstrap.
Variable env : Env.

Lemma discover_unarmed s :
  timer s = None ->
  _discoverBootstrapPeers i env s =
  (Normal tt, s, [entryLog; Log LTrace [AStr "timer is null, returning early"]]).
Proof.
  intros Ht. unfold _discoverBootstrapPeers. run. rewrite Ht. reflexivity.
Qed.

Lemma discover_network_fails s h e :
  timer s = Some h ->
  getNetwork env = Throw e ->
  _discoverBootstrapPeers i env s = (Throw e, fst (networkYield i env s), networkTrace i env s).
Proof.
  intros Ht En. unfold _discoverBootstrapPeers. run. rewrite Ht. run.
  rewrite En. run. unfold pre, networkTrace, networkYield. simpl.
  now rewrite app_nil_r.
Qed.

Lemma discover_wrong_network s h n :
  timer s = Some h ->
  getNetwork env = Normal n ->
  chainDiffers n (chainId (_init i)) = true ->
  _discoverBootstrapPeers i env s =
  (Throw (wrongNetworkError n (chainId (_init i))), fst (networkYield i env s),
   networkTrace i env s ++ [Log LError [AStr (wrongChainLog n (chainId (_init i)))]]).
Proof.
  intros Ht En Ec. unfold _discoverBootstrapPeers. run. rewrite Ht. run.
  rewrite En. run. rewrite Ec. run.
  unfold pre, throw, networkTrace, networkYield. simpl. now rewrite app_nil_r.
Qed.

Lemma discover_right_network s h n :
  timer s = Some h ->
  getNetwork env = Normal n ->
  chainDiffers n (chainId (_init i)) = false ->
  _discoverBootstrapPeers i env s =
  pre (networkTrace i env s)
      (tryCatch (discoverBody i env) (fun err => emit (discoverFailed err))
                (fst (networkYield i env s))).
Proof.
  intros Ht En Ec. unfold _discoverBootstrapPeers. run. rewrite Ht. run.
  rewrite En. run. rewrite Ec. reflexivity.
Qed.

Lemma body_contract_throws s e :
  newContract env = Throw e ->
  discoverBody i env s =
  (Throw e, fst (contractYield i env s),
   Log LTrace [AStr "Creating contract instance"]
     :: NewContract (contractAddress (_init i)) CONTRACT_ABI (ethereum (_init i))
     :: snd (contractYield i env s)).
Proof.
  intros E. unfold discoverBody. run. rewrite E. run.
  unfold pre, contractYield. simpl. now rewrite app_nil_r.
Qed.

Lemma body_query_throws s e :
  newContract env = Normal tt ->
  getAllPeerIds env = Throw e ->
  discoverBody i env s =
  (Throw e, fst (peerIdsYield i env (fst (contractYield i env s))),
   Log LTrace [AStr "Creating contract instance"]
     :: NewContract (contractAddress (_init i)) CONTRACT_ABI (ethereum (_init i))
     :: snd (contractYield i env s)
     ++ Log LTrace [AStr "Calling getAllPeerIds"]
     :: GetAllPeerIds (contractIndex (_init i))
     :: snd (peerIdsYield i env (fst (contractYield i env s)))).
Proof.
  intros E1 E2. unfold discoverBody. run. rewrite E1. run. rewrite E2. run.
  unfold pre, contractYield, peerIdsYield. simpl.
  now rewrite <- !app_assoc, app_nil_r.
Qed.

Lemma body_query_ok s peerIds :
  newContract env = Normal tt ->
  getAllPeerIds env = Normal peerIds ->
  discoverBody i env s =
  pre (queryTrace i env peerIds s)
      ((resolveLoop i env 0 peerIds ;;
        s' <- get ;;
        log_trace [AStr "Processing peer list, count:";
                   ANum (Z.of_nat (List.length (peerList s')))] ;;
        tagLoop i env 0 (peerList s') ;;
        ret tt)
         (fst (peerIdsYield i env (fst (contractYield i env s))))).
Proof.
  intros E1 E2. unfold discoverBody. run. rewrite E1. run. rewrite E2. run.
  unfold queryTrace, contractYield, peerIdsYield. f_equal.
  simpl. now rewrite <- !app_assoc.
Qed.

Lemma networkTrace_calls s : calls (networkTrace i env s) = [GetNetwork].
Proof.
  unfold networkTrace, networkYield. simpl.
  now rewrite (quiet_calls _ (proj2 (proj2 (runCalls_frame i _ s)))).
Qed.

Lemma networkTrace_executions s : executions (networkTrace i env s) = 1%nat.
Proof.
  unfold networkTrace, networkYield, executions. simpl.
  now rewrite (filter_yield i _ _ _ blind_entry).
Qed.

Lemma queryTrace_calls peerIds s :
  calls (queryTrace i env peerIds s) =
  [NewContract (contractAddress (_init i)) CONTRACT_ABI (ethereum (_init i));
   GetAllPeerIds (contractIndex (_init i))].
Proof.
  unfold queryTrace, contractYield, peerIdsYield, calls. simpl.
  rewrite filter_app. simpl. rewrite filter_app. simpl.
  now rewrite !(filter_yield i _ _ _ blind_calls).
Qed.

Lemma queryTrace_executions peerIds s : executions (queryTrace i env peerIds s) = 0%nat.
Proof.
  unfold queryTrace, contractYield, peerIdsYield, executions. simpl.
  rewrite filter_app. simpl. rewrite filter_app. simpl.
  now rewrite !(filter_yield i _ _ _ blind_entry).
Qed.

Lemma queried_frame s :
  peerList (queried i env s) = peerList s /\ dials (queried i env s) = dials s.
Proof.
  unfold queried, peerIdsYield, contractYield, networkYield.
  destruct (runCalls_frame i (during env PNetwork) s) as (P1 & D1 & _).
  destruct (runCalls_frame i (during env PContract)
              (fst (runCalls i (during env PNetwork) s))) as (P2 & D2 & _).
  destruct (runCalls_frame i (during env PPeerIds)
              (fst (runCalls i (during env PContract)
                 (fst (runCalls i (during env PNetwork) s))))) as (P3 & D3 & _).
  split; congruence.
Qed.

(** The run of the pipeline on the right chain when the contract answers:
    the effects [t0] up to the tagging loop, then the loop, then the
    [catch] clause if the loop threw. *)
Lemma discover_ok s h n peerIds :
  timer s = Some h ->
  getNetwork env = Normal n ->
  chainDiffers n (chainId (_init i)) = false ->
  newContract env = Normal tt ->
  getAllPeerIds env = Normal peerIds ->
  exists t0,
    calls t0 = queryCalls i env peerIds
    /\ executions t0 = 1%nat
    /\ (forall j str e,
          nth_error peerIds j = Some str ->
          resolveOutcome env j str = Throw e ->
          In (lookupFailed str e) t0)
    /\ peerList (beforeTagging i env peerIds s) = peerList s ++ resolved env 0 peerIds
    /\ dials (beforeTagging i env peerIds s) = dials s
    /\ forall c s' t1,
         tagLoop i env 0 (peerList (beforeTagging i env peerIds s))
                 (beforeTagging i env peerIds s) = (c, s', t1) ->
         _discoverBootstrapPeers i env s = (Normal tt, s', t0 ++ t1 ++ catchLog c).
Proof.
  intros Ht En Ec E1 E2.
  destruct (resolveLoop_spec i env peerIds 0 (queried i env s))
    as (sr & tr & R & P & D & C & X & L).
  destruct (queried_frame s) as [Pq Dq].
  assert (B : beforeTagging i env peerIds s = sr).
  { unfold beforeTagging. now rewrite R. }
  rewrite B.
  set (count := Log LTrace [AStr "Processing peer list, count:";
                            ANum (Z.of_nat (List.length (peerList sr)))]).
  exists (networkTrace i env s ++ queryTrace i env peerIds (fst (networkYield i env s)) ++ tr ++ [count]).
  split.
  { rewrite !calls_app, networkTrace_calls, queryTrace_calls, C.
    unfold queryCalls. simpl. now rewrite app_nil_r. }
  split.
  { rewrite !executions_app, networkTrace_executions, queryTrace_executions, X.
    reflexivity. }
  split.
  { intros j str e Hj Ho. apply in_or_app. right. apply in_or_app. right.
    apply in_or_app. left. now apply (L j). }
  split; [congruence|]. split; [congruence|].
  intros c s' t1 T.
  rewrite (discover_right_network s h n Ht En Ec).
  assert (Body : discoverBody i env (fst (networkYield i env s)) =
                 match c with
                 | Normal _ => (Normal tt, s',
                     queryTrace i env peerIds (fst (networkYield i env s)) ++ tr ++ count :: t1)
                 | Throw e => (Throw e, s',
                     queryTrace i env peerIds (fst (networkYield i env s)) ++ tr ++ count :: t1)
                 end).
  { rewrite (body_query_ok _ peerIds E1 E2).
    fold (queried i env s).
    erewrite bind_result; [|exact R]. run. fold count.
    destruct c as [ctl|e].
    - erewrite bind_result; [|exact T]. unfold ret. rewrite !pre_result.
      rewrite app_nil_r, <- !app_assoc. reflexivity.
    - erewrite bind_thrown; [|exact T]. rewrite !pre_result.
      rewrite <- !app_assoc. reflexivity. }
  destruct c as [ctl|e].
  - erewrite tryCatch_result; [|exact Body]. rewrite pre_result. unfold catchLog.
    rewrite app_nil_r, <- !app_assoc. reflexivity.
  - erewrite tryCatch_thrown; [|exact Body]. unfold emit. rewrite !pre_result.
    unfold catchLog. rewrite <- !app_assoc. reflexivity.
Qed.

(** While nobody calls [stop()] before the tagging loop, timer and timers
    of an armed instance are as they were when the loop starts. *)
Lemma beforeTagging_armed peerIds s :
  isStarted s = true ->
  noStopAt env PNetwork -> noStopAt env PContract -> noStopAt env PPeerIds ->
  (forall j, noStopAt env (PFindPeer j)) ->
  timer (beforeTagging i env peerIds s) = timer s
  /\ sched (beforeTagging i env peerIds s) = sched s.
Proof.
  intros Hs Q1 Q2 Q3 Q4. unfold beforeTagging.
  assert (E : queried i env s = s).
  { unfold queried, networkYield, contractYield, peerIdsYield.
    rewrite (runCalls_armed i _ s Q1 Hs). simpl.
    rewrite (runCalls_armed i _ s Q2 Hs). simpl.
    now rewrite (runCalls_armed i _ s Q3 Hs). }
  rewrite E. now apply resolveLoop_armed.
Qed.

End Pipeline.

(** ** The shape of a run *)

Lemma filter_calls f t : callsOnly f -> filter f (calls t) = filter f t.
Proof.
  intros Hf. unfold calls. induction t as [|e t IH]; simpl; [reflexivity|].
  destruct (isLog e) eqn:El; simpl.
  - destruct (f e) eqn:Ef; [|exact IH]. apply Hf in Ef. congruence.
  - now rewrite IH.
Qed.

Lemma callsOnly_merge : callsOnly isMerge.
Proof. now intros []. Qed.
Lemma callsOnly_event : callsOnly isPeerEvent.
Proof. now intros []. Qed.
Lemma callsOnly_open : callsOnly isOpenConnection.
Proof. now intros []. Qed.
Lemma callsOnly_concerns pid : callsOnly (concerns pid).
Proof. now intros []. Qed.
Lemma callsOnly_contract : callsOnly isContractCall.
Proof. now intros []. Qed.

Lemma downstream_merge : downstream isMerge.
Proof. repeat split; try reflexivity. apply callsOnly_merge. Qed.
Lemma downstream_event : downstream isPeerEvent.
Proof. repeat split; try reflexivity. apply callsOnly_event. Qed.
Lemma downstream_open : downstream isOpenConnection.
Proof. repeat split; try reflexivity. apply callsOnly_open. Qed.
Lemma downstream_concerns pid : downstream (concerns pid).
Proof. repeat split; try reflexivity. apply callsOnly_concerns. Qed.

Ltac sift B :=
  unfold executions, calls, networkTrace, queryTrace, networkYield, contractYield,
    peerIdsYield;
  repeat (progress simpl || rewrite filter_app || rewrite (filter_yield _ _ _ _ B)).

Section Shape.

Variable i : EVMBootstrap.
Variable env : Env.

Lemma filter_queryCalls f peerIds :
  downstream f -> filter f (queryCalls i env peerIds) = [].
Proof.
  intros (_ & F1 & F2 & F3 & F4). unfold queryCalls. simpl.
  rewrite F1, F2, F3. induction (parsed env peerIds) as [|p l IH]; simpl; [reflexivity|].
  now rewrite F4.
Qed.

Lemma merges_stepCalls l : filter isMerge (flat_map (stepCalls i) l) = map (mergeCall i) l.
Proof. induction l as [|p l IH]; simpl; [reflexivity|]. now rewrite IH. Qed.

Lemma events_stepCalls l : filter isPeerEvent (flat_map (stepCalls i) l) = map PeerEvent l.
Proof. induction l as [|p l IH]; simpl; [reflexivity|]. now rewrite IH. Qed.

Lemma opens_stepCalls l : filter isOpenConnection (flat_map (stepCalls i) l) = map openCall l.
Proof. induction l as [|p l IH]; simpl; [reflexivity|]. now rewrite IH. Qed.

Lemma merges_tailCalls l k : filter isMerge (tailCalls i l k) = tailCalls i l k.
Proof. unfold tailCalls. now destruct (nth_error l k). Qed.

Lemma events_tailCalls l k : filter isPeerEvent (tailCalls i l k) = [].
Proof. unfold tailCalls. now destruct (nth_error l k). Qed.

Lemma opens_tailCalls l k : filter isOpenConnection (tailCalls i l k) = [].
Proof. unfold tailCalls. now destruct (nth_error l k). Qed.

(** On the right chain with an answering contract the pipeline returns
    normally; its list is the old one followed by the peers resolved; its
    calls are the query, the lookups, [k] full passes of the tagging loop
    and, unless the loop ran to its end, the merge of entry [k]. *)
Lemma discover_shape s h n peerIds :
  timer s = Some h ->
  getNetwork env = Normal n ->
  chainDiffers n (chainId (_init i)) = false ->
  newContract env = Normal tt ->
  getAllPeerIds env = Normal peerIds ->
  exists s' t k,
    _discoverBootstrapPeers i env s = (Normal tt, s', t)
    /\ peerList s' = peerList s ++ resolved env 0 peerIds
    /\ executions t = 1%nat
    /\ (forall j str e,
          nth_error peerIds j = Some str ->
          resolveOutcome env j str = Throw e ->
          In (lookupFailed str e) t)
    /\ guardsPassed env (peerList s') 0 k
    /\ calls t = queryCalls i env peerIds
                 ++ flat_map (stepCalls i) (firstn k (peerList s'))
                 ++ tailCalls i (peerList s') k
    /\ runEnd env (peerList s') k s' t.
Proof.
  intros Ht En Ec E1 E2.
  destruct (discover_ok i env s h n peerIds Ht En Ec E1 E2)
    as (t0 & C0 & X0 & L0 & P0 & _ & R).
  destruct (tagLoop i env 0 (peerList (beforeTagging i env peerIds s))
              (beforeTagging i env peerIds s)) as [[c s'] t1] eqn:T.
  destruct (tagLoop_spec i env _ _ _ _ _ _ T) as (P1 & X1 & k & G & L).
  rewrite <- P1 in *.
  exists s', (t0 ++ t1 ++ catchLog c), k.
  split; [now apply R|]. split; [congruence|]. split.
  { rewrite !executions_app, X0, X1. now destruct c. }
  split.
  { intros j str e Hj Ho. apply in_or_app. left. now apply (L0 j str e). }
  split; [exact G|].
  assert (Cc : calls (catchLog c) = []) by now destruct c.
  rewrite !calls_app, C0, Cc, app_nil_r.
  destruct c as [[]|e]; cbn [loopPost] in L.
  - destruct L as [-> L]. split.
    + rewrite L, firstn_all. unfold tailCalls.
      assert (N : nth_error (peerList s') (List.length (peerList s')) = None)
        by now apply nth_error_None.
      now rewrite N, app_nil_r.
    + now left.
  - destruct L as (p & Q1 & Q2 & Q3 & Q4). split.
    + rewrite Q4. unfold tailCalls. now rewrite Q1.
    + right. left. exists p. now repeat split.
  - destruct L as (p & Q1 & Q2 & Q4). split.
    + rewrite Q4. unfold tailCalls. now rewrite Q1.
    + right. right. exists p, e, (t0 ++ t1). repeat split; auto.
      simpl. now rewrite app_assoc.
Qed.

(** In every other branch the pipeline stops before the resolution loop:
    it issues at most the network query, the contract construction and the
    contract query, and the list stays as it was. *)
Lemma discover_early s :
  (exists h n peerIds,
      timer s = Some h /\ getNetwork env = Normal n
      /\ chainDiffers n (chainId (_init i)) = false
      /\ newContract env = Normal tt /\ getAllPeerIds env = Normal peerIds)
  \/ (forall c s' t,
        _discoverBootstrapPeers i env s = (c, s', t) ->
        peerList s' = peerList s
        /\ executions t = 1%nat
        /\ forall f, downstream f -> filter f t = []).
Proof.
  destruct (timer s) as [h|] eqn:Ht.
  2:{ right. intros c s' t E. rewrite (discover_unarmed i env s Ht) in E.
      injection E as <- <- <-. repeat split.
      intros f (F & _). rewrite <- (filter_calls f _ F). reflexivity. }
  assert (Pn : peerList (fst (networkYield i env s)) = peerList s)
    by apply runCalls_frame.
  destruct (getNetwork env) as [n|e] eqn:En.
  2:{ right. intros c s' t E. rewrite (discover_network_fails i env s h e Ht En) in E.
      injection E as <- <- <-. split; [exact Pn|]. split.
      - apply networkTrace_executions.
      - intros f (F & F1 & _). rewrite <- (filter_calls f _ F), networkTrace_calls.
        simpl. now rewrite F1. }
  destruct (chainDiffers n (chainId (_init i))) eqn:Ec.
  { right. intros c s' t E. rewrite (discover_wrong_network i env s h n Ht En Ec) in E.
    apply pair_equal_spec in E as [E <-]. apply pair_equal_spec in E as [<- <-].
    split; [exact Pn|]. split.
    - rewrite executions_app, networkTrace_executions. reflexivity.
    - intros f (F & F1 & _).
      rewrite <- (filter_calls f _ F), calls_app, networkTrace_calls.
      simpl. now rewrite F1. }
  destruct (newContract env) as [[]|e] eqn:E1.
  2:{ right. intros c s' t E. rewrite (discover_right_network i env s h n Ht En Ec) in E.
      rewrite (tryCatch_thrown _ _ _ _ _ _ (body_contract_throws i env _ e E1)) in E.
      unfold emit in E. rewrite !pre_result in E.
      apply pair_equal_spec in E as [E <-]. apply pair_equal_spec in E as [<- <-].
      split.
      { rewrite <- Pn. apply runCalls_frame. }
      split; [now sift blind_entry|].
      intros f (F & F1 & F2 & _).
      rewrite <- (filter_calls f _ F). sift blind_calls. now rewrite F1, F2. }
  destruct (getAllPeerIds env) as [peerIds|e] eqn:E2.
  { left. exists h, n, peerIds. now repeat split. }
  right. intros c s' t E. rewrite (discover_right_network i env s h n Ht En Ec) in E.
  rewrite (tryCatch_thrown _ _ _ _ _ _ (body_query_throws i env _ e E1 E2)) in E.
  unfold emit in E. rewrite !pre_result in E.
  apply pair_equal_spec in E as [E <-]. apply pair_equal_spec in E as [<- <-].
  split.
  { rewrite <- Pn. unfold peerIdsYield, contractYield.
    rewrite (proj1 (runCalls_frame i _ _)). apply runCalls_frame. }
  split; [now sift blind_entry|].
  intros f (F & F1 & F2 & F3 & _).
  rewrite <- (filter_calls f _ F). sift blind_calls. now rewrite F1, F2, F3.
Qed.

End Shape.

(** * The claims *)

Lemma chainDiffers_spec n c : chainDiffers n c = true <-> Some n <> c.
Proof.
  unfold chainDiffers. destruct c as [c|]; [|split; [discriminate|reflexivity]].
  rewrite negb_true_iff, Z.eqb_neq. split; congruence.
Qed.

Lemma append_assoc (a b c : string) :
  String.append (String.append a b) c = String.append a (String.append b c).
Proof. induction a as [|x a IH]; simpl; [reflexivity|]. now rewrite IH. Qed.

Lemma wrongChainLog_mentions n c :
  mentions (showBigInt n) (wrongChainLog n c)
  /\ mentions (showChainId c) (wrongChainLog n c).
Proof.
  split.
  - exists "Ethereum provider is connected to chainId ".
    exists (String.append ", but expected "
              (String.append (showChainId c) ". Please switch networks in your wallet.")).
    reflexivity.
  - exists (String.append "Ethereum provider is connected to chainId "
              (String.append (showBigInt n) ", but expected ")).
    exists ". Please switch networks in your wallet.".
    rewrite !append_assoc. reflexivity.
Qed.

(** ** The chain identity check *)

(** C1.  When the pipeline runs on an armed instance and the provider reports
    a network id other than the configured [chainId], the pipeline throws an
    error whose message starts with "Wrong network"; the last thing it did
    was to log an error line that names the observed and the expected id; it
    constructed no contract and queried none: its only call is
    [getNetwork]. *)
Theorem wrong_network_raises i env s h n :
  timer s = Some h ->
  getNetwork env = Normal n ->
  Some n <> chainId (_init i) ->
  exists s' t0,
    _discoverBootstrapPeers i env s =
      (Throw (wrongNetworkError n (chainId (_init i))), s',
       t0 ++ [Log LError [AStr (wrongChainLog n (chainId (_init i)))]])
    /\ String.prefix "Wrong network"
         (message (wrongNetworkError n (chainId (_init i)))) = true
    /\ mentions (showBigInt n) (wrongChainLog n (chainId (_init i)))
    /\ mentions (showChainId (chainId (_init i))) (wrongChainLog n (chainId (_init i)))
    /\ calls (t0 ++ [Log LError [AStr (wrongChainLog n (chainId (_init i)))]])
       = [GetNetwork]
    /\ filter isContractCall
         (t0 ++ [Log LError [AStr (wrongChainLog n (chainId (_init i)))]]) = []
    /\ peerList s' = peerList s.
Proof.
  intros Ht En Hd. apply chainDiffers_spec in Hd.
  exists (fst (networkYield i env s)), (networkTrace i env s).
  split; [now apply (discover_wrong_network i env s h n)|].
  split; [reflexivity|].
  split; [apply wrongChainLog_mentions|].
  split; [apply wrongChainLog_mentions|].
  assert (C : calls (networkTrace i env s
                     ++ [Log LError [AStr (wrongChainLog n (chainId (_init i)))]])
              = [GetNetwork]).
  { now rewrite calls_app, networkTrace_calls. }
  split; [exact C|]. split.
  - rewrite <- (filter_calls _ _ callsOnly_contract), C. reflexivity.
  - apply runCalls_frame.
Qed.

Lemma wrong_network_raises_witness :
  timer Sample.armed = Some 1%positive
  /\ getNetwork Sample.envWrongChain = Normal 99
  /\ Some 99 <> chainId (_init Sample.instance)
  /\ exists s' t0,
       _discoverBootstrapPeers Sample.instance Sample.envWrongChain Sample.armed =
         (Throw (mkError "Wrong network: expected chainId 1, got 99"), s',
          t0 ++ [Log LError [AStr "Ethereum provider is connected to chainId 99, but expected 1. Please switch networks in your wallet."]])
       /\ calls t0 = [GetNetwork].
Proof.
  split; [reflexivity|]. split; [reflexivity|]. split; [discriminate|].
  destruct (wrong_network_raises Sample.instance Sample.envWrongChain Sample.armed
              1%positive 99 eq_refl eq_refl)
    as (s' & t0 & R & _ & _ & _ & C & _); [discriminate|].
  exists s', t0. split; [exact R|].
  rewrite calls_app in C. simpl in C. now rewrite app_nil_r in C.
Defined.

(** ** What escapes the pipeline *)

Section Escapes.

Variable i : EVMBootstrap.
Variable env : Env.

(** Past the chain identity check nothing is thrown to the caller. *)
Lemma right_network_returns s h n :
  timer s = Some h ->
  getNetwork env = Normal n ->
  chainDiffers n (chainId (_init i)) = false ->
  fst (fst (_discoverBootstrapPeers i env s)) = Normal tt.
Proof.
  intros Ht En Ec.
  destruct (newContract env) as [[]|e] eqn:E1.
  - destruct (getAllPeerIds env) as [peerIds|e] eqn:E2.
    + destruct (discover_shape i env s h n peerIds Ht En Ec E1 E2)
        as (s' & t & k & R & _). now rewrite R.
    + rewrite (discover_right_network i env s h n Ht En Ec).
      rewrite (tryCatch_thrown _ _ _ _ _ _ (body_query_throws i env _ e E1 E2)).
      unfold emit. now rewrite !pre_result.
  - rewrite (discover_right_network i env s h n Ht En Ec).
    rewrite (tryCatch_thrown _ _ _ _ _ _ (body_contract_throws i env _ e E1)).
    unfold emit. now rewrite !pre_result.
Qed.

End Escapes.

(** C2, as the code has it.  The pipeline throws to its caller in exactly two
    cases, both on an armed instance: the network query itself fails, and the
    error thrown is that failure; or the query answers an id other than the
    configured one, and the error is the wrong-network error.  Whatever else
    fails (contract construction, contract query, parsing, routing, registry
    merge, dial) the pipeline returns normally. *)
Theorem escapes_iff i env s e :
  fst (fst (_discoverBootstrapPeers i env s)) = Throw e
  <-> isStarted s = true
      /\ (getNetwork env = Throw e
          \/ exists n, getNetwork env = Normal n
                       /\ Some n <> chainId (_init i)
                       /\ e = wrongNetworkError n (chainId (_init i))).
Proof.
  unfold isStarted. destruct (timer s) as [h|] eqn:Ht.
  2:{ rewrite (discover_unarmed i env s Ht). simpl. split; [discriminate|].
      intros [H _]. discriminate. }
  destruct (getNetwork env) as [n|e'] eqn:En.
  2:{ rewrite (discover_network_fails i env s h e' Ht En). simpl. split.
      - intros [= ->]. split; [reflexivity|]. now left.
      - intros [_ [[= ->]|(n & Hn & _)]]; [reflexivity|discriminate]. }
  destruct (chainDiffers n (chainId (_init i))) eqn:Ec.
  - rewrite (discover_wrong_network i env s h n Ht En Ec). simpl. split.
    + intros [= <-]. split; [reflexivity|]. right. exists n.
      repeat split. now apply chainDiffers_spec.
    + intros [_ [H|(n' & [= <-] & _ & ->)]]; [discriminate|reflexivity].
  - rewrite (right_network_returns i env s h n Ht En Ec). split; [discriminate|].
    intros [_ [H|(n' & [= <-] & Hd & _)]]; [discriminate|].
    apply chainDiffers_spec in Hd. congruence.
Qed.

(** C2, as stated, fails: the provider cannot be reached, and the failure of
    the network query escapes the pipeline though it is no wrong-network
    error. *)
Lemma network_failure_escapes :
  isStarted Sample.armed = true
  /\ getNetwork Sample.envRpcDown = Throw Sample.rpcDown
  /\ fst (fst (_discoverBootstrapPeers Sample.instance Sample.envRpcDown Sample.armed))
     = Throw Sample.rpcDown
  /\ fst (fst (_discoverBootstrapPeers Sample.instance Sample.envRpcDown Sample.armed))
     <> Normal tt
  /\ String.prefix "Wrong network" (message Sample.rpcDown) = false.
Proof. repeat split. discriminate. Qed.

(** ** The failure boundary *)

Section Boundary.

Variable i : EVMBootstrap.
Variable env : Env.

Lemma firstn_snoc {A} (l : list A) : forall k p,
  nth_error l k = Some p -> firstn (S k) l = firstn k l ++ [p].
Proof.
  induction l as [|x l IH]; intros [|k] p H; try discriminate.
  - injection H as ->. reflexivity.
  - simpl in H. change (firstn (S (S k)) (x :: l)) with (x :: firstn (S k) l).
    rewrite (IH k p H). reflexivity.
Qed.

(** The merges, events and connection requests of a run of the shape of
    [discover_shape]. *)
Lemma shape_readings peerIds l k t :
  calls t = queryCalls i env peerIds ++ flat_map (stepCalls i) (firstn k l)
            ++ tailCalls i l k ->
  merges t = map (mergeCall i) (firstn k l) ++ tailCalls i l k
  /\ events t = map PeerEvent (firstn k l)
  /\ opens t = map openCall (firstn k l).
Proof.
  intros C. unfold merges, events, opens.
  rewrite <- (filter_calls _ t callsOnly_merge),
          <- (filter_calls _ t callsOnly_event),
          <- (filter_calls _ t callsOnly_open), C.
  rewrite !filter_app.
  rewrite (filter_queryCalls i env _ _ downstream_merge),
          (filter_queryCalls i env _ _ downstream_event),
          (filter_queryCalls i env _ _ downstream_open).
  rewrite merges_stepCalls, events_stepCalls, opens_stepCalls.
  rewrite merges_tailCalls, events_tailCalls, opens_tailCalls.
  now rewrite !app_nil_r.
Qed.

End Boundary.

(** C8.  On an armed instance on the right chain: when the contract
    constructor throws, or the contract query rejects, the pipeline returns
    normally and the last thing it did was to log "Could not discover
    bootstrap peers" with that error; the same happens when the merge of an
    entry rejects, and then that merge is the last one of the run and only
    the entries before it were announced and dialled. *)
Theorem failures_swallowed i env s h n :
  timer s = Some h ->
  getNetwork env = Normal n ->
  chainDiffers n (chainId (_init i)) = false ->
  (forall e, newContract env = Throw e ->
     exists s' t0,
       _discoverBootstrapPeers i env s = (Normal tt, s', t0 ++ [Log LError [AStr "Could not discover bootstrap peers"; AErr e]])
       /\ calls t0 = [GetNetwork;
                      NewContract (contractAddress (_init i)) CONTRACT_ABI
                                  (ethereum (_init i))])
  /\ (forall e, newContract env = Normal tt -> getAllPeerIds env = Throw e ->
       exists s' t0,
         _discoverBootstrapPeers i env s = (Normal tt, s', t0 ++ [Log LError [AStr "Could not discover bootstrap peers"; AErr e]])
         /\ calls t0 = [GetNetwork;
                        NewContract (contractAddress (_init i)) CONTRACT_ABI
                                    (ethereum (_init i));
                        GetAllPeerIds (contractIndex (_init i))])
  /\ (forall peerIds, newContract env = Normal tt -> getAllPeerIds env = Normal peerIds ->
       exists s' t,
         _discoverBootstrapPeers i env s = (Normal tt, s', t)
         /\ forall j p e,
              nth_error (peerList s') j = Some p ->
              merge env j p = Throw e ->
              (j < List.length (merges t))%nat ->
              (exists t0, t = t0 ++ [Log LError [AStr "Could not discover bootstrap peers"; AErr e]])
              /\ merges t = map (mergeCall i) (firstn (S j) (peerList s'))
              /\ events t = map PeerEvent (firstn j (peerList s'))
              /\ opens t = map openCall (firstn j (peerList s'))).
Proof.
  intros Ht En Ec. split; [|split].
  - intros e E1.
    exists (fst (contractYield i env (fst (networkYield i env s)))).
    eexists. rewrite (discover_right_network i env s h n Ht En Ec).
    rewrite (tryCatch_thrown _ _ _ _ _ _ (body_contract_throws i env _ e E1)).
    unfold emit. rewrite !pre_result, app_assoc. split; [reflexivity|].
    now sift blind_calls.
  - intros e E1 E2.
    exists (fst (peerIdsYield i env (fst (contractYield i env (fst (networkYield i env s)))))).
    eexists. rewrite (discover_right_network i env s h n Ht En Ec).
    rewrite (tryCatch_thrown _ _ _ _ _ _ (body_query_throws i env _ e E1 E2)).
    unfold emit. rewrite !pre_result, app_assoc. split; [reflexivity|].
    now sift blind_calls.
  - intros peerIds E1 E2.
    destruct (discover_shape i env s h n peerIds Ht En Ec E1 E2)
      as (s' & t & k & R & _ & _ & _ & G & C & End).
    exists s', t. split; [exact R|].
    intros j p e Hj Hm Hlt.
    destruct (shape_readings i env _ _ _ _ C) as (Rm & Re & Ro).
    assert (Hk : ~ (j < k)%nat).
    { intros Hjk. destruct (G j Hjk) as (q & Q1 & Q2 & _). simpl in Q2. congruence. }
    rewrite Rm, length_app, length_map, length_firstn in Hlt.
    unfold tailCalls in *.
    destruct End as [->|[(q & Q1 & Q2 & _)|(q & e' & t0 & Q1 & Q2 & Q3)]].
    + exfalso. rewrite (proj2 (nth_error_None _ _) (Nat.le_refl _)) in Hlt.
      simpl in Hlt. lia.
    + rewrite Q1 in Hlt. simpl in Hlt.
      assert (j = k) as -> by lia. congruence.
    + rewrite Q1 in Hlt, Rm. simpl in Hlt.
      assert (j = k) as -> by lia.
      assert (q = p) as -> by congruence.
      assert (e' = e) as -> by congruence.
      split; [exists t0; exact Q3|]. split; [|now split].
      now rewrite Rm, (firstn_snoc _ _ _ Hj), map_app.
Qed.

Lemma failures_swallowed_witness :
  timer Sample.armed = Some 1%positive
  /\ getNetwork Sample.envMergeFails = Normal 1
  /\ chainDiffers 1 (chainId (_init Sample.instance)) = false
  /\ exists s' t,
       _discoverBootstrapPeers Sample.instance Sample.envMergeFails Sample.armed
       = (Normal tt, s', t)
       /\ (exists t0, t = t0 ++ [Log LError [AStr "Could not discover bootstrap peers"; AErr (mkError "boom")]])
       /\ List.length (merges t) = 2%nat
       /\ List.length (events t) = 1%nat
       /\ List.length (opens t) = 1%nat.
Proof.
  split; [reflexivity|]. split; [reflexivity|]. split; [reflexivity|].
  destruct (failures_swallowed Sample.instance Sample.envMergeFails Sample.armed
              1%positive 1 eq_refl eq_refl eq_refl) as (_ & _ & H).
  destruct (H Sample.mockPeerIds eq_refl eq_refl) as (s' & t & R & F).
  exists s', t. split; [exact R|].
  vm_compute in R. injection R as <- <-.
  destruct (F 1%nat (Sample.info "QmYyQSo1c1Ym7orWxLYvCrM2EmxFTANf8wXgoE34zJv7Xc")
              Sample.boom eq_refl eq_refl) as (T0 & M & E & O).
  { vm_compute. lia. }
  split; [exact T0|]. rewrite M, E, O. repeat split.
Defined.

(** ** Per-identifier isolation *)

Section Origin.

Variable i : EVMBootstrap.
Variable env : Env.

Lemma filter_none {A} (f : A -> bool) (l : list A) :
  (forall x, In x l -> f x = false) -> filter f l = [].
Proof.
  induction l as [|x l IH]; intros H; simpl; [reflexivity|].
  rewrite (H x (or_introl eq_refl)). apply IH. intros y Hy. apply H. now right.
Qed.

Lemma calls_In e t : In e t -> isLog e = false -> In e (calls t).
Proof. intros H L. apply filter_In. split; [exact H|]. now rewrite L. Qed.

(** Every call of such a run that is not part of the query comes from a
    pass on an entry of the list. *)
Lemma shape_origin peerIds l k t e :
  calls t = queryCalls i env peerIds ++ flat_map (stepCalls i) (firstn k l)
            ++ tailCalls i l k ->
  In e t -> isLog e = false ->
  In e (queryCalls i env peerIds) \/ exists p, In p l /\ In e (stepCalls i p).
Proof.
  intros C He Hl. apply (calls_In e t He) in Hl. rewrite C in Hl.
  apply in_app_or in Hl as [H|H]; [now left|]. right.
  apply in_app_or in H as [H|H].
  - apply in_flat_map in H as (p & Hp & H). exists p. split; [|exact H].
    rewrite <- (firstn_skipn k l). apply in_or_app. now left.
  - unfold tailCalls in H. destruct (nth_error l k) as [p|] eqn:Hk; [|destruct H].
    destruct H as [<-|[]]. exists p. split; [now apply nth_error_In with k|now left].
Qed.

Lemma findPeers_shape peerIds l k t :
  calls t = queryCalls i env peerIds ++ flat_map (stepCalls i) (firstn k l)
            ++ tailCalls i l k ->
  filter isFindPeer t = map FindPeer (parsed env peerIds).
Proof.
  intros C.
  assert (F : callsOnly isFindPeer) by now intros [].
  rewrite <- (filter_calls _ t F), C, !filter_app.
  assert (E1 : forall l', filter isFindPeer (flat_map (stepCalls i) l') = []).
  { induction l' as [|p l' IH]; [reflexivity|exact IH]. }
  assert (E2 : filter isFindPeer (tailCalls i l k) = []).
  { unfold tailCalls. now destruct (nth_error l k). }
  rewrite E1, E2, !app_nil_r. unfold queryCalls. simpl.
  induction (parsed env peerIds) as [|p l' IH]; simpl; [reflexivity|]. now rewrite IH.
Qed.

Lemma concerns_stepCalls pid p e :
  In e (stepCalls i p) -> concerns pid e = true -> id p = pid.
Proof.
  intros [<-|[<-|[<-|[]]]]; simpl; intros H; now apply String.eqb_eq in H.
Qed.

End Origin.

(** C3, as the code has it.  On an armed instance on the right chain with an
    answering contract: every identifier that fails to parse or to resolve is
    logged with its error; each identifier that parses is looked up, whatever
    happened to the ones before it; the list grows by exactly the peers
    resolved, in order; every merge, ["peer"] event and connection request of
    the run is made for an entry of the list; hence a peer that is neither in
    the list from an earlier run nor among the peers resolved in this run
    appears in none of them. *)
Theorem failing_identifier_skipped i env s h n peerIds :
  timer s = Some h ->
  getNetwork env = Normal n ->
  chainDiffers n (chainId (_init i)) = false ->
  newContract env = Normal tt ->
  getAllPeerIds env = Normal peerIds ->
  exists s' t,
    _discoverBootstrapPeers i env s = (Normal tt, s', t)
    /\ (forall j str e,
          nth_error peerIds j = Some str ->
          resolveOutcome env j str = Throw e ->
          In (lookupFailed str e) t)
    /\ filter isFindPeer t = map FindPeer (parsed env peerIds)
    /\ peerList s' = peerList s ++ resolved env 0 peerIds
    /\ (forall e, In e t ->
          isMerge e || isPeerEvent e || isOpenConnection e = true ->
          exists p, In p (peerList s') /\ In e (stepCalls i p))
    /\ (forall pid,
          (forall p, In p (peerList s) -> id p <> pid) ->
          (forall p, In p (resolved env 0 peerIds) -> id p <> pid) ->
          filter (concerns pid) t = []).
Proof.
  intros Ht En Ec E1 E2.
  destruct (discover_shape i env s h n peerIds Ht En Ec E1 E2)
    as (s' & t & k & R & P & _ & L & _ & C & _).
  exists s', t. split; [exact R|]. split; [exact L|].
  split; [exact (findPeers_shape i env _ _ _ _ C)|]. split; [exact P|].
  assert (O : forall e, In e t ->
                isMerge e || isPeerEvent e || isOpenConnection e = true ->
                exists p, In p (peerList s') /\ In e (stepCalls i p)).
  { intros e He Hd.
    assert (Hl : isLog e = false) by (destruct e; try discriminate; reflexivity).
    destruct (shape_origin i env _ _ _ _ e C He Hl) as [Hq|Hp]; [|exact Hp].
    exfalso. unfold queryCalls in Hq.
    destruct Hq as [<-|[<-|[<-|Hq]]]; try discriminate.
    apply in_map_iff in Hq as (q & <- & _). discriminate. }
  split; [exact O|].
  intros pid H1 H2. apply filter_none. intros e He.
  destruct (concerns pid e) eqn:Hc; [exfalso|reflexivity].
  destruct (O e He) as (p & Hp & Hs).
  { destruct e; try discriminate; reflexivity. }
  rewrite P in Hp. apply (concerns_stepCalls i pid p e Hs) in Hc.
  apply in_app_or in Hp as [Hp|Hp]; [now apply (H1 p)|now apply (H2 p)].
Qed.

Lemma failing_identifier_skipped_witness :
  timer Sample.rearmed = Some 2%positive
  /\ getNetwork Sample.envLookupFails = Normal 1
  /\ chainDiffers 1 (chainId (_init Sample.instance)) = false
  /\ newContract Sample.envLookupFails = Normal tt
  /\ getAllPeerIds Sample.envLookupFails = Normal [id Sample.peerB]
  /\ exists s' t,
       _discoverBootstrapPeers Sample.instance Sample.envLookupFails Sample.rearmed
       = (Normal tt, s', t)
       /\ In (lookupFailed (id Sample.peerB) Sample.unreachable) t
       /\ peerList s' = [Sample.peerB]
       /\ filter (concerns (id Sample.peerC)) t = [].
Proof.
  repeat (split; [reflexivity|]).
  destruct (failing_identifier_skipped Sample.instance Sample.envLookupFails
              Sample.rearmed 2%positive 1 [id Sample.peerB]
              eq_refl eq_refl eq_refl eq_refl eq_refl)
    as (s' & t & R & L & _ & P & _ & N).
  exists s', t. split; [exact R|]. split.
  - apply (L 0%nat); reflexivity.
  - split; [exact P|]. apply N.
    + intros p [<-|[]]. discriminate.
    + intros p [].
Defined.

(** C3, as stated, fails: the peer was resolved by an earlier run and is
    still in the list; in this run its lookup fails and is logged, and yet
    the peer is merged, announced and dialled. *)
Lemma failed_lookup_still_downstream :
  getAllPeerIds Sample.envLookupFails = Normal [id Sample.peerB]
  /\ resolveOutcome Sample.envLookupFails 0 (id Sample.peerB) = Throw Sample.unreachable
  /\ In (lookupFailed (id Sample.peerB) Sample.unreachable)
        (snd (_discoverBootstrapPeers Sample.instance Sample.envLookupFails
                Sample.rearmed))
  /\ filter (concerns (id Sample.peerB))
        (snd (_discoverBootstrapPeers Sample.instance Sample.envLookupFails
                Sample.rearmed))
     = [mergeCall Sample.instance Sample.peerB; PeerEvent Sample.peerB;
        OpenConnection (id Sample.peerB)].
Proof.
  split; [reflexivity|]. split; [reflexivity|]. split.
  - vm_compute. tauto.
  - vm_compute. reflexivity.
Qed.

(** ** The tagging loop *)

Section Tagging.

Variable i : EVMBootstrap.
Variable env : Env.

(** A run that passes a prefix [l1] of the list pass by pass and then
    meets [rest]. *)
Lemma discover_prefix s h n peerIds l1 rest :
  timer s = Some h ->
  getNetwork env = Normal n ->
  chainDiffers n (chainId (_init i)) = false ->
  newContract env = Normal tt ->
  getAllPeerIds env = Normal peerIds ->
  peerList s ++ resolved env 0 peerIds = l1 ++ rest ->
  noStopAt env PNetwork -> noStopAt env PContract -> noStopAt env PPeerIds ->
  (forall j, noStopAt env (PFindPeer j)) ->
  (forall j p, nth_error l1 j = Some p -> merge env j p = Normal tt) ->
  (forall j, (j < List.length l1)%nat ->
     noStopAt env (PMerge j) /\ noStopAt env (PDispatch j) /\ noStopAt env (POpen j)) ->
  exists t0 s0,
    calls t0 = queryCalls i env peerIds ++ flat_map (stepCalls i) l1
    /\ timer s0 = Some h
    /\ peerList s0 = l1 ++ rest
    /\ dials s0 = dials s ++ inFlight l1
    /\ forall c s' t1,
         tagLoop i env (List.length l1) rest s0 = (c, s', t1) ->
         _discoverBootstrapPeers i env s = (Normal tt, s', t0 ++ t1 ++ catchLog c).
Proof.
  intros Ht En Ec E1 E2 Hl Q1 Q2 Q3 Q4 Hm Hq.
  assert (Hs : isStarted s = true) by (unfold isStarted; now rewrite Ht).
  destruct (discover_ok i env s h n peerIds Ht En Ec E1 E2)
    as (t0 & C0 & _ & _ & P0 & D0 & R).
  destruct (beforeTagging_armed i env peerIds s Hs Q1 Q2 Q3 Q4) as [T0 _].
  set (s0 := beforeTagging i env peerIds s) in *.
  rewrite Hl in P0.
  destruct (tagLoop_prefix i env l1 rest 0 s0) as (t1 & Rp & C1 & _).
  { unfold isStarted. now rewrite T0, Ht. }
  { exact Hm. }
  { exact Hq. }
  exists (t0 ++ t1), (withDials s0 (inFlight l1)).
  split; [now rewrite calls_app, C0, C1|].
  split; [simpl; congruence|]. split; [exact P0|].
  split; [simpl; congruence|].
  intros c s' t2 T. rewrite <- app_assoc, (app_assoc t1). apply R.
  rewrite P0, Rp. simpl. rewrite T. apply pre_result.
Qed.

End Tagging.

(** C4, as the code has it.  On an armed instance on the right chain, when
    the contract answers, nobody calls [stop()] during the run, every
    registry merge succeeds and [openConnection] returns a promise, the
    tagging loop makes a full pass (merge with
    the configured tag and the peer's addresses, ["peer"] event, connection
    request) on every entry of the list, the entries of earlier runs first,
    then the peers resolved in this run, in order.  In particular a first run
    with three identifiers that resolve makes exactly three merges, three
    events and three connection requests, for those peers in that order. *)
Theorem loop_processes_whole_list i env s h n peerIds :
  timer s = Some h ->
  getNetwork env = Normal n ->
  chainDiffers n (chainId (_init i)) = false ->
  newContract env = Normal tt ->
  getAllPeerIds env = Normal peerIds ->
  (forall pt, noStopAt env pt) ->
  (forall j p, nth_error (peerList s ++ resolved env 0 peerIds) j = Some p ->
               merge env j p = Normal tt) ->
  exists s' t,
    _discoverBootstrapPeers i env s = (Normal tt, s', t)
    /\ peerList s' = peerList s ++ resolved env 0 peerIds
    /\ calls t = queryCalls i env peerIds ++ flat_map (stepCalls i) (peerList s')
    /\ merges t = map (mergeCall i) (peerList s')
    /\ events t = map PeerEvent (peerList s')
    /\ opens t = map openCall (peerList s')
    /\ (forall a b c pa pb pc,
          peerList s = [] -> peerIds = [a; b; c] ->
          resolveOutcome env 0 a = Normal pa ->
          resolveOutcome env 1 b = Normal pb ->
          resolveOutcome env 2 c = Normal pc ->
          merges t = [mergeCall i pa; mergeCall i pb; mergeCall i pc]
          /\ events t = [PeerEvent pa; PeerEvent pb; PeerEvent pc]
          /\ opens t = [OpenConnection (id pa); OpenConnection (id pb);
                        OpenConnection (id pc)]).
Proof.
  intros Ht En Ec E1 E2 Hq Hm.
  set (l := peerList s ++ resolved env 0 peerIds) in *.
  destruct (discover_prefix i env s h n peerIds l [] Ht En Ec E1 E2) as
    (t0 & s0 & C0 & T0 & P0 & D0 & R); auto.
  { now rewrite app_nil_r. }
  rewrite app_nil_r in P0.
  assert (Run : _discoverBootstrapPeers i env s = (Normal tt, s0, t0)).
  { rewrite (R (Normal Fallthrough) s0 []); [|reflexivity]. simpl. now rewrite app_nil_r. }
  assert (N : tailCalls i l (List.length l) = []).
  { unfold tailCalls. now rewrite (proj2 (nth_error_None _ _) (Nat.le_refl _)). }
  assert (C : calls t0
              = queryCalls i env peerIds ++ flat_map (stepCalls i) (firstn (List.length l) l)
                ++ tailCalls i l (List.length l)).
  { now rewrite C0, firstn_all, N, app_nil_r. }
  destruct (shape_readings i env _ _ _ _ C) as (Rm & Re & Ro).
  rewrite firstn_all in Rm, Re, Ro. rewrite N, app_nil_r in Rm.
  exists s0, t0. rewrite P0.
  split; [exact Run|]. split; [reflexivity|]. split; [exact C0|].
  split; [exact Rm|]. split; [exact Re|]. split; [exact Ro|].
  intros a b c pa pb pc Hs -> Ha Hb Hc.
  assert (L : l = [pa; pb; pc]).
  { unfold l. rewrite Hs. simpl. now rewrite Ha, Hb, Hc. }
  rewrite Rm, Re, Ro, L. repeat split.
Qed.

Lemma loop_processes_whole_list_witness :
  timer Sample.armed = Some 1%positive
  /\ getNetwork Sample.env = Normal 1
  /\ chainDiffers 1 (chainId (_init Sample.instance)) = false
  /\ newContract Sample.env = Normal tt
  /\ getAllPeerIds Sample.env = Normal Sample.mockPeerIds
  /\ exists s' t,
       _discoverBootstrapPeers Sample.instance Sample.env Sample.armed = (Normal tt, s', t)
       /\ merges t = [Merge (id Sample.peerB) "mytag" 42 (Some 60000) (multiaddrs Sample.peerB);
                      Merge (id Sample.peerC) "mytag" 42 (Some 60000) (multiaddrs Sample.peerC);
                      Merge (id Sample.peerD) "mytag" 42 (Some 60000) (multiaddrs Sample.peerD)]
       /\ events t = [PeerEvent Sample.peerB; PeerEvent Sample.peerC; PeerEvent Sample.peerD]
       /\ opens t = [OpenConnection (id Sample.peerB); OpenConnection (id Sample.peerC);
                     OpenConnection (id Sample.peerD)].
Proof.
  repeat (split; [reflexivity|]).
  destruct (loop_processes_whole_list Sample.instance Sample.env Sample.armed
              1%positive 1 Sample.mockPeerIds eq_refl eq_refl eq_refl eq_refl eq_refl)
    as (s' & t & R & _ & _ & _ & _ & _ & Three).
  - intros pt H. destruct H.
  - intros j p _. reflexivity.
  - exists s', t. split; [exact R|].
    apply (Three _ _ _ Sample.peerB Sample.peerC Sample.peerD eq_refl eq_refl);
      reflexivity.
Defined.

(** C4, as stated, fails: the contract query succeeds and nobody calls
    [stop()], but the merge of the second of three entries is rejected, and
    the third entry is never processed. *)
Lemma merge_failure_cuts_loop :
  getAllPeerIds Sample.envMergeFails = Normal Sample.mockPeerIds
  /\ during Sample.envMergeFails = (fun _ => [])
  /\ peerList (snd (fst (_discoverBootstrapPeers Sample.instance Sample.envMergeFails
                           Sample.armed)))
     = [Sample.peerB; Sample.peerC; Sample.peerD]
  /\ filter (concerns (id Sample.peerD))
        (snd (_discoverBootstrapPeers Sample.instance Sample.envMergeFails Sample.armed))
     = []
  /\ events (snd (_discoverBootstrapPeers Sample.instance Sample.envMergeFails
                    Sample.armed))
     = [PeerEvent Sample.peerB].
Proof. repeat split. Qed.

(** ** Stopping *)

Section Unarmed.

Variable i : EVMBootstrap.
Variable env : Env.
Hypothesis NS : noStart env.

Lemma runCalls_unarmed cs : forall s,
  ~ In CallStart cs -> timer s = None -> timer (fst (runCalls i cs s)) = None.
Proof.
  induction cs as [|c cs IH]; intros s Hn Ht; [exact Ht|]. simpl.
  destruct c; [exfalso; apply Hn; now left|].
  unfold lifecycle. rewrite stop_run.
  specialize (IH (setTimer None (match timer s with
                                 | Some h => setSched (clearTimeout h (sched s)) s
                                 | None => s
                                 end))).
  destruct (runCalls i cs _) as [s2 t2]. apply IH; [|reflexivity].
  intros H. apply Hn. now right.
Qed.

(** Once the timer is unset it stays so through a point, and it is unset
    after a point whose last call is [stop()]. *)
Lemma yield_unarmed pt s :
  timer s = None \/ endsWithStop (during env pt) = true ->
  timer (fst (runCalls i (during env pt) s)) = None.
Proof.
  intros [H|H]; [apply runCalls_unarmed; [apply NS|exact H] | now apply endsWithStop_timer].
Qed.

Lemma resolveStep_unarmed n str s :
  timer s = None
  \/ (exists pid, peerIdFromString env str = Normal pid)
     /\ endsWithStop (during env (PFindPeer n)) = true ->
  timer (fst (resolveStep i env n str s)) = None.
Proof.
  intros H. unfold resolveStep.
  destruct (peerIdFromString env str) as [pid|e].
  - assert (T : timer (fst (runCalls i (during env (PFindPeer n)) s)) = None).
    { apply yield_unarmed. destruct H as [H|[_ H]]; [now left|now right]. }
    destruct (findPeer env n pid); exact T.
  - destruct H as [H|[[pid H] _]]; [exact H|discriminate].
Qed.

Lemma resolveLoop_unarmed peerIds : forall n s,
  timer s = None -> timer (snd (fst (resolveLoop i env n peerIds s))) = None.
Proof.
  induction peerIds as [|str rest IH]; intros n s H; [exact H|].
  rewrite resolveLoop_cons, pre_state. apply IH, resolveStep_unarmed. now left.
Qed.

Lemma resolveLoop_stopped peerIds : forall j n s str pid,
  nth_error peerIds j = Some str ->
  peerIdFromString env str = Normal pid ->
  endsWithStop (during env (PFindPeer (n + j))) = true ->
  timer (snd (fst (resolveLoop i env n peerIds s))) = None.
Proof.
  induction peerIds as [|str0 rest IH]; intros [|j] n s str pid Hj Hp Hs;
    try discriminate; rewrite resolveLoop_cons, pre_state.
  - injection Hj as ->. rewrite Nat.add_0_r in Hs.
    apply resolveLoop_unarmed, resolveStep_unarmed. right. split; [now exists pid|exact Hs].
  - apply (IH j (S n) _ str pid Hj Hp). now rewrite Nat.add_succ_comm.
Qed.

Lemma blind_event : blind isPeerEvent.
Proof. now intros []. Qed.

Lemma blind_open : blind isOpenConnection.
Proof. now intros []. Qed.

(** A tagging loop entered with the timer unset announces and dials
    nothing. *)
Lemma tagLoop_unarmed l n s c s' t :
  timer s = None ->
  tagLoop i env n l s = (c, s', t) ->
  events t = [] /\ opens t = [].
Proof.
  intros Ht E. destruct l as [|p rest].
  - injection E as <- <- <-. now split.
  - assert (Tm : timer (fst (mergeYield i env n s)) = None).
    { apply yield_unarmed. now left. }
    destruct (merge env n p) as [[]|e] eqn:Em.
    + rewrite (tagLoop_returns i env n p rest s Em Tm) in E.
      apply pair_equal_spec in E as [_ <-]. unfold events, opens, mergeYield. simpl.
      now rewrite !filter_app, (filter_yield i _ _ _ blind_event),
                  (filter_yield i _ _ _ blind_open).
    + rewrite (tagLoop_merge_throws i env n p rest s e Em) in E.
      apply pair_equal_spec in E as [_ <-]. unfold events, opens, mergeYield. simpl.
      now rewrite (filter_yield i _ _ _ blind_event), (filter_yield i _ _ _ blind_open).
Qed.

Lemma beforeTagging_unarmed peerIds s :
  getAllPeerIds env = Normal peerIds ->
  stoppedBeforeLoop env ->
  timer (beforeTagging i env peerIds s) = None.
Proof.
  intros E2 H. unfold beforeTagging, queried, peerIdsYield, contractYield, networkYield.
  destruct H as [H|[H|[H|(ids & j & str & pid & E & Hj & Hp & Hs)]]].
  - apply resolveLoop_unarmed. apply yield_unarmed. left.
    apply yield_unarmed. left. apply yield_unarmed. now right.
  - apply resolveLoop_unarmed. apply yield_unarmed. left.
    apply yield_unarmed. now right.
  - apply resolveLoop_unarmed. apply yield_unarmed. now right.
  - assert (ids = peerIds) as -> by congruence.
    now apply (resolveLoop_stopped peerIds j 0 _ str pid).
Qed.

(** When [stop()] is called before the tagging loop and nobody calls
    [start()], the run announces and dials nothing. *)
Lemma discover_stopped s c s' t :
  _discoverBootstrapPeers i env s = (c, s', t) ->
  stoppedBeforeLoop env ->
  events t = [] /\ opens t = [].
Proof.
  intros R H.
  destruct (discover_early i env s) as [(h & n & peerIds & Ht & En & Ec & E1 & E2)|E].
  - destruct (discover_ok i env s h n peerIds Ht En Ec E1 E2)
      as (t0 & C0 & _ & _ & _ & _ & R0).
    destruct (tagLoop i env 0 (peerList (beforeTagging i env peerIds s))
                (beforeTagging i env peerIds s)) as [[c1 s1] t1] eqn:T.
    rewrite (R0 c1 s1 t1 eq_refl) in R.
    apply pair_equal_spec in R as [_ <-].
    destruct (tagLoop_unarmed _ _ _ _ _ _ (beforeTagging_unarmed peerIds s E2 H) T)
      as [Ev Op].
    unfold events, opens in *. rewrite !filter_app, Ev, Op.
    rewrite <- (filter_calls _ t0 callsOnly_event), <- (filter_calls _ t0 callsOnly_open).
    rewrite C0, (filter_queryCalls i env _ _ downstream_event),
            (filter_queryCalls i env _ _ downstream_open).
    now destruct c1.
  - destruct (E c s' t R) as (_ & _ & F).
    split; [apply (F _ downstream_event)|apply (F _ downstream_open)].
Qed.

End Unarmed.

(** C7, as the code has it.  [stop()] is honoured at the guards.  A
    pipeline that finds the timer unset at entry returns at once: it leaves
    the state as it is and issues two trace lines and no call.  In the
    tagging loop, when the guard of an entry finds the timer unset the loop
    returns with nothing done after that entry's merge.  So a run in which
    [stop()] is called before the tagging loop (while the network query, the
    contract query or a lookup is pending) and nobody calls [start()]
    announces and dials nothing; and a run in which [stop()] is the last
    lifecycle call made while the merge of entry [k] is awaited announces and
    dials at most the entries before [k].  Between the guard of an entry and
    the guard of the next nothing looks at the timer. *)
Theorem stop_is_honoured i env s :
  (timer s = None ->
     _discoverBootstrapPeers i env s =
     (Normal tt, s, [Log LTrace [AStr "_discoverBootstrapPeers called"];
                     Log LTrace [AStr "timer is null, returning early"]]))
  /\ (forall n p rest s0,
        merge env n p = Normal tt ->
        timer (fst (mergeYield i env n s0)) = None ->
        exists t1,
          tagLoop i env n (p :: rest) s0 = (Normal Returned, fst (mergeYield i env n s0), t1)
          /\ calls t1 = [mergeCall i p])
  /\ (forall c s' t,
        _discoverBootstrapPeers i env s = (c, s', t) ->
        noStart env ->
        stoppedBeforeLoop env ->
        events t = [] /\ opens t = [])
  /\ (forall k c s' t,
        _discoverBootstrapPeers i env s = (c, s', t) ->
        endsWithStop (during env (PMerge k)) = true ->
        exists j, (j <= k)%nat
                  /\ events t = map PeerEvent (firstn j (peerList s'))
                  /\ opens t = map openCall (firstn j (peerList s'))).
Proof.
  split; [apply discover_unarmed|]. split; [|split].
  - intros n p rest s0 Em Et. eexists. split; [now apply tagLoop_returns|].
    unfold mergeYield. now sift blind_calls.
  - intros c s' t R NS H. exact (discover_stopped i env NS s c s' t R H).
  - intros k c s' t R Hk.
    destruct (discover_early i env s) as [(h & n & peerIds & Ht & En & Ec & E1 & E2)|E].
    + destruct (discover_shape i env s h n peerIds Ht En Ec E1 E2)
        as (s1 & t1 & j & R1 & _ & _ & _ & G & C & _).
      rewrite R1 in R. injection R as <- <- <-.
      destruct (shape_readings i env _ _ _ _ C) as (_ & Re & Ro).
      exists j. split; [|now split].
      destruct (Nat.le_gt_cases j k) as [H|H]; [exact H|].
      destruct (G k H) as (q & _ & _ & Q). simpl in Q. congruence.
    + destruct (E c s' t R) as (_ & _ & F). exists 0%nat. split; [lia|].
      split; [apply (F _ downstream_event)|apply (F _ downstream_open)].
Qed.

Lemma stop_is_honoured_witness :
  endsWithStop (during Sample.envStopMidLoop (PMerge 1)) = true
  /\ (exists j, (j <= 1)%nat
       /\ events (snd (_discoverBootstrapPeers Sample.instance Sample.envStopMidLoop
                         Sample.armed))
          = map PeerEvent (firstn j [Sample.peerB; Sample.peerC; Sample.peerD])
       /\ opens (snd (_discoverBootstrapPeers Sample.instance Sample.envStopMidLoop
                        Sample.armed))
          = map openCall (firstn j [Sample.peerB; Sample.peerC; Sample.peerD]))
  /\ endsWithStop (during Sample.envStopDuringLookup (PFindPeer 1)) = true
  /\ events (snd (_discoverBootstrapPeers Sample.instance Sample.envStopDuringLookup
                    Sample.armed)) = []
  /\ merges (snd (_discoverBootstrapPeers Sample.instance Sample.envStopDuringLookup
                    Sample.armed)) = [mergeCall Sample.instance Sample.peerB].
Proof.
  split; [reflexivity|]. split.
  - destruct (stop_is_honoured Sample.instance Sample.envStopMidLoop Sample.armed)
      as (_ & _ & _ & H).
    destruct (_discoverBootstrapPeers Sample.instance Sample.envStopMidLoop Sample.armed)
      as [[c s'] t] eqn:R.
    destruct (H 1%nat c s' t eq_refl eq_refl) as (j & Hj & He & Ho).
    vm_compute in R. injection R as <- <- <-.
    exists j. split; [exact Hj|]. split; [exact He|exact Ho].
  - split; [reflexivity|]. split; [|reflexivity].
    destruct (stop_is_honoured Sample.instance Sample.envStopDuringLookup Sample.armed)
      as (_ & _ & H & _).
    destruct (_discoverBootstrapPeers Sample.instance Sample.envStopDuringLookup
                Sample.armed) as [[c s'] t] eqn:R.
    apply (H c s' t eq_refl).
    + intros pt HIn. destruct pt as [| | | [|[|m]] | | |]; simpl in HIn;
        try contradiction; destruct HIn as [HIn|[]]; discriminate.
    + right. right. right.
      exists Sample.mockPeerIds, 1%nat, (id Sample.peerC), (id Sample.peerC).
      repeat split.
Defined.

(** C7, as stated, fails: a listener of the ["peer"] event calls [stop()]
    when the first peer is announced, which clears the timer; the pipeline
    then still requests the connection to that peer and still writes the
    second peer to the registry, and only the guard of the second entry
    ends the run. *)
Lemma listener_stop_still_dials :
  during Sample.envStopInListener (PDispatch 0) = [CallStop]
  /\ timer (fst (dispatchYield Sample.instance Sample.envStopInListener 0 Sample.armed))
     = None
  /\ calls (snd (_discoverBootstrapPeers Sample.instance Sample.envStopInListener
                   Sample.armed))
     = queryCalls Sample.instance Sample.envStopInListener Sample.mockPeerIds
       ++ [Merge (id Sample.peerB) "mytag" 42 (Some 60000) (multiaddrs Sample.peerB);
           PeerEvent Sample.peerB;
           OpenConnection (id Sample.peerB);
           Merge (id Sample.peerC) "mytag" 42 (Some 60000) (multiaddrs Sample.peerC)]
  /\ opens (snd (_discoverBootstrapPeers Sample.instance Sample.envStopInListener
                   Sample.armed))
     = [OpenConnection (id Sample.peerB)].
Proof. repeat split. Qed.





(** ** Construction *)

(** C9.  The constructor checks, in this order, the contract address, the
    contract index, the chain id and the provider, and throws for the first
    one that is missing, each with a message of its own; a provider that is
    present but has no [getNetwork] function and is no [request] provider in
    a browser makes it throw a message that starts with "Invalid provider";
    a provider that has [getNetwork] becomes the instance's provider as it
    is.  Whatever the outcome, the constructor makes no call that reaches the
    network. *)
Theorem constructor_validates (w : bool) (o : BootstrapInit) :
  (contractAddress o = None ->
     constructor w o = (Throw (mkError "EVMBootstrap requires a contract address"), []))
  /\ (contractAddress o <> None -> contractIndex o = None ->
       constructor w o = (Throw (mkError "EVMBootstrap requires a contract index"), []))
  /\ (contractAddress o <> None -> contractIndex o <> None -> chainId o = None ->
       constructor w o = (Throw (mkError "EVMBootstrap requires a chain id"), []))
  /\ (contractAddress o <> None -> contractIndex o <> None -> chainId o <> None ->
       ethereum o = None ->
       constructor w o = (Throw (mkError "EVMBootstrap requires an ethereum provider"), []))
  /\ (forall v,
        contractAddress o <> None -> contractIndex o <> None -> chainId o <> None ->
        ethereum o = Some v ->
        hasGetNetworkFunction v = false ->
        w && hasRequestFunction v = false ->
        exists e, constructor w o = (Throw e, [LoggerFor "libp2p:evmbootstrap"])
                  /\ toEthersProvider w (Some v) = Throw e
                  /\ String.prefix "Invalid provider" (message e) = true)
  /\ (forall v,
        contractAddress o <> None -> contractIndex o <> None -> chainId o <> None ->
        ethereum o = Some v ->
        hasGetNetworkFunction v = true ->
        toEthersProvider w (Some v) = Normal v
        /\ exists inst, constructor w o = (Normal inst, [LoggerFor "libp2p:evmbootstrap"])
                        /\ ethereum (_init inst) = Some v)
  /\ filter isNetworkAccess (snd (constructor w o)) = []
  /\ NoDup ["EVMBootstrap requires a contract address";
            "EVMBootstrap requires a contract index";
            "EVMBootstrap requires a chain id";
            "EVMBootstrap requires an ethereum provider";
            "Invalid provider: must be an ethers Provider or EIP-1193 provider"].
Proof.
  unfold constructor, toEthersProvider.
  split; [intros ->; reflexivity|].
  split; [intros H1 ->; destruct (contractAddress o); [reflexivity|contradiction]|].
  split.
  { intros H1 H2 ->. destruct (contractAddress o); [|contradiction].
    destruct (contractIndex o); [reflexivity|contradiction]. }
  split.
  { intros H1 H2 H3 ->. destruct (contractAddress o); [|contradiction].
    destruct (contractIndex o); [|contradiction].
    destruct (chainId o); [reflexivity|contradiction]. }
  split.
  { intros v H1 H2 H3 -> Hg Hr. destruct (contractAddress o); [|contradiction].
    destruct (contractIndex o); [|contradiction].
    destruct (chainId o); [|contradiction].
    rewrite Hg, Hr. eexists. repeat split. }
  split.
  { intros v H1 H2 H3 -> Hg. destruct (contractAddress o); [|contradiction].
    destruct (contractIndex o); [|contradiction].
    destruct (chainId o); [|contradiction].
    rewrite Hg. split; [reflexivity|]. eexists. split; reflexivity. }
  split.
  { destruct (contractAddress o); [|reflexivity].
    destruct (contractIndex o); [|reflexivity].
    destruct (chainId o); [|reflexivity].
    destruct (ethereum o) as [v|]; [|reflexivity].
    destruct (hasGetNetworkFunction v); [reflexivity|].
    destruct (w && hasRequestFunction v); reflexivity. }
  repeat constructor; simpl; intuition discriminate.
Qed.

Lemma constructor_validates_witness :
  constructor false (mkInit None None None None None None None None)
  = (Throw (mkError "EVMBootstrap requires a contract address"), [])
  /\ constructor false (mkInit (Some "0x1234") (Some "0xabcd") None None None None None None)
     = (Throw (mkError "EVMBootstrap requires a chain id"), [])
  /\ (exists e,
        constructor false (mkInit (Some "0x1234") (Some "0xabcd") (Some 1)
                                  (Some (JsObject false true)) None None None None)
        = (Throw e, [LoggerFor "libp2p:evmbootstrap"])
        /\ message e = "Invalid provider: must be an ethers Provider or EIP-1193 provider")
  /\ exists inst,
       constructor false Sample.options = (Normal inst, [LoggerFor "libp2p:evmbootstrap"])
       /\ ethereum (_init inst) = Some (JsObject true true).
Proof.
  split.
  { apply (constructor_validates false (mkInit None None None None None None None None)).
    reflexivity. }
  split.
  { apply (constructor_validates false
             (mkInit (Some "0x1234") (Some "0xabcd") None None None None None None));
      [discriminate|discriminate|reflexivity]. }
  split.
  { destruct (constructor_validates false
                (mkInit (Some "0x1234") (Some "0xabcd") (Some 1)
                        (Some (JsObject false true)) None None None None))
      as (_ & _ & _ & _ & H & _).
    destruct (H (JsObject false true)) as (e & R & T & _);
      [discriminate|discriminate|discriminate|reflexivity|reflexivity|reflexivity|].
    exists e. split; [exact R|]. now injection T as <-. }
  destruct (constructor_validates false Sample.options) as (_ & _ & _ & _ & _ & H & _).
  destruct (H (JsObject true true)) as (_ & inst & R & P);
    [discriminate|discriminate|discriminate|reflexivity|reflexivity|].
  exists inst. now split.
Defined.

(** ** What a run keeps *)

Section Preserved.

Variable i : EVMBootstrap.
Variable env : Env.
Variable P : St -> Prop.
Hypothesis P_yield : forall pt s, P s -> P (fst (runCalls i (during env pt) s)).
Hypothesis P_peer : forall p s, P s -> P (pushPeer p s).
Hypothesis P_dial : forall e s, P s -> P (pushDial e s).

Lemma resolveLoop_preserves peerIds : forall n s,
  P s -> P (snd (fst (resolveLoop i env n peerIds s))).
Proof.
  induction peerIds as [|str rest IH]; intros n s H; [exact H|].
  rewrite resolveLoop_cons, pre_state. apply IH. unfold resolveStep.
  destruct (peerIdFromString env str) as [pid|e]; [|exact H].
  destruct (findPeer env n pid); simpl; [apply P_peer|]; now apply P_yield.
Qed.

Lemma tagLoop_preserves l : forall n s,
  P s -> P (snd (fst (tagLoop i env n l s))).
Proof.
  induction l as [|p rest IH]; intros n s H; [exact H|].
  pose proof (P_yield (PMerge n) s H) as Hm. fold (mergeYield i env n s) in Hm.
  destruct (merge env n p) as [[]|e] eqn:Em.
  - destruct (timer (fst (mergeYield i env n s))) as [h|] eqn:Et.
    + rewrite (tagLoop_passes i env n p rest s h Em Et), pre_state. apply IH.
      unfold afterPass, openYield, dispatchYield. now apply P_dial, P_yield, P_yield.
    + now rewrite (tagLoop_returns i env n p rest s Em Et).
  - now rewrite (tagLoop_merge_throws i env n p rest s e Em).
Qed.

(** A property of the state that lifecycle calls and additions to the list
    and to the dials in flight keep is kept by a run of the pipeline. *)
Lemma discover_preserves s :
  P s -> P (snd (fst (_discoverBootstrapPeers i env s))).
Proof.
  intros H.
  pose proof (P_yield PNetwork s H) as Hn. fold (networkYield i env s) in Hn.
  pose proof (P_yield PContract _ Hn) as Hc.
  fold (contractYield i env (fst (networkYield i env s))) in Hc.
  pose proof (P_yield PPeerIds _ Hc) as Hq.
  fold (peerIdsYield i env (fst (contractYield i env (fst (networkYield i env s))))) in Hq.
  destruct (timer s) as [h|] eqn:Ht; [|now rewrite (discover_unarmed i env s Ht)].
  destruct (getNetwork env) as [n|e] eqn:En;
    [|now rewrite (discover_network_fails i env s h e Ht En)].
  destruct (chainDiffers n (chainId (_init i))) eqn:Ec;
    [now rewrite (discover_wrong_network i env s h n Ht En Ec)|].
  destruct (newContract env) as [[]|e] eqn:E1.
  - destruct (getAllPeerIds env) as [peerIds|e] eqn:E2.
    + destruct (discover_ok i env s h n peerIds Ht En Ec E1 E2)
        as (t0 & _ & _ & _ & _ & _ & R).
      pose proof (resolveLoop_preserves peerIds 0 _ Hq) as Hr.
      fold (queried i env s) in Hr. fold (beforeTagging i env peerIds s) in Hr.
      pose proof (tagLoop_preserves (peerList (beforeTagging i env peerIds s)) 0 _ Hr)
        as Hl.
      destruct (tagLoop i env 0 (peerList (beforeTagging i env peerIds s))
                  (beforeTagging i env peerIds s)) as [[c s'] t1] eqn:T.
      now rewrite (R c s' t1 eq_refl).
    + rewrite (discover_right_network i env s h n Ht En Ec).
      rewrite (tryCatch_thrown _ _ _ _ _ _ (body_query_throws i env _ e E1 E2)).
      unfold emit. now rewrite !pre_result.
  - rewrite (discover_right_network i env s h n Ht En Ec).
    rewrite (tryCatch_thrown _ _ _ _ _ _ (body_contract_throws i env _ e E1)).
    unfold emit. now rewrite !pre_result.
Qed.

End Preserved.

(** While nobody calls [start()] or [stop()], a run leaves the timer handle
    and the host's timers alone. *)
Lemma discover_undisturbed i env s :
  undisturbed env ->
  timer (snd (fst (_discoverBootstrapPeers i env s))) = timer s
  /\ sched (snd (fst (_discoverBootstrapPeers i env s))) = sched s.
Proof.
  intros U.
  apply (discover_preserves i env (fun s' => timer s' = timer s /\ sched s' = sched s)).
  - intros pt s0 H. now rewrite U.
  - intros p s0 H. exact H.
  - intros e s0 H. exact H.
  - now split.
Qed.

(** ** The timer *)

Section Timer.

Variable i : EVMBootstrap.

Lemma discover_executions env s :
  executions (snd (_discoverBootstrapPeers i env s)) = 1%nat.
Proof.
  destruct (discover_early i env s) as [(h & n & peerIds & Ht & En & Ec & E1 & E2)|E].
  - destruct (discover_shape i env s h n peerIds Ht En Ec E1 E2)
      as (s' & t & k & R & _ & X & _). now rewrite R.
  - destruct (_discoverBootstrapPeers i env s) as [[c s'] t] eqn:R.
    now destruct (E c s' t eq_refl) as (_ & X & _).
Qed.

(** The callback never throws and runs the pipeline once. *)
Lemma timerCallback_runs env s :
  fst (fst (timerCallback i env s)) = Normal tt
  /\ executions (snd (timerCallback i env s)) = 1%nat.
Proof.
  unfold timerCallback, tryCatch.
  pose proof (discover_executions env s) as X.
  destruct (_discoverBootstrapPeers i env s) as [[[[]|e] s'] t]; simpl in *.
  - now split.
  - split; [reflexivity|]. now rewrite executions_app, X.
Qed.

Lemma timerCallback_state env s :
  snd (fst (timerCallback i env s)) = snd (fst (_discoverBootstrapPeers i env s)).
Proof.
  unfold timerCallback, tryCatch.
  now destruct (_discoverBootstrapPeers i env s) as [[[[]|e] s'] t].
Qed.

Lemma effectiveDelay_pos t : 1 <= effectiveDelay true t.
Proof.
  unfold effectiveDelay. rewrite andb_true_r.
  destruct (Z.max 0 (if t >? MAX_TIMEOUT then 1 else t) =? 0) eqn:E; [lia|].
  apply Z.eqb_neq in E. lia.
Qed.

Lemma effectiveDelay_plain t :
  0 <= t <= MAX_TIMEOUT -> effectiveDelay false t = t.
Proof.
  intros H. unfold effectiveDelay. rewrite andb_false_r.
  destruct (t >? MAX_TIMEOUT) eqn:E; [apply Z.gtb_lt in E|]; lia.
Qed.




Lemma nextDue_late target c :
  (forall h d, In (h, d) (pending c) -> target < d) -> nextDue target c = None.
Proof.
  intros H. unfold nextDue.
  replace (filter (fun t => snd t <=? target) (pending c)) with (@nil (TimerHandle * Z));
    [reflexivity|].
  symmetry. apply filter_none. intros [h d] Hin. simpl.
  apply Z.leb_gt. now apply (H h).
Qed.


Lemma fireDue_none fuel envs n target s :
  nextDue target (sched s) = None ->
  fireDue fuel i envs n target s = (Normal tt, s, []).
Proof. intros H. destruct fuel; [reflexivity|]. cbn [fireDue]. run. now rewrite H. Qed.

Lemma fireDue_step fuel envs n target s h d :
  nextDue target (sched s) = Some (h, d) ->
  fireDue (S fuel) i envs n target s
  = pre (snd (timerCallback i (envs n) (setSched (fired h d (sched s)) s)))
        (fireDue fuel i envs (S n) target
           (snd (fst (timerCallback i (envs n) (setSched (fired h d (sched s)) s))))).
Proof.
  intros H. cbn [fireDue]. run. rewrite H. run.
  destruct (timerCallback_runs (envs n) (setSched (fired h d (sched s)) s)) as [N _].
  destruct (timerCallback i (envs n) (setSched (fired h d (sched s)) s))
    as [[c s1] t1] eqn:TC. simpl in N. subst c.
  erewrite bind_result; [|exact TC]. reflexivity.
Qed.

Lemma fireDue_normal envs target : forall fuel n s,
  fst (fst (fireDue fuel i envs n target s)) = Normal tt.
Proof.
  induction fuel as [|fuel IH]; intros n s; [reflexivity|].
  destruct (nextDue target (sched s)) as [[h d]|] eqn:E.
  - rewrite (fireDue_step fuel envs n target s h d E).
    specialize (IH (S n) (snd (fst (timerCallback i (envs n)
                                      (setSched (fired h d (sched s)) s))))).
    destruct (fireDue fuel i envs (S n) target _) as [[c s'] t]. exact IH.
  - now rewrite fireDue_none.
Qed.

(** What the firings keep. *)
Lemma fireDue_preserves (P : St -> Prop) envs target :
  (forall h d s, P s -> P (setSched (fired h d (sched s)) s)) ->
  (forall env s, P s -> P (snd (fst (timerCallback i env s)))) ->
  forall fuel n s, P s -> P (snd (fst (fireDue fuel i envs n target s))).
Proof.
  intros Hf Hc. induction fuel as [|fuel IH]; intros n s H; [exact H|].
  destruct (nextDue target (sched s)) as [[h d]|] eqn:E.
  - rewrite (fireDue_step fuel envs n target s h d E), pre_state.
    now apply IH, Hc, Hf.
  - now rewrite fireDue_none.
Qed.

Lemma tick_run envs ms s :
  0 <= ms ->
  tick i envs ms s
  = (Normal tt,
     advanced (now (sched s) + ms)
       (snd (fst (fireDue (List.length (pending (sched s)) + S (Z.to_nat ms)) i envs 0
                    (now (sched s) + ms) (setSched (setTicking true (sched s)) s)))),
     snd (fireDue (List.length (pending (sched s)) + S (Z.to_nat ms)) i envs 0
            (now (sched s) + ms) (setSched (setTicking true (sched s)) s))).
Proof.
  intros H. unfold tick. apply Z.ltb_ge in H. rewrite H. run. cbv beta zeta. run.
  pose proof (fireDue_normal envs (now (sched s) + ms)
                (List.length (pending (sched s)) + S (Z.to_nat ms)) 0%nat
                (setSched (setTicking true (sched s)) s)) as N.
  destruct (fireDue _ i envs 0 _ _) as [[c s1] t1] eqn:F. simpl in N. subst c.
  erewrite bind_result; [|exact F]. unfold modify. rewrite pre_result.
  simpl. now rewrite app_nil_r.
Qed.

Lemma tick_negative envs ms s :
  ms < 0 -> tick i envs ms s = (Throw (mkError "Negative ticks are not supported"), s, []).
Proof. intros H. unfold tick. apply Z.ltb_lt in H. now rewrite H. Qed.

Lemma tick_quiet envs ms s :
  0 <= ms ->
  filter (fun t => snd t <=? now (sched s) + ms) (pending (sched s)) = [] ->
  tick i envs ms s = (Normal tt, later ms s, []).
Proof.
  intros Hm H. rewrite (tick_run envs ms s Hm), fireDue_none; [reflexivity|].
  unfold nextDue. simpl. now rewrite H.
Qed.

(** No pipeline runs while no timer is pending. *)
Lemma tick_idle envs ms s :
  pending (sched s) = [] -> snd (tick i envs ms s) = [].
Proof.
  intros H. destruct (Z.lt_ge_cases ms 0) as [N|N].
  - now rewrite tick_negative.
  - rewrite tick_quiet; [reflexivity|exact N|now rewrite H].
Qed.

Lemma start_idle s :
  timer s = None -> start i s = (Normal tt, armedFrom i s, [startLog i]).
Proof. intros H. rewrite start_run. unfold isStarted. now rewrite H. Qed.

Lemma stop_clears s :
  ownTimers s -> pending (sched (snd (fst (stop s)))) = [].
Proof.
  intros H. rewrite stop_run. simpl. destruct (timer s) as [h|] eqn:Ht; simpl.
  - apply filter_none. intros [h' d] Hin. apply H in Hin. rewrite Ht in Hin.
    injection Hin as ->. simpl. now rewrite Pos.eqb_refl.
  - destruct (pending (sched s)) as [|[h d] l] eqn:Hp; [reflexivity|].
    specialize (H h d). rewrite Hp, Ht in H. discriminate H. now left.
Qed.

End Timer.

(** ** The pending timers are the instance's own

    [ownTimers] holds of a fresh instance and is kept by everything that
    happens to an instance: lifecycle calls, a run of the pipeline, the
    passing of time. *)

Section OwnTimers.

Variable i : EVMBootstrap.

Lemma ownTimers_fresh c : pending c = [] -> ownTimers (freshState c).
Proof. intros H h d Hin. simpl in Hin. rewrite H in Hin. destruct Hin. Qed.

Lemma ownTimers_idle s : ownTimers s -> timer s = None -> pending (sched s) = [].
Proof.
  intros H Ht. destruct (pending (sched s)) as [|[h d] l] eqn:Hp; [reflexivity|].
  specialize (H h d). rewrite Hp, Ht in H. discriminate H. now left.
Qed.

Lemma ownTimers_lifecycle c s : ownTimers s -> ownTimers (fst (lifecycle i c s)).
Proof.
  intros H. destruct c; unfold lifecycle.
  - rewrite start_run. unfold isStarted. destruct (timer s) as [h|] eqn:Ht; [exact H|].
    intros h d Hin. simpl in Hin. rewrite (ownTimers_idle s H Ht) in Hin.
    destruct Hin as [[= <- _]|[]]. reflexivity.
  - rewrite stop_run. intros h d Hin. exfalso.
    pose proof (stop_clears s H) as Hp. rewrite stop_run in Hp. cbn [fst snd] in *.
    rewrite Hp in Hin. destruct Hin.
Qed.

Lemma ownTimers_runCalls cs : forall s,
  ownTimers s -> ownTimers (fst (runCalls i cs s)).
Proof.
  induction cs as [|c cs IH]; intros s H; [exact H|]. simpl.
  pose proof (ownTimers_lifecycle c s H) as H1.
  destruct (lifecycle i c s) as [s1 t1]. specialize (IH s1 H1).
  now destruct (runCalls i cs s1) as [s2 t2].
Qed.

Variable env : Env.

Lemma ownTimers_resolveLoop peerIds : forall n s,
  ownTimers s -> ownTimers (snd (fst (resolveLoop i env n peerIds s))).
Proof.
  induction peerIds as [|str rest IH]; intros n s H; [exact H|].
  rewrite resolveLoop_cons.
  assert (H1 : ownTimers (fst (resolveStep i env n str s))).
  { unfold resolveStep. destruct (peerIdFromString env str) as [pid|e]; [|exact H].
    pose proof (ownTimers_runCalls (during env (PFindPeer n)) s H) as Hy.
    destruct (findPeer env n pid); exact Hy. }
  specialize (IH (S n) _ H1).
  now destruct (resolveLoop i env (S n) rest (fst (resolveStep i env n str s)))
    as [[c s'] t].
Qed.

Lemma ownTimers_tagLoop l : forall n s,
  ownTimers s -> ownTimers (snd (fst (tagLoop i env n l s))).
Proof.
  induction l as [|p rest IH]; intros n s H; [exact H|].
  pose proof (ownTimers_runCalls (during env (PMerge n)) s H) as Hm.
  fold (mergeYield i env n s) in Hm.
  destruct (merge env n p) as [[]|e] eqn:Em.
  - destruct (timer (fst (mergeYield i env n s))) as [h|] eqn:Et.
    + rewrite (tagLoop_passes i env n p rest s h Em Et).
      assert (H1 : ownTimers (afterPass i env n p (fst (mergeYield i env n s)))).
      { unfold afterPass, openYield, dispatchYield.
        apply (ownTimers_runCalls (during env (POpen n))).
        now apply (ownTimers_runCalls (during env (PDispatch n))). }
      specialize (IH (S n) _ H1).
      now destruct (tagLoop i env (S n) rest
                      (afterPass i env n p (fst (mergeYield i env n s))))
        as [[c s'] t].
    + now rewrite (tagLoop_returns i env n p rest s Em Et).
  - now rewrite (tagLoop_merge_throws i env n p rest s e Em).
Qed.

Lemma ownTimers_discover s :
  ownTimers s -> ownTimers (snd (fst (_discoverBootstrapPeers i env s))).
Proof.
  intros H.
  pose proof (ownTimers_runCalls (during env PNetwork) s H) as Hn.
  fold (networkYield i env s) in Hn.
  pose proof (ownTimers_runCalls (during env PContract) _ Hn) as Hc.
  fold (contractYield i env (fst (networkYield i env s))) in Hc.
  pose proof (ownTimers_runCalls (during env PPeerIds) _ Hc) as Hq.
  fold (peerIdsYield i env (fst (contractYield i env (fst (networkYield i env s))))) in Hq.
  destruct (timer s) as [h|] eqn:Ht; [|now rewrite (discover_unarmed i env s Ht)].
  destruct (getNetwork env) as [n|e] eqn:En;
    [|now rewrite (discover_network_fails i env s h e Ht En)].
  destruct (chainDiffers n (chainId (_init i))) eqn:Ec;
    [now rewrite (discover_wrong_network i env s h n Ht En Ec)|].
  destruct (newContract env) as [[]|e] eqn:E1.
  - destruct (getAllPeerIds env) as [peerIds|e] eqn:E2.
    + destruct (discover_ok i env s h n peerIds Ht En Ec E1 E2) as (t0 & _ & _ & _ & _ & _ & R).
      pose proof (ownTimers_resolveLoop peerIds 0 _ Hq) as Hr.
      fold (queried i env s) in Hr. fold (beforeTagging i env peerIds s) in Hr.
      pose proof (ownTimers_tagLoop (peerList (beforeTagging i env peerIds s)) 0 _ Hr) as Hl.
      destruct (tagLoop i env 0 (peerList (beforeTagging i env peerIds s))
                  (beforeTagging i env peerIds s)) as [[c s'] t1] eqn:T.
      now rewrite (R c s' t1 eq_refl).
    + rewrite (discover_right_network i env s h n Ht En Ec).
      rewrite (tryCatch_thrown _ _ _ _ _ _ (body_query_throws i env _ e E1 E2)).
      unfold emit. now rewrite !pre_result.
  - rewrite (discover_right_network i env s h n Ht En Ec).
    rewrite (tryCatch_thrown _ _ _ _ _ _ (body_contract_throws i env _ e E1)).
    unfold emit. now rewrite !pre_result.
Qed.

Lemma ownTimers_timerCallback s :
  ownTimers s -> ownTimers (snd (fst (timerCallback i env s))).
Proof.
  intros H. apply ownTimers_discover in H. unfold timerCallback, tryCatch.
  now destruct (_discoverBootstrapPeers i env s) as [[[[]|e] s'] t].
Qed.

End OwnTimers.

Lemma ownTimers_tick i envs ms s :
  ownTimers s -> ownTimers (snd (fst (tick i envs ms s))).
Proof.
  intros H. destruct (Z.lt_ge_cases ms 0) as [N|N]; [now rewrite tick_negative|].
  rewrite (tick_run i envs ms s N). cbn [fst snd].
  assert (K : ownTimers (snd (fst (fireDue (List.length (pending (sched s)) + S (Z.to_nat ms))
                                     i envs 0 (now (sched s) + ms)
                                     (setSched (setTicking true (sched s)) s))))).
  { apply (fireDue_preserves i ownTimers).
    - intros h d s0 H0 h' d' Hin. simpl in Hin. apply filter_In in Hin as [Hin _].
      now apply H0 in Hin.
    - intros env s0. apply ownTimers_timerCallback.
    - exact H. }
  exact K.
Qed.

(** ** A timer armed while the clock advances *)

Section Rearm.

Variable i : EVMBootstrap.

Lemma insertDue_In t l : forall u, In u (insertDue t l) -> u = t \/ In u l.
Proof.
  induction l as [|v l IH]; intros u H; simpl in H.
  - destruct H as [<-|[]]. now left.
  - destruct (snd v <=? snd t).
    + destruct H as [<-|H]; [right; now left|].
      destruct (IH u H) as [->|K]; [now left|right; now right].
    + destruct H as [<-|H]; [now left|now right].
Qed.

Lemma rearmedAt_lifecycle c call s :
  rearmedAt i c s -> rearmedAt i c (fst (lifecycle i call s)).
Proof.
  intros (T & N & H). destruct call; unfold lifecycle.
  - rewrite start_run. destruct (isStarted s); [now repeat split|].
    split; [exact T|]. split; [exact N|]. intros h d Hin. simpl in Hin.
    apply insertDue_In in Hin as [[= -> ->]|Hin]; [|now apply (H h)].
    now rewrite T, N.
  - rewrite stop_run. cbn [fst]. destruct (timer s) as [h0|]; simpl.
    + split; [exact T|]. split; [exact N|]. intros h d Hin.
      apply filter_In in Hin as [Hin _]. now apply (H h).
    + now repeat split.
Qed.

Lemma rearmedAt_runCalls c cs : forall s,
  rearmedAt i c s -> rearmedAt i c (fst (runCalls i cs s)).
Proof.
  induction cs as [|call cs IH]; intros s H; [exact H|]. simpl.
  pose proof (rearmedAt_lifecycle c call s H) as H1.
  destruct (lifecycle i call s) as [s1 t1]. specialize (IH s1 H1).
  now destruct (runCalls i cs s1) as [s2 t2].
Qed.

(** After the callback of a timer that fired while no other was pending,
    whatever is pending was armed by [start] during the callback. *)
Lemma callback_rearms env s :
  ticking (sched s) = true -> pending (sched s) = [] ->
  rearmedAt i (now (sched s)) (snd (fst (timerCallback i env s))).
Proof.
  intros T P. rewrite timerCallback_state.
  apply (discover_preserves i env (rearmedAt i (now (sched s)))).
  - intros pt s0. apply rearmedAt_runCalls.
  - intros p s0 H. exact H.
  - intros d s0 H. exact H.
  - split; [exact T|]. split; [reflexivity|]. intros h d Hin. rewrite P in Hin.
    destruct Hin.
Qed.

(** The advance in which the one pending timer fires and nothing is due
    after its callback. *)
Lemma tick_fires envs ms s h due :
  pending (sched s) = [(h, due)] ->
  0 <= ms ->
  due <= now (sched s) + ms ->
  nextDue (now (sched s) + ms)
    (sched (snd (fst (timerCallback i (envs 0%nat)
                        (setSched (fired h due (setTicking true (sched s))) s))))) = None ->
  tick i envs ms s
  = (Normal tt,
     advanced (now (sched s) + ms)
       (snd (fst (timerCallback i (envs 0%nat)
                    (setSched (fired h due (setTicking true (sched s))) s)))),
     snd (timerCallback i (envs 0%nat)
            (setSched (fired h due (setTicking true (sched s))) s))).
Proof.
  intros Hp Hm Hd Hn. rewrite (tick_run i envs ms s Hm), Hp.
  change (List.length [(h, due)] + S (Z.to_nat ms))%nat with (S (S (Z.to_nat ms))).
  set (s0 := setSched (setTicking true (sched s)) s).
  assert (E : nextDue (now (sched s) + ms) (sched s0) = Some (h, due)).
  { unfold nextDue, s0. simpl. rewrite Hp. simpl. apply Z.leb_le in Hd.
    now rewrite Hd. }
  rewrite (fireDue_step i _ envs 0 _ s0 h due E).
  assert (F : setSched (fired h due (sched s0)) s0
              = setSched (fired h due (setTicking true (sched s))) s) by reflexivity.
  rewrite F, fireDue_none; [|exact Hn].
  rewrite pre_result. cbn [fst snd]. now rewrite app_nil_r.
Qed.

(** The same when a timer armed by the callback falls due after the
    advance. *)
Lemma tick_fires_once envs ms s h due :
  pending (sched s) = [(h, due)] ->
  0 <= ms ->
  due <= now (sched s) + ms ->
  now (sched s) + ms < Z.max (now (sched s)) due + effectiveDelay true (this_timeout i) ->
  tick i envs ms s
  = (Normal tt,
     advanced (now (sched s) + ms)
       (snd (fst (timerCallback i (envs 0%nat)
                    (setSched (fired h due (setTicking true (sched s))) s)))),
     snd (timerCallback i (envs 0%nat)
            (setSched (fired h due (setTicking true (sched s))) s))).
Proof.
  intros Hp Hm Hd Hl. apply tick_fires; auto.
  set (sf := setSched (fired h due (setTicking true (sched s))) s).
  destruct (callback_rearms (envs 0%nat) sf) as (_ & N & R).
  { reflexivity. }
  { unfold sf. simpl. rewrite Hp. simpl. now rewrite Pos.eqb_refl. }
  apply nextDue_late. intros h' d' Hin. rewrite (R h' d' Hin).
  unfold sf. simpl. exact Hl.
Qed.

End Rearm.

(** What [start] arms on an idle instance outside an advance of the clock,
    for a delay that the host takes as it is. *)
Lemma armedFrom_pending i s :
  pending (sched s) = [] -> ticking (sched s) = false ->
  0 <= this_timeout i <= MAX_TIMEOUT ->
  pending (sched (armedFrom i s))
  = [(nextId (sched s), now (sched s) + this_timeout i)].
Proof.
  intros Hp Hk Ht. simpl. now rewrite Hp, Hk, effectiveDelay_plain.
Qed.

(** The advance in which the timer armed by [start] fires. *)
Lemma armed_tick_runs i envs ms s h :
  pending (sched s) = [(h, now (sched s) + ms)] ->
  0 <= ms ->
  exists s' t,
    tick i envs ms s = (Normal tt, s', t) /\ executions t = 1%nat.
Proof.
  intros Hp Hm.
  rewrite (tick_fires_once i envs ms s h (now (sched s) + ms) Hp Hm).
  - eexists. eexists. split; [reflexivity|]. apply timerCallback_runs.
  - lia.
  - pose proof (effectiveDelay_pos (this_timeout i)). lia.
Qed.

(** The same for any timer that is due, when nobody calls [start()] or
    [stop()] during the run. *)
Lemma calm_tick_runs i envs ms s h due :
  pending (sched s) = [(h, due)] ->
  0 <= ms -> due <= now (sched s) + ms ->
  undisturbed (envs 0%nat) ->
  exists s' t,
    tick i envs ms s = (Normal tt, s', t) /\ executions t = 1%nat.
Proof.
  intros Hp Hm Hd U.
  rewrite (tick_fires i envs ms s h due Hp Hm Hd).
  - eexists. eexists. split; [reflexivity|]. apply timerCallback_runs.
  - rewrite timerCallback_state.
    rewrite (proj2 (discover_undisturbed i (envs 0%nat) _ U)).
    unfold nextDue. simpl. rewrite Hp. simpl. now rewrite Pos.eqb_refl.
Qed.

Lemma effectiveDelay_le t :
  0 <= t -> 0 <= effectiveDelay false t <= t.
Proof.
  intros H. unfold effectiveDelay. rewrite andb_false_r.
  destruct (t >? MAX_TIMEOUT) eqn:E; [apply Z.gtb_lt in E|];
    unfold MAX_TIMEOUT in *; lia.
Qed.

(** A delay above 2^31-1 is not waited for: the timer fires after one
    millisecond. *)
Lemma long_delay_fires_early :
  executions
    (snd ((start Sample.patient ;; tick Sample.patient (fun _ => Sample.env) 4999)
            Sample.fresh)) = 1%nat.
Proof. vm_compute. reflexivity. Qed.

(** C5.  After [start()] the instance reports that it is started.  A call of
    [start()] on a started instance does nothing at all: same timer, same
    pending timers, no log line.  Hence, from an idle instance and for a
    calling [start()] twice and advancing the clock by the delay runs the
    pipeline exactly once: for every delay when nothing is called on the
    instance during the run, and whatever is called during the run for a
    delay that the host's timers take as it is (at most 2^31-1 ms).  For
    such a delay no run happens before the delay has passed, and a second
    [start()] made part of the way through it does not postpone the run. *)
Theorem start_idempotent i s :
  isStarted (snd (fst (start i s))) = true
  /\ (isStarted s = true -> start i s = (Normal tt, s, []))
  /\ snd (fst (start i (snd (fst (start i s))))) = snd (fst (start i s))
  /\ (timer s = None -> pending (sched s) = [] -> ticking (sched s) = false ->
      0 <= this_timeout i ->
      forall envs,
        undisturbed (envs 0%nat) \/ this_timeout i <= MAX_TIMEOUT ->
        executions (snd ((start i ;; start i ;; tick i envs (this_timeout i)) s)) = 1%nat)
  /\ (timer s = None -> pending (sched s) = [] -> ticking (sched s) = false ->
      this_timeout i <= MAX_TIMEOUT ->
      forall envs envs' d,
        0 <= d < this_timeout i ->
        executions (snd ((start i ;; tick i envs d) s)) = 0%nat
        /\ executions
             (snd ((start i ;; tick i envs d ;; start i
                    ;; tick i envs' (this_timeout i - d)) s)) = 1%nat).
Proof.
  assert (S1 : isStarted (snd (fst (start i s))) = true).
  { rewrite start_run. destruct (isStarted s) eqn:H; [exact H|reflexivity]. }
  split; [exact S1|]. split; [apply start_started|]. split.
  { now rewrite (start_started i _ S1). }
  assert (A : isStarted (armedFrom i s) = true) by reflexivity.
  split.
  - intros Ht Hp Hk Hpos envs Hc.
    erewrite bind_result; [|now apply start_idle].
    erewrite bind_result; [|now apply start_started].
    rewrite pre_nil.
    assert (T : exists s' t,
              tick i envs (this_timeout i) (armedFrom i s) = (Normal tt, s', t)
              /\ executions t = 1%nat).
    { destruct Hc as [U|Hb].
      - apply (calm_tick_runs i envs _ _ (nextId (sched s))
                 (now (sched s) + effectiveDelay false (this_timeout i))); auto.
        + simpl. now rewrite Hp, Hk.
        + pose proof (effectiveDelay_le (this_timeout i) Hpos). simpl. lia.
      - apply (armed_tick_runs i envs _ _ (nextId (sched s))); auto.
        rewrite armedFrom_pending; auto. }
    destruct T as (s' & t & T & X).
    rewrite T, pre_result. cbn [snd].
    change (startLog i :: t) with ([startLog i] ++ t). now rewrite executions_app, X.
  - intros Ht Hp Hk Hb envs envs' d Hd.
    assert (P : pending (sched (armedFrom i s))
                = [(nextId (sched s), now (sched s) + this_timeout i)]).
    { apply armedFrom_pending; auto. lia. }
    assert (Q : tick i envs d (armedFrom i s)
                = (Normal tt, later d (armedFrom i s), [])).
    { apply tick_quiet; [lia|]. rewrite P. simpl.
      destruct (_ <=? _) eqn:E; [|reflexivity]. apply Z.leb_le in E. lia. }
    split.
    + erewrite bind_result; [|now apply start_idle]. now rewrite Q.
    + erewrite bind_result; [|now apply start_idle].
      erewrite bind_result; [|exact Q].
      erewrite bind_result; [|now apply start_started].
      rewrite !pre_nil.
      destruct (armed_tick_runs i envs' (this_timeout i - d) (later d (armedFrom i s))
                  (nextId (sched s))) as (s' & t & T & X).
      { simpl pending. simpl in P. rewrite P. f_equal. f_equal. simpl. lia. }
      { lia. }
      rewrite T, pre_result. cbn [snd].
      change (startLog i :: t) with ([startLog i] ++ t). now rewrite executions_app, X.
Qed.

Lemma start_idempotent_witness :
  timer Sample.fresh = None
  /\ pending (sched Sample.fresh) = []
  /\ ticking (sched Sample.fresh) = false
  /\ 0 <= this_timeout Sample.delayed <= MAX_TIMEOUT
  /\ executions
       (snd ((start Sample.delayed ;; start Sample.delayed
              ;; tick Sample.delayed (fun _ => Sample.envRestartDuringLookup) 5000)
               Sample.fresh)) = 1%nat.
Proof.
  split; [reflexivity|]. split; [reflexivity|]. split; [reflexivity|].
  split; [split; discriminate|].
  destruct (start_idempotent Sample.delayed Sample.fresh) as (_ & _ & _ & H & _).
  apply (H eq_refl eq_refl eq_refl); [discriminate|]. right. discriminate.
Defined.



(** * Further properties of the code *)

(** ** Provider normalisation and construction *)

(** X1.  What [toEthersProvider] returns always has a [getNetwork] function,
    and it is either the input itself or, in a browser only, the input
    wrapped because it has [request] and no [getNetwork]; normalising the
    result again, on any host, returns it unchanged. *)
Theorem toEthersProvider_normalises w input p :
  toEthersProvider w input = Normal p ->
  hasGetNetworkFunction p = true
  /\ (forall w', toEthersProvider w' (Some p) = Normal p)
  /\ exists v, input = Some v
               /\ ((p = v /\ hasGetNetworkFunction v = true)
                   \/ (p = BrowserProvider v /\ w = true
                       /\ hasRequestFunction v = true
                       /\ hasGetNetworkFunction v = false)).
Proof.
  unfold toEthersProvider. destruct input as [v|]; [|discriminate].
  destruct (hasGetNetworkFunction v) eqn:Hg.
  - intros [= <-]. split; [exact Hg|]. split.
    + intros w'. now rewrite Hg.
    + exists v. split; [reflexivity|]. now left.
  - destruct w; simpl; [|discriminate].
    destruct (hasRequestFunction v) eqn:Hr; [|discriminate].
    intros [= <-]. split; [reflexivity|]. split; [reflexivity|].
    exists v. split; [reflexivity|]. right. now repeat split.
Qed.

Lemma toEthersProvider_normalises_witness :
  toEthersProvider true (Some Sample.wallet) = Normal (BrowserProvider Sample.wallet)
  /\ hasGetNetworkFunction (BrowserProvider Sample.wallet) = true
  /\ toEthersProvider false (Some (BrowserProvider Sample.wallet))
     = Normal (BrowserProvider Sample.wallet).
Proof.
  split; [reflexivity|].
  destruct (toEthersProvider_normalises true (Some Sample.wallet)
              (BrowserProvider Sample.wallet) eq_refl) as (G & I & _).
  split; [exact G|apply I].
Defined.

(** X2.  Construction succeeds exactly when the contract address, the
    contract index and the chain id are present and the provider is one that
    [toEthersProvider] accepts on this host.  The instance then has the delay
    given or 1000, the three required fields and the tag options as given,
    and a provider with a [getNetwork] function. *)
Theorem constructor_succeeds w o :
  ((exists inst, fst (constructor w o) = Normal inst)
   <-> contractAddress o <> None /\ contractIndex o <> None /\ chainId o <> None
       /\ exists v, ethereum o = Some v
                    /\ (hasGetNetworkFunction v = true
                        \/ (w = true /\ hasRequestFunction v = true)))
  /\ forall inst,
       fst (constructor w o) = Normal inst ->
       this_timeout inst = orDefault (timeout o) DEFAULT_BOOTSTRAP_DISCOVERY_TIMEOUT
       /\ contractAddress (_init inst) = contractAddress o
       /\ contractIndex (_init inst) = contractIndex o
       /\ chainId (_init inst) = chainId o
       /\ chainId (_init inst) <> None
       /\ tagName (_init inst) = tagName o
       /\ tagValue (_init inst) = tagValue o
       /\ tagTTL (_init inst) = tagTTL o
       /\ (exists p, ethereum (_init inst) = Some p
                     /\ toEthersProvider w (ethereum o) = Normal p
                     /\ hasGetNetworkFunction p = true).
Proof.
  unfold constructor, toEthersProvider.
  destruct (contractAddress o) as [a|];
    [|split; [split; [intros [x H]; discriminate|intros [H _]; contradiction]
             |intros x H; discriminate]].
  destruct (contractIndex o) as [b|];
    [|split; [split; [intros [x H]; discriminate|intros (_ & H & _); contradiction]
             |intros x H; discriminate]].
  destruct (chainId o) as [c|];
    [|split; [split; [intros [x H]; discriminate|intros (_ & _ & H & _); contradiction]
             |intros x H; discriminate]].
  destruct (ethereum o) as [v|];
    [|split; [split; [intros [x H]; discriminate
                     |intros (_ & _ & _ & x & H & _); discriminate]
             |intros x H; discriminate]].
  destruct (hasGetNetworkFunction v) eqn:Hg.
  - split.
    + split; [|intros _; eexists; reflexivity].
      intros _. repeat split; try discriminate. exists v. split; [reflexivity|now left].
    + intros inst [= <-]. simpl. repeat split; try discriminate. now exists v.
  - destruct w; simpl.
    + destruct (hasRequestFunction v) eqn:Hr; simpl.
      * split.
        -- split; [|intros _; eexists; reflexivity].
           intros _. repeat split; try discriminate. exists v.
           split; [reflexivity|]. right. now split.
        -- intros inst [= <-]. simpl. repeat split; try discriminate.
           now exists (BrowserProvider v).
      * split; [|intros x H; discriminate].
        split; [intros [x H]; discriminate|].
        intros (_ & _ & _ & v' & [= <-] & [H|[_ H]]); congruence.
    + split; [|intros x H; discriminate].
      split; [intros [x H]; discriminate|].
      intros (_ & _ & _ & v' & [= <-] & [H|[H _]]); congruence.
Qed.

Lemma constructor_succeeds_witness :
  (exists inst,
     fst (constructor true
            (mkInit (Some "0x1234") (Some "0xabcd") (Some 1) (Some Sample.wallet)
                    None None None None)) = Normal inst
     /\ this_timeout inst = 1000
     /\ ethereum (_init inst) = Some (BrowserProvider Sample.wallet))
  /\ ~ (exists inst,
          fst (constructor false
                 (mkInit (Some "0x1234") (Some "0xabcd") (Some 1) (Some Sample.wallet)
                         None None None None)) = Normal inst).
Proof.
  split.
  - eexists. split; [reflexivity|].
    destruct (constructor_succeeds true
                (mkInit (Some "0x1234") (Some "0xabcd") (Some 1) (Some Sample.wallet)
                        None None None None)) as [_ H].
    destruct (H _ eq_refl) as (T & _ & _ & _ & _ & _ & _ & _ & p & E & N & _).
    split; [exact T|]. rewrite E. now injection N as <-.
  - intros H.
    apply (constructor_succeeds false
             (mkInit (Some "0x1234") (Some "0xabcd") (Some 1) (Some Sample.wallet)
                     None None None None)) in H.
    destruct H as (_ & _ & _ & v & [= <-] & [H|[H _]]); discriminate.
Defined.

(** ** The timer callback *)

(** X3.  The callback that [start] arms never throws: it leaves the state
    that the pipeline leaves, and its effects are those of the pipeline
    followed, when the pipeline threw, by one error line with what was
    thrown.  So on the wrong chain it ends with two error lines, the
    pipeline's own and this one; when the network query fails it ends with
    the failure; on the right chain it adds nothing. *)
Theorem callback_catches i env s :
  fst (fst (timerCallback i env s)) = Normal tt
  /\ snd (fst (timerCallback i env s)) = snd (fst (_discoverBootstrapPeers i env s))
  /\ snd (timerCallback i env s)
     = snd (_discoverBootstrapPeers i env s)
       ++ callbackLog (fst (fst (_discoverBootstrapPeers i env s)))
  /\ (forall h n,
        timer s = Some h -> getNetwork env = Normal n ->
        Some n <> chainId (_init i) ->
        exists t0,
          snd (timerCallback i env s)
          = t0 ++ [Log LError [AStr (wrongChainLog n (chainId (_init i)))];
                   Log LError [AErr (wrongNetworkError n (chainId (_init i)))]]
          /\ calls t0 = [GetNetwork])
  /\ (forall h e,
        timer s = Some h -> getNetwork env = Throw e ->
        exists t0, snd (timerCallback i env s) = t0 ++ [Log LError [AErr e]]
                   /\ calls t0 = [GetNetwork])
  /\ (forall h n,
        timer s = Some h -> getNetwork env = Normal n ->
        Some n = chainId (_init i) ->
        timerCallback i env s = _discoverBootstrapPeers i env s).
Proof.
  assert (G : timerCallback i env s
              = (Normal tt, snd (fst (_discoverBootstrapPeers i env s)),
                 snd (_discoverBootstrapPeers i env s)
                 ++ callbackLog (fst (fst (_discoverBootstrapPeers i env s))))).
  { unfold timerCallback, tryCatch.
    destruct (_discoverBootstrapPeers i env s) as [[[[]|e] s'] t]; simpl.
    - now rewrite app_nil_r.
    - reflexivity. }
  rewrite G. cbn [fst snd].
  split; [reflexivity|]. split; [reflexivity|]. split; [reflexivity|]. split; [|split].
  - intros h n Ht En Hd. apply chainDiffers_spec in Hd.
    rewrite (discover_wrong_network i env s h n Ht En Hd). cbn [fst snd callbackLog].
    exists (networkTrace i env s). rewrite <- app_assoc. split; [reflexivity|].
    apply networkTrace_calls.
  - intros h e Ht En. rewrite (discover_network_fails i env s h e Ht En).
    cbn [fst snd callbackLog]. exists (networkTrace i env s).
    split; [reflexivity|apply networkTrace_calls].
  - intros h n Ht En Hc.
    assert (Ec : chainDiffers n (chainId (_init i)) = false).
    { destruct (chainDiffers n (chainId (_init i))) eqn:E; [|reflexivity].
      apply chainDiffers_spec in E. congruence. }
    pose proof (right_network_returns i env s h n Ht En Ec) as N.
    destruct (_discoverBootstrapPeers i env s) as [[c s'] t]. simpl in N. subst c.
    simpl. now rewrite app_nil_r.
Qed.

Lemma callback_catches_witness :
  timer Sample.armed = Some 1%positive
  /\ getNetwork Sample.envWrongChain = Normal 99
  /\ Some 99 <> chainId (_init Sample.instance)
  /\ exists t0,
       timerCallback Sample.instance Sample.envWrongChain Sample.armed
       = (Normal tt, Sample.armed,
          t0 ++ [Log LError [AStr "Ethereum provider is connected to chainId 99, but expected 1. Please switch networks in your wallet."];
                 Log LError [AErr (mkError "Wrong network: expected chainId 1, got 99")]]).
Proof.
  split; [reflexivity|]. split; [reflexivity|]. split; [discriminate|].
  destruct (callback_catches Sample.instance Sample.envWrongChain Sample.armed)
    as (N & S & _ & W & _).
  destruct (W 1%positive 99 eq_refl eq_refl) as (t0 & T & _); [discriminate|].
  exists t0.
  destruct (timerCallback Sample.instance Sample.envWrongChain Sample.armed)
    as [[c s'] t]. simpl in N, S, T. subst c s' t. reflexivity.
Defined.

Section Reach.

Variable i : EVMBootstrap.
Variable env : Env.

Lemma chainDiffers_false n c : chainDiffers n c = false <-> Some n = c.
Proof.
  split; intros H.
  - unfold chainDiffers in H. destruct c as [c|]; [|discriminate].
    apply negb_false_iff, Z.eqb_eq in H. now subst.
  - destruct (chainDiffers n c) eqn:E; [|reflexivity].
    apply chainDiffers_spec in E. contradiction.
Qed.

(** A run either gets as far as the resolution loop, or it issues a prefix
    of the three calls that come before it and leaves the list and the dial
    log alone. *)
Lemma discover_reach s :
  (exists peerIds, reachesLoops i env s peerIds)
  \/ (forall c s' t,
        _discoverBootstrapPeers i env s = (c, s', t) ->
        peerList s' = peerList s /\ dials s' = dials s
        /\ exists m, calls t = firstn m (headCalls i)).
Proof.
  destruct (timer s) as [h|] eqn:Ht.
  2:{ right. intros c s' t E. rewrite (discover_unarmed i env s Ht) in E.
      injection E as <- <- <-. repeat split. now exists 0%nat. }
  destruct (runCalls_frame i (during env PNetwork) s) as (Pn & Dn & _).
  fold (networkYield i env s) in Pn, Dn.
  destruct (getNetwork env) as [n|e] eqn:En.
  2:{ right. intros c s' t E. rewrite (discover_network_fails i env s h e Ht En) in E.
      injection E as <- <- <-. split; [exact Pn|]. split; [exact Dn|].
      exists 1%nat. apply networkTrace_calls. }
  destruct (chainDiffers n (chainId (_init i))) eqn:Ec.
  { right. intros c s' t E. rewrite (discover_wrong_network i env s h n Ht En Ec) in E.
    apply pair_equal_spec in E as [E <-]. apply pair_equal_spec in E as [<- <-].
    split; [exact Pn|]. split; [exact Dn|]. exists 1%nat.
    now rewrite calls_app, networkTrace_calls. }
  destruct (runCalls_frame i (during env PContract) (fst (networkYield i env s)))
    as (Pc & Dc & _).
  fold (contractYield i env (fst (networkYield i env s))) in Pc, Dc.
  destruct (newContract env) as [[]|e] eqn:E1.
  2:{ right. intros c s' t E. rewrite (discover_right_network i env s h n Ht En Ec) in E.
      rewrite (tryCatch_thrown _ _ _ _ _ _ (body_contract_throws i env _ e E1)) in E.
      unfold emit in E. rewrite !pre_result in E.
      apply pair_equal_spec in E as [E <-]. apply pair_equal_spec in E as [<- <-].
      split; [congruence|]. split; [congruence|]. exists 2%nat.
      now sift blind_calls. }
  destruct (getAllPeerIds env) as [peerIds|e] eqn:E2.
  { left. exists peerIds, h, n. repeat split; auto.
    now apply chainDiffers_false. }
  destruct (runCalls_frame i (during env PPeerIds)
              (fst (contractYield i env (fst (networkYield i env s))))) as (Pq & Dq & _).
  fold (peerIdsYield i env (fst (contractYield i env (fst (networkYield i env s)))))
    in Pq, Dq.
  right. intros c s' t E. rewrite (discover_right_network i env s h n Ht En Ec) in E.
  rewrite (tryCatch_thrown _ _ _ _ _ _ (body_query_throws i env _ e E1 E2)) in E.
  unfold emit in E. rewrite !pre_result in E.
  apply pair_equal_spec in E as [E <-]. apply pair_equal_spec in E as [<- <-].
  split; [congruence|]. split; [congruence|]. exists 3%nat.
  now sift blind_calls.
Qed.

(** What a run that gets as far as the loops does. *)
Lemma reach_shape s peerIds :
  reachesLoops i env s peerIds ->
  exists s' t k,
    _discoverBootstrapPeers i env s = (Normal tt, s', t)
    /\ peerList s' = peerList s ++ resolved env 0 peerIds
    /\ guardsPassed env (peerList s') 0 k
    /\ calls t = queryCalls i env peerIds
                 ++ flat_map (stepCalls i) (firstn k (peerList s'))
                 ++ tailCalls i (peerList s') k
    /\ runEnd env (peerList s') k s' t.
Proof.
  intros (h & n & Ht & En & Ec & E1 & E2).
  apply chainDiffers_false in Ec.
  destruct (discover_shape i env s h n peerIds Ht En Ec E1 E2)
    as (s' & t & k & R & P & _ & _ & G & C & End).
  exists s', t, k. now repeat split.
Qed.

Lemma resolved_length peerIds : forall n,
  (List.length (resolved env n peerIds) <= List.length peerIds)%nat.
Proof.
  induction peerIds as [|str rest IH]; intros n; simpl; [lia|].
  specialize (IH (S n)). destruct (resolveOutcome env n str); simpl; lia.
Qed.

Lemma resolved_In peerIds : forall n p,
  In p (resolved env n peerIds) ->
  exists j str, nth_error peerIds j = Some str
                /\ resolveOutcome env (n + j) str = Normal p.
Proof.
  induction peerIds as [|str rest IH]; intros n p H; [destruct H|]. simpl in H.
  assert (T : In p (resolved env (S n) rest) ->
              exists j str0, nth_error (str :: rest) j = Some str0
                             /\ resolveOutcome env (n + j) str0 = Normal p).
  { intros H'. destruct (IH (S n) p H') as (j & str0 & Hj & Ho).
    exists (S j), str0. split; [exact Hj|]. now rewrite Nat.add_succ_r. }
  destruct (resolveOutcome env n str) as [q|e] eqn:E; [|now apply T].
  destruct H as [<-|H]; [|now apply T].
  exists 0%nat, str. split; [reflexivity|]. now rewrite Nat.add_0_r.
Qed.

End Reach.

(** X4.  A run of the pipeline never removes or reorders entries of the
    list.  Either the run gets as far as the resolution loop, and then the
    list afterwards is the list before followed by the peers that the
    contract's identifiers resolved to, in order, at most one per identifier
    and each the answer of a lookup; or the list is left as it was. *)
Theorem list_only_grows i env s :
  (exists peerIds,
      reachesLoops i env s peerIds
      /\ peerList (snd (fst (_discoverBootstrapPeers i env s)))
         = peerList s ++ resolved env 0 peerIds
      /\ (List.length (resolved env 0 peerIds) <= List.length peerIds)%nat
      /\ forall p, In p (resolved env 0 peerIds) ->
                   exists j str, nth_error peerIds j = Some str
                                 /\ resolveOutcome env j str = Normal p)
  \/ peerList (snd (fst (_discoverBootstrapPeers i env s))) = peerList s.
Proof.
  destruct (discover_reach i env s) as [[peerIds H]|H].
  - left. exists peerIds. split; [exact H|].
    destruct (reach_shape i env s peerIds H) as (s' & t & k & R & P & _).
    rewrite R. split; [exact P|]. split; [apply resolved_length|].
    intros p Hp. destruct (resolved_In env peerIds 0 p Hp) as (j & str & Hj & Ho).
    now exists j, str.
  - right. destruct (_discoverBootstrapPeers i env s) as [[c s'] t] eqn:R.
    now destruct (H c s' t eq_refl).
Qed.

Lemma list_only_grows_witness :
  exists l,
    peerList (snd (fst (_discoverBootstrapPeers Sample.instance Sample.envLookupFails
                          Sample.rearmed)))
    = peerList Sample.rearmed ++ l.
Proof.
  destruct (list_only_grows Sample.instance Sample.envLookupFails Sample.rearmed)
    as [(ids & _ & P & _)|P].
  - eexists. exact P.
  - exists []. rewrite app_nil_r. exact P.
Defined.

(** X5.  The pipeline itself never arms, clears or replaces a timer: when
    nobody calls [start()] or [stop()] during a run, the instance's timer
    handle and the host's clock and pending timers are after the run what
    they were before; in particular an instance that was started is still
    started when the run ends. *)
Theorem run_leaves_timers i env s :
  undisturbed env ->
  timer (snd (fst (_discoverBootstrapPeers i env s))) = timer s
  /\ sched (snd (fst (_discoverBootstrapPeers i env s))) = sched s
  /\ isStarted (snd (fst (_discoverBootstrapPeers i env s))) = isStarted s.
Proof.
  intros U. destruct (discover_undisturbed i env s U) as [H1 H2].
  repeat split; auto. unfold isStarted. now rewrite H1.
Qed.

Lemma run_leaves_timers_witness :
  undisturbed Sample.env
  /\ timer (snd (fst (_discoverBootstrapPeers Sample.instance Sample.env Sample.armed)))
     = Some 1%positive.
Proof.
  split; [intros pt; reflexivity|].
  apply (run_leaves_timers Sample.instance Sample.env Sample.armed).
  intros pt. reflexivity.
Defined.

(** ** The guards look at whether a timer is set *)

Section Restart.

Variable i : EVMBootstrap.
Variable env : Env.
Hypothesis NS : forall pt, endsWithStop (during env pt) = false.

(** Unless the last call at a point is [stop()], a started instance is
    started when the pipeline resumes. *)
Lemma runCalls_stays cs s :
  endsWithStop cs = false -> isStarted s = true ->
  isStarted (fst (runCalls i cs s)) = true.
Proof.
  unfold endsWithStop. intros H Hs.
  destruct (rev cs) as [|c r] eqn:E.
  - assert (cs = []) as -> by (rewrite <- (rev_involutive cs), E; reflexivity).
    exact Hs.
  - destruct c; [|discriminate].
    assert (cs = rev r ++ [CallStart]) as ->
      by (rewrite <- (rev_involutive cs), E; reflexivity).
    rewrite runCalls_app. destruct (runCalls i (rev r) s) as [s1 t1]. simpl.
    unfold lifecycle. rewrite start_run.
    destruct (isStarted s1) eqn:H1; [exact H1|reflexivity].
Qed.

Lemma tagLoop_all l : forall n s,
  isStarted s = true ->
  (forall j p, nth_error l j = Some p -> merge env (n + j) p = Normal tt) ->
  exists s' t,
    tagLoop i env n l s = (Normal Fallthrough, s', t)
    /\ calls t = flat_map (stepCalls i) l
    /\ isStarted s' = true
    /\ peerList s' = peerList s
    /\ dials s' = dials s ++ inFlight l.
Proof.
  induction l as [|p rest IH]; intros n s Hs Hm.
  - exists s, []. simpl. now rewrite app_nil_r.
  - assert (Em : merge env n p = Normal tt).
    { rewrite <- (Nat.add_0_r n). now apply Hm. }
    pose proof (runCalls_stays (during env (PMerge n)) s (NS _) Hs) as H1.
    fold (mergeYield i env n s) in H1.
    pose proof (runCalls_stays (during env (PDispatch n)) _ (NS _) H1) as H2.
    fold (dispatchYield i env n (fst (mergeYield i env n s))) in H2.
    pose proof (runCalls_stays (during env (POpen n)) _ (NS _) H2) as H3.
    fold (openYield i env n (fst (dispatchYield i env n (fst (mergeYield i env n s)))))
      in H3.
    destruct (timer (fst (mergeYield i env n s))) as [h|] eqn:Et;
      [|unfold isStarted in H1; now rewrite Et in H1].
    rewrite (tagLoop_passes i env n p rest s h Em Et).
    destruct (IH (S n) (afterPass i env n p (fst (mergeYield i env n s))))
      as (s' & t & R & C & S' & P & D).
    { exact H3. }
    { intros j q Hj. rewrite Nat.add_succ_comm. now apply Hm. }
    exists s', (passTrace i env n p s ++ t). rewrite R, pre_result.
    split; [reflexivity|]. split.
    { now rewrite calls_app, passTrace_calls, C. }
    split; [exact S'|]. split.
    { now rewrite P, afterPass_frame. }
    rewrite D. unfold afterPass at 1. cbn [dials pushDial inFlight].
    unfold openYield, dispatchYield, mergeYield.
    rewrite !(proj1 (proj2 (runCalls_frame i _ _))), <- app_assoc. reflexivity.
Qed.

Lemma beforeTagging_stays peerIds s :
  isStarted s = true -> isStarted (beforeTagging i env peerIds s) = true.
Proof.
  intros Hs. unfold beforeTagging.
  apply (resolveLoop_preserves i env (fun s => isStarted s = true)).
  - intros pt s0 H. now apply runCalls_stays.
  - intros p s0 H. exact H.
  - unfold queried, peerIdsYield, contractYield, networkYield.
    now repeat apply runCalls_stays.
Qed.

End Restart.

(** A run in which no wait ends with [stop()] and every merge succeeds. *)
Lemma discover_full i env s peerIds :
  reachesLoops i env s peerIds ->
  (forall pt, endsWithStop (during env pt) = false) ->
  (forall j p, nth_error (peerList s ++ resolved env 0 peerIds) j = Some p ->
               merge env j p = Normal tt) ->
  exists s' t,
    _discoverBootstrapPeers i env s = (Normal tt, s', t)
    /\ peerList s' = peerList s ++ resolved env 0 peerIds
    /\ calls t = queryCalls i env peerIds ++ flat_map (stepCalls i) (peerList s')
    /\ isStarted s' = true
    /\ dials s' = dials s ++ inFlight (peerList s').
Proof.
  intros (h & n & Ht & En & Ec & E1 & E2) NS Hm.
  apply chainDiffers_false in Ec.
  assert (Hs : isStarted s = true) by (unfold isStarted; now rewrite Ht).
  destruct (discover_ok i env s h n peerIds Ht En Ec E1 E2)
    as (t0 & C0 & _ & _ & P0 & D0 & R).
  destruct (tagLoop_all i env NS (peerList (beforeTagging i env peerIds s)) 0
              (beforeTagging i env peerIds s)) as (s' & t1 & T & C1 & S1 & P1 & D1).
  { now apply beforeTagging_stays. }
  { intros j p Hj. apply Hm. now rewrite <- P0. }
  exists s', (t0 ++ t1 ++ catchLog (Normal Fallthrough)).
  split; [now apply R|]. split; [congruence|]. split.
  { rewrite !calls_app, C0, C1, P1. simpl. now rewrite app_nil_r. }
  split; [exact S1|]. rewrite D1, D0, P1. reflexivity.
Qed.

(** X6.  The guards of the pipeline look only at whether a timer is set,
    not at which one.  On an armed instance on the right chain with an
    answering contract and succeeding merges, a run processes the whole list
    and ends on a started instance as soon as no wait of the run ends with a
    call of [stop()]: a [stop()] that is followed by [start()] while the
    pipeline waits does not abort the run in progress. *)
Theorem restart_keeps_run i env s peerIds :
  reachesLoops i env s peerIds ->
  (forall pt, endsWithStop (during env pt) = false) ->
  (forall j p, nth_error (peerList s ++ resolved env 0 peerIds) j = Some p ->
               merge env j p = Normal tt) ->
  exists s' t,
    _discoverBootstrapPeers i env s = (Normal tt, s', t)
    /\ peerList s' = peerList s ++ resolved env 0 peerIds
    /\ calls t = queryCalls i env peerIds ++ flat_map (stepCalls i) (peerList s')
    /\ merges t = map (mergeCall i) (peerList s')
    /\ events t = map PeerEvent (peerList s')
    /\ opens t = map openCall (peerList s')
    /\ isStarted s' = true.
Proof.
  intros H NS Hm.
  destruct (discover_full i env s peerIds H NS Hm) as (s' & t & R & P & C & S' & _).
  exists s', t. split; [exact R|]. split; [exact P|]. split; [exact C|].
  unfold merges, events, opens.
  rewrite <- (filter_calls isMerge t callsOnly_merge),
          <- (filter_calls isPeerEvent t callsOnly_event),
          <- (filter_calls isOpenConnection t callsOnly_open), C, !filter_app.
  rewrite (filter_queryCalls i env isMerge peerIds downstream_merge),
          (filter_queryCalls i env isPeerEvent peerIds downstream_event),
          (filter_queryCalls i env isOpenConnection peerIds downstream_open).
  rewrite merges_stepCalls, events_stepCalls, opens_stepCalls. now repeat split.
Qed.

Lemma restart_keeps_run_witness :
  during Sample.envRestartDuringLookup (PFindPeer 1) = [CallStop; CallStart]
  /\ exists s' t,
       _discoverBootstrapPeers Sample.instance Sample.envRestartDuringLookup Sample.armed
       = (Normal tt, s', t)
       /\ peerList s' = [Sample.peerB; Sample.peerC; Sample.peerD]
       /\ isStarted s' = true.
Proof.
  split; [reflexivity|].
  destruct (restart_keeps_run Sample.instance Sample.envRestartDuringLookup Sample.armed
              Sample.mockPeerIds) as (s' & t & R & P & _ & _ & _ & _ & S').
  - exists 1%positive, 1. repeat split.
  - intros [| | |[|[|n]]|n|n|n]; reflexivity.
  - intros j p _. reflexivity.
  - exists s', t. split; [exact R|]. split; [exact P|exact S'].
Defined.

(** X7.  A run looks up a peer, writes to the registry, announces a peer
    or asks for a connection only if it started on an armed instance, the
    provider reported the configured chain, the contract was constructed and
    its query answered. *)
Theorem lookups_need_contract i env s e :
  In e (snd (_discoverBootstrapPeers i env s)) ->
  isFindPeer e || isMerge e || isPeerEvent e || isOpenConnection e = true ->
  exists peerIds, reachesLoops i env s peerIds.
Proof.
  intros Hin He. destruct (discover_reach i env s) as [H|H]; [exact H|exfalso].
  destruct (_discoverBootstrapPeers i env s) as [[c s'] t] eqn:R.
  destruct (H c s' t eq_refl) as (_ & _ & m & C). simpl in Hin.
  assert (Hc : In e (calls t)).
  { apply calls_In; [exact Hin|]. destruct e; try reflexivity; discriminate. }
  rewrite C in Hc.
  assert (Hh : In e (headCalls i)).
  { rewrite <- (firstn_skipn m (headCalls i)). apply in_or_app. now left. }
  destruct Hh as [<-|[<-|[<-|[]]]]; discriminate.
Qed.

Lemma lookups_need_contract_witness :
  exists peerIds, reachesLoops Sample.instance Sample.env Sample.armed peerIds.
Proof.
  apply (lookups_need_contract Sample.instance Sample.env Sample.armed
           (PeerEvent Sample.peerB)); [|reflexivity].
  vm_compute. do 14 right. repeat (try (left; reflexivity); right).
Defined.

(** ** At most one timer *)

Section SingleTimer.

Variable i : EVMBootstrap.











End SingleTimer.



(** A restart during the run arms a timer that falls due within the same
    advance: the pipeline runs twice. *)
Lemma restart_fires_again :
  executions
    (snd ((start Sample.delayed
           ;; tick Sample.delayed
                (fun n => match n with
                          | O => Sample.envRestartDuringLookup
                          | _ => Sample.env
                          end) 10000) Sample.fresh)) = 2%nat.
Proof. vm_compute. reflexivity. Qed.

(** X9.  Discovery is one-shot.  From an idle instance, [start()] and the
    passing of the delay run the pipeline once; when nobody calls [start()]
    or [stop()] during that run, the instance afterwards still reports that
    it is started although no timer is pending, so [start()] does nothing
    and no advance of the clock runs the pipeline again.  Only [stop()]
    followed by [start()] arms a new timer, whose firing runs the pipeline
    once more: exactly once in the advance by the delay, for a delay that
    the host's timers take as it is (at most 2^31-1 ms). *)
Theorem discovery_is_one_shot i envs s :
  timer s = None -> pending (sched s) = [] -> ticking (sched s) = false ->
  0 <= this_timeout i ->
  undisturbed (envs 0%nat) ->
  exists s1 t1,
    (start i ;; tick i envs (this_timeout i)) s = (Normal tt, s1, t1)
    /\ executions t1 = 1%nat
    /\ isStarted s1 = true
    /\ pending (sched s1) = []
    /\ start i s1 = (Normal tt, s1, [])
    /\ (forall envs' ms, snd (tick i envs' ms s1) = [])
    /\ (this_timeout i <= MAX_TIMEOUT ->
        forall envs',
          executions (snd ((stop ;; start i ;; tick i envs' (this_timeout i)) s1))
          = 1%nat).
Proof.
  intros Ht Hp Hk Hpos U.
  set (h := nextId (sched s)).
  set (due := now (sched s) + effectiveDelay false (this_timeout i)).
  assert (Le : 0 <= effectiveDelay false (this_timeout i) <= this_timeout i).
  { unfold effectiveDelay. rewrite andb_false_r.
    destruct (this_timeout i >? MAX_TIMEOUT) eqn:E; [apply Z.gtb_lt in E|];
      unfold MAX_TIMEOUT in *; lia. }
  assert (P : pending (sched (armedFrom i s)) = [(h, due)]).
  { simpl. now rewrite Hp, Hk. }
  assert (D : due <= now (sched (armedFrom i s)) + this_timeout i).
  { unfold due. simpl. lia. }
  set (s0 := setSched (fired h due (setTicking true (sched (armedFrom i s))))
               (armedFrom i s)).
  assert (T0 : timer s0 = Some h) by reflexivity.
  assert (P0 : pending (sched s0) = []).
  { unfold s0. simpl. rewrite Hp, Hk. simpl. now rewrite Pos.eqb_refl. }
  destruct (discover_undisturbed i (envs 0%nat) s0 U) as [T1 S1].
  rewrite <- timerCallback_state in T1, S1.
  set (s1 := advanced (now (sched (armedFrom i s)) + this_timeout i)
               (snd (fst (timerCallback i (envs 0%nat) s0)))).
  assert (T2 : timer s1 = Some h) by (unfold s1; simpl; congruence).
  assert (P2 : pending (sched s1) = []) by (unfold s1; simpl; congruence).
  assert (K2 : ticking (sched s1) = false) by reflexivity.
  assert (St1 : isStarted s1 = true) by (unfold isStarted; now rewrite T2).
  exists s1, (startLog i :: snd (timerCallback i (envs 0%nat) s0)).
  split.
  { erewrite bind_result; [|now apply start_idle].
    rewrite (tick_fires i envs (this_timeout i) (armedFrom i s) h due P Hpos D).
    - reflexivity.
    - fold s0. rewrite S1. unfold nextDue. now rewrite P0. }
  clearbody s1. split.
  { change (startLog i :: ?t) with ([startLog i] ++ t).
    rewrite executions_app. now rewrite (proj2 (timerCallback_runs i _ _)). }
  split; [exact St1|]. split; [exact P2|]. split; [now apply start_started|]. split.
  { intros envs' ms. now apply tick_idle. }
  intros Hb envs'.
  erewrite bind_result; [|apply stop_run]. rewrite T2, pre_nil.
  set (s2 := setTimer None (setSched (clearTimeout h (sched s1)) s1)).
  assert (P3 : pending (sched s2) = []) by (unfold s2; simpl; now rewrite P2).
  assert (K3 : ticking (sched s2) = false) by (unfold s2; simpl; exact K2).
  erewrite bind_result; [|now apply start_idle].
  destruct (armed_tick_runs i envs' (this_timeout i) (armedFrom i s2) (nextId (sched s2)))
    as (s' & t & T & X).
  { rewrite armedFrom_pending; auto. }
  { exact Hpos. }
  rewrite T, pre_result. cbn [snd].
  change (startLog i :: t) with ([startLog i] ++ t). now rewrite executions_app, X.
Qed.

Lemma discovery_is_one_shot_witness :
  timer Sample.fresh = None /\ pending (sched Sample.fresh) = []
  /\ ticking (sched Sample.fresh) = false
  /\ 0 <= this_timeout Sample.delayed /\ undisturbed Sample.env
  /\ exists s1 t1,
       (start Sample.delayed ;; tick Sample.delayed (fun _ => Sample.env) 5000)
         Sample.fresh = (Normal tt, s1, t1)
       /\ isStarted s1 = true
       /\ forall ms, snd (tick Sample.delayed (fun _ => Sample.env) ms s1) = [].
Proof.
  split; [reflexivity|]. split; [reflexivity|]. split; [reflexivity|].
  split; [discriminate|]. split; [intros pt; reflexivity|].
  destruct (discovery_is_one_shot Sample.delayed (fun _ => Sample.env) Sample.fresh)
    as (s1 & t1 & R & _ & S1 & _ & _ & Q & _);
    [reflexivity|reflexivity|reflexivity|discriminate|intros pt; reflexivity|].
  exists s1, t1. split; [exact R|]. split; [exact S1|]. intros ms. apply Q.
Defined.

(** The bound is needed: with a delay of 2^31 ms, which the host takes for
    1 ms, a restart during the second run arms a timer that fires within the
    advance by the delay, and the pipeline runs twice. *)
Lemma long_delay_runs_twice :
  executions
    (snd ((stop ;; start Sample.patient
           ;; tick Sample.patient
                (fun n => match n with
                          | O => Sample.envRestartDuringLookup
                          | _ => Sample.env
                          end) 2147483648) Sample.armed)) = 2%nat.
Proof. lazy. reflexivity. Qed.

(** ** Comparing runs *)

Section Agree.

Variable keep : Effect -> bool.
Variable Q : list Dial -> list Dial -> Prop.













Hypothesis keep_info : forall e, infoLog e = true -> keep e = true.






End Agree.

(** ** The pipeline before and after tracing was added *)

Section Tracing.

Variable i : EVMBootstrap.
Variable env : Env.





End Tracing.

(** The handlers of a dial without the [then] log what the handlers of the
    dial do, the trace line left out. *)
Lemma dialSettled_withoutSuccess d r :
  dialSettled (withoutSuccess d) r = filter notTrace (dialSettled d r).
Proof. destruct r as [[]|e]; simpl; [now destruct (tracesSuccess d)|reflexivity]. Qed.


(** ** Successive runs *)

(** X12.  The list is never cleared and never deduplicated, so successive
    runs accumulate.  When two runs in a row reach the loops, no wait ends
    with [stop()] and the merges succeed, the list after the second run is
    the list before the first followed by what the first and then the second
    resolved, and the second run tags, announces and dials again every entry
    that the first run left, before the entries it resolved itself. *)
Theorem runs_accumulate i env1 env2 s ids1 ids2 :
  reachesLoops i env1 s ids1 ->
  answers i env2 ids2 ->
  (forall pt, endsWithStop (during env1 pt) = false) ->
  (forall pt, endsWithStop (during env2 pt) = false) ->
  (forall j p, merge env1 j p = Normal tt) ->
  (forall j p, merge env2 j p = Normal tt) ->
  exists s1 t1 s2 t2,
    _discoverBootstrapPeers i env1 s = (Normal tt, s1, t1)
    /\ _discoverBootstrapPeers i env2 s1 = (Normal tt, s2, t2)
    /\ (_discoverBootstrapPeers i env1 ;; _discoverBootstrapPeers i env2) s
       = (Normal tt, s2, t1 ++ t2)
    /\ peerList s1 = peerList s ++ resolved env1 0 ids1
    /\ peerList s2 = peerList s1 ++ resolved env2 0 ids2
    /\ calls t2 = queryCalls i env2 ids2
                  ++ flat_map (stepCalls i) (peerList s1)
                  ++ flat_map (stepCalls i) (resolved env2 0 ids2).
Proof.
  intros H1 (n & En & Ec & E1 & E2) N1 N2 M1 M2.
  destruct (discover_full i env1 s ids1 H1 N1) as (s1 & t1 & R1 & P1 & _ & S1 & _).
  { intros j p _. apply M1. }
  unfold isStarted in S1. destruct (timer s1) as [h|] eqn:Ht; [|discriminate].
  destruct (discover_full i env2 s1 ids2) as (s2 & t2 & R2 & P2 & C2 & _).
  { exists h, n. now repeat split. }
  { exact N2. }
  { intros j p _. apply M2. }
  exists s1, t1, s2, t2. split; [exact R1|]. split; [exact R2|]. split.
  { erewrite bind_result; [|exact R1]. now rewrite R2, pre_result. }
  split; [exact P1|]. split; [exact P2|].
  now rewrite C2, P2, flat_map_app.
Qed.

Lemma runs_accumulate_witness :
  reachesLoops Sample.instance Sample.env Sample.armed Sample.mockPeerIds
  /\ answers Sample.instance Sample.env Sample.mockPeerIds
  /\ exists s1 t1 s2 t2,
       (_discoverBootstrapPeers Sample.instance Sample.env
        ;; _discoverBootstrapPeers Sample.instance Sample.env) Sample.armed
       = (Normal tt, s2, t1 ++ t2)
       /\ peerList s1 = [Sample.peerB; Sample.peerC; Sample.peerD]
       /\ peerList s2 = [Sample.peerB; Sample.peerC; Sample.peerD;
                         Sample.peerB; Sample.peerC; Sample.peerD].
Proof.
  assert (A : answers Sample.instance Sample.env Sample.mockPeerIds).
  { exists 1. now repeat split. }
  assert (H : reachesLoops Sample.instance Sample.env Sample.armed Sample.mockPeerIds).
  { exists 1%positive, 1. now repeat split. }
  split; [exact H|]. split; [exact A|].
  destruct (runs_accumulate Sample.instance Sample.env Sample.env Sample.armed
              Sample.mockPeerIds Sample.mockPeerIds H A)
    as (s1 & t1 & s2 & t2 & _ & _ & R & P1 & P2 & _);
    try (intros pt; reflexivity); try (intros j p; reflexivity).
  exists s1, t1, s2, t2. split; [exact R|]. split; [exact P1|].
  rewrite P2, P1. reflexivity.
Defined.

(** ** A stop that comes after the guard *)

(** X14.  [stop()] takes effect at the next guard only.  When the last
    lifecycle call made while the ["peer"] event of entry [k] is dispatched,
    or while its connection is requested, is [stop()], and nothing is called
    on the instance elsewhere, the run still requests the connection to
    entry [k] and still writes the next entry, if there is one, to the
    registry; only then does it return, with that entry neither announced
    nor dialled. *)
Theorem stop_takes_effect_late i env s peerIds k p pt :
  reachesLoops i env s peerIds ->
  nth_error (peerList s ++ resolved env 0 peerIds) k = Some p ->
  pt = PDispatch k \/ pt = POpen k ->
  endsWithStop (during env pt) = true ->
  (forall pt', pt' <> pt -> during env pt' = []) ->
  (forall j q, merge env j q = Normal tt) ->
  exists s' t,
    _discoverBootstrapPeers i env s = (Normal tt, s', t)
    /\ timer s' = None
    /\ peerList s' = peerList s ++ resolved env 0 peerIds
    /\ events t = map PeerEvent (firstn (S k) (peerList s'))
    /\ opens t = map openCall (firstn (S k) (peerList s'))
    /\ merges t = map (mergeCall i) (firstn (S (S k)) (peerList s')).
Proof.
  intros (h & n & Ht & En & Ec & E1 & E2) Hk Hpt Hstop Hq Hm.
  apply chainDiffers_false in Ec.
  destruct (nth_error_split _ _ Hk) as (l1 & l2 & Hl & Hlen).
  assert (Q : forall pt', pt' <> pt -> noStopAt env pt').
  { intros pt' D HIn. rewrite (Hq pt' D) in HIn. destruct HIn. }
  destruct (discover_prefix i env s h n peerIds l1 (p :: l2) Ht En Ec E1 E2 Hl)
    as (t0 & s0 & C0 & T0 & P0 & _ & R0).
  { apply Q. destruct Hpt; subst; discriminate. }
  { apply Q. destruct Hpt; subst; discriminate. }
  { apply Q. destruct Hpt; subst; discriminate. }
  { intros x. apply Q. destruct Hpt; subst; discriminate. }
  { intros x q _. apply Hm. }
  { intros x Hx. rewrite Hlen in Hx.
    repeat split; apply Q; destruct Hpt; subst; intros [= ->]; lia. }
  rewrite Hlen in R0.
  assert (Y1 : mergeYield i env k s0 = (s0, [])).
  { unfold mergeYield. rewrite Hq; [reflexivity|]. destruct Hpt; subst; discriminate. }
  assert (Et : timer (fst (mergeYield i env k s0)) = Some h) by now rewrite Y1.
  set (s1 := afterPass i env k p (fst (mergeYield i env k s0))).
  assert (T1 : timer s1 = None).
  { unfold s1, afterPass, openYield, dispatchYield. rewrite Y1. cbn [timer pushDial fst].
    destruct Hpt; subst pt.
    - rewrite (Hq (POpen k)); [|discriminate]. simpl. now apply endsWithStop_timer.
    - now apply endsWithStop_timer. }
  assert (P1 : peerList s1 = l1 ++ p :: l2).
  { unfold s1. now rewrite afterPass_frame. }
  assert (Rest : exists c t2,
            tagLoop i env (S k) l2 s1 = (Normal c, s1, t2)
            /\ calls t2 = map (mergeCall i) (firstn 1 l2)).
  { destruct l2 as [|q l3].
    - exists Fallthrough, []. now split.
    - assert (Y2 : mergeYield i env (S k) s1 = (s1, [])).
      { unfold mergeYield. rewrite Hq; [reflexivity|].
        destruct Hpt; subst; discriminate. }
      exists Returned. eexists. split.
      + rewrite (tagLoop_returns i env (S k) q l3 s1 (Hm _ _)); rewrite Y2; [|exact T1].
        reflexivity.
      + reflexivity. }
  destruct Rest as (c & t2 & R2 & C2).
  assert (R : tagLoop i env k (p :: l2) s0 = (Normal c, s1, passTrace i env k p s0 ++ t2)).
  { rewrite (tagLoop_passes i env k p l2 s0 h (Hm _ _) Et). fold s1.
    now rewrite R2, pre_result. }
  exists s1, (t0 ++ (passTrace i env k p s0 ++ t2) ++ catchLog (Normal c)).
  split; [now apply R0|]. split; [exact T1|]. split; [now rewrite P1|].
  assert (F1 : firstn (S k) (l1 ++ p :: l2) = l1 ++ [p]).
  { rewrite <- Hlen, <- Nat.add_1_r, firstn_app_2. reflexivity. }
  assert (F2 : firstn (S (S k)) (l1 ++ p :: l2) = l1 ++ p :: firstn 1 l2).
  { rewrite <- Hlen. change (S (S (List.length l1))) with (2 + List.length l1)%nat.
    rewrite Nat.add_comm, firstn_app_2. reflexivity. }
  rewrite P1, F1, F2.
  unfold merges, events, opens.
  rewrite <- (filter_calls _ _ callsOnly_merge), <- (filter_calls _ _ callsOnly_event),
          <- (filter_calls _ _ callsOnly_open).
  rewrite !calls_app, C0, passTrace_calls, C2. simpl (calls (catchLog _)).
  rewrite app_nil_r, !filter_app.
  rewrite (filter_queryCalls i env _ _ downstream_merge),
          (filter_queryCalls i env _ _ downstream_event),
          (filter_queryCalls i env _ _ downstream_open).
  rewrite merges_stepCalls, events_stepCalls, opens_stepCalls, !map_app. simpl.
  repeat split.
  - destruct l2; reflexivity.
  - destruct l2; simpl; now rewrite ?app_nil_r.
  - destruct l2; reflexivity.
Qed.

Lemma stop_takes_effect_late_witness :
  during Sample.envStopInListener (PDispatch 0) = [CallStop]
  /\ exists s' t,
       _discoverBootstrapPeers Sample.instance Sample.envStopInListener Sample.armed
       = (Normal tt, s', t)
       /\ timer s' = None
       /\ events t = [PeerEvent Sample.peerB]
       /\ opens t = [OpenConnection (id Sample.peerB)]
       /\ merges t = [mergeCall Sample.instance Sample.peerB;
                      mergeCall Sample.instance Sample.peerC].
Proof.
  split; [reflexivity|].
  destruct (stop_takes_effect_late Sample.instance Sample.envStopInListener Sample.armed
              Sample.mockPeerIds 0 Sample.peerB (PDispatch 0))
    as (s' & t & R & T & P & E & O & M).
  - exists 1%positive, 1. now repeat split.
  - reflexivity.
  - now left.
  - reflexivity.
  - intros pt' D. destruct pt' as [| | | | |[|m]|]; try reflexivity. now elim D.
  - intros j q. reflexivity.
  - rewrite P in E, O, M. exists s', t. now repeat split.
Defined.
